(** * MatrixMultBenchmark: the six loop orders of dense matrix multiplication

    A shallow embedding of [mmult.cpp]: the compile-time letter lookup
    ([Char], [getIndex], the macro [_]), the kernel [multiply], the trial
    runner [runSingle], the table printer [print] and the driver [main],
    followed by the properties of the benchmark that are checked against
    them. *)

From Stdlib Require Import ZArith Lia String Ascii.
From Stdlib Require Import Floats.SpecFloat.
From Stdlib Require Import Reals Lra.
From stdpp Require Import gmap strings list.

Local Open Scope Z_scope.

(** ** Scalars *)

(** [using ValueType = int;] a 32-bit signed integer, carried as a [Z];
    every arithmetic result is brought back into range by [wrap]
    (two's complement, the native behaviour of the scalar type). *)
Abbreviation ValueType := Z.

Definition wrap (z : Z) : ValueType := (z + 2 ^ 31) mod 2 ^ 32 - 2 ^ 31.

Definition int_add (x y : ValueType) : ValueType := wrap (x + y).
Definition int_mul (x y : ValueType) : ValueType := wrap (x * y).

(** [std::uint32_t] and [std::uint64_t] values obtained by conversion. *)
Definition to_uint32 (z : Z) : Z := z mod 2 ^ 32.
Definition to_uint64 (z : Z) : Z := z mod 2 ^ 64.

(** [const uint32_t CHECKSUM_MAX {10000};] *)
Definition CHECKSUM_MAX : Z := 10000.

(** ** Matrices *)

(** [using Matrix2x2 = boost::multi_array <ValueType, 2>;] the two
    extents and the elements in one contiguous block, in row-major order
    (the default storage order). *)
Record Matrix2x2 := mkMatrix {
  extent0 : nat;
  extent1 : nat;
  data : list ValueType
}.

(** [Matrix2x2 M {boost::extents[n][m]}]: every element starts as
    [ValueType()], that is 0. *)
Definition new_matrix (n m : nat) : Matrix2x2 :=
  mkMatrix n m (replicate (n * m) 0).

Definition num_elements (M : Matrix2x2) : nat := extent0 M * extent1 M.

(** Offset of [M[r][c]] in [data]. *)
Definition offset (M : Matrix2x2) (r c : nat) : nat := (r * extent1 M + c)%nat.

(** [M[r][c]] read. Bounds assertions are disabled in the source
    ([BOOST_DISABLE_ASSERTS]); the kernel only reads inside the block, and
    a read outside it is given the value 0 here. *)
Definition elem (M : Matrix2x2) (r c : nat) : ValueType :=
  default 0 (data M !! offset M r c).

(** [M[r][c] += v]. *)
Definition add_to (M : Matrix2x2) (r c : nat) (v : ValueType) : Matrix2x2 :=
  mkMatrix (extent0 M) (extent1 M)
           (alter (fun x => int_add x v) (offset M r c) (data M)).

(** [std::fill_n (first, count, value)] on a block: the first [count]
    cells are overwritten. *)
Definition fill_n (block : list ValueType) (count : nat) (value : ValueType)
    : list ValueType :=
  replicate (Nat.min count (length block)) value ++ drop count block.

(** [std::fill_n (C.data(), C.num_elements(), 0)]. *)
Definition fill_zero (C : Matrix2x2) : Matrix2x2 :=
  mkMatrix (extent0 C) (extent1 C) (fill_n (data C) (num_elements C) 0).

(** ** Compile-time letter lookup *)

(** [Char <Index> {arr}]: the letter of the literal at [Index]. *)
Definition Char (Index : nat) (arr : string) : ascii :=
  default "000"%char (String.get Index arr).

(** [index + 1] on a [std::uint32_t]: the successor modulo 2^32. *)
Definition uint32_succ (index : nat) : nat :=
  Z.to_nat (to_uint32 (Z.of_nat index + 1)).

(** [getIndex <char, Value, Args...> (index)]: position of the first of
    [Args] equal to [Value], counted from [index] in [std::uint32_t]; the
    overload without [Args] returns 0. *)
Fixpoint getIndex (Value : ascii) (Args : list ascii) (index : nat) : nat :=
  match Args with
  | [] => 0%nat
  | Other :: Args' =>
      if Ascii.eqb Value Other then index
      else getIndex Value Args' (uint32_succ index)
  end.

(** [std::get <n> (std::tie (i, j, k))]; with three letters [getIndex]
    never exceeds 2. *)
Definition tie_get (n : nat) (i j k : nat) : nat :=
  match n with
  | 0%nat => i
  | 1%nat => j
  | _ => k
  end.

(** The template parameters [<char L1, char L2, char L3>]. *)
Record Letters := mkLetters { L1 : ascii; L2 : ascii; L3 : ascii }.

(** The macro [_(X)] inside [multiply <L1, L2, L3>]. *)
Definition sel (L : Letters) (X : ascii) (i j k : nat) : nat :=
  tie_get (getIndex X [L1 L; L2 L; L3 L] 0) i j k.

(** ** The kernel *)

(** [for (std::uint32_t i{0}; i < N; ++i) body] over a state. *)
Definition for_loop {St : Type} (N : nat) (body : nat -> St -> St) (s : St) : St :=
  foldl (fun s i => body i s) s (seq 0 N).

(** [C[_(i)][_(j)] += A[_(i)][_(k)] * B[_(k)][_(j)];] *)
Definition kernel_body (L : Letters) (A B : Matrix2x2) (i j k : nat)
    (C : Matrix2x2) : Matrix2x2 :=
  let r := sel L "i" i j k in
  let c := sel L "j" i j k in
  let d := sel L "k" i j k in
  add_to C r c (int_mul (elem A r d) (elem B d c)).

(** The triple loop of [multiply]. *)
Definition multiply_loops (L : Letters) (A B C : Matrix2x2) (N : nat) : Matrix2x2 :=
  for_loop N (fun i =>
    for_loop N (fun j =>
      for_loop N (fun k => kernel_body L A B i j k))) C.

(** ** The clock *)

(** The readings of [std::chrono::high_resolution_clock] are outside the
    program: [readings k] is the value of
    [duration_cast <microseconds> (stopTime - startTime).count()] at the
    [k]-th execution of the kernel, and [taken] counts the executions so
    far. *)
Record Timer := mkTimer { readings : nat -> Z; taken : nat }.

Definition measure (t : Timer) : Z * Timer :=
  (to_uint64 (readings t (taken t)), mkTimer (readings t) (S (taken t))).

(** [using FunctionType = std::function <std::uint64_t (const Matrix2x2 &,
    const Matrix2x2 &, Matrix2x2 &, const std::uint32_t N)>]: the elapsed
    time is returned, [C] is updated in place, the clock moves on. *)
Definition FunctionType : Type :=
  Matrix2x2 -> Matrix2x2 -> Matrix2x2 -> nat -> Timer -> Z * Matrix2x2 * Timer.

(** [template <char L1, char L2, char L3> std::uint64_t multiply (A, B, C, N)]. *)
Definition multiply (L : Letters) : FunctionType :=
  fun A B C N t =>
    let C' := multiply_loops L A B C N in
    let '(us, t') := measure t in
    (us, C', t').

(** [CREATE_MAPPING (X)]:
    [{ X , &multiply <Char<0>{X}, Char<1>{X}, Char<2>{X}> }]. *)
Definition letters_of (X : string) : Letters :=
  mkLetters (Char 0 X) (Char 1 X) (Char 2 X).

Definition CREATE_MAPPING (X : string) : string * FunctionType :=
  (X, multiply (letters_of X)).

(** [const std::map <std::string, FunctionType> FUNCTION_MAP], listed in
    key order, which is the order a [std::map] is traversed in. *)
Definition FUNCTION_MAP : list (string * FunctionType) :=
  [ CREATE_MAPPING "ijk"; CREATE_MAPPING "ikj"; CREATE_MAPPING "jik";
    CREATE_MAPPING "jki"; CREATE_MAPPING "kij"; CREATE_MAPPING "kji" ].

(** [FUNCTION_MAP.at (order)]; [None] stands for [std::out_of_range]. *)
Fixpoint map_at {V : Type} (m : list (string * V)) (key : string) : option V :=
  match m with
  | [] => None
  | (k, v) :: m' => if String.eqb k key then Some v else map_at m' key
  end.

(** ** Floating point *)

(** [double] is IEEE 754 binary64 and [float] binary32; both are carried
    as [spec_float], with the operations of the format in use. *)
Definition double_of_Z (z : Z) : spec_float := binary_normalize 53 1024 z 0 false.
Definition double_mul : spec_float -> spec_float -> spec_float := SFmul 53 1024.
Definition double_div : spec_float -> spec_float -> spec_float := SFdiv 53 1024.

(** Conversion of a [double] to [float], rounding to nearest even. *)
Definition float_of_double (x : spec_float) : spec_float :=
  match x with
  | S754_finite s m e => binary_round 24 128 s m e
  | _ => x
  end.

(** [1.0 * timeSum / TRIALS], a [double], as the [float] of the pair
    that [runSingle] returns: the 64-bit sum and the 32-bit count are
    converted to [double], the product and the quotient are taken in
    [double], and the quotient is converted to [float]. *)
Definition average (timeSum : Z) (TRIALS : nat) : spec_float :=
  float_of_double
    (double_div (double_mul (double_of_Z 1) (double_of_Z timeSum))
                (double_of_Z (Z.of_nat TRIALS))).

(** ** Real values of floating-point numbers *)

(** The power of two [2 ^ e], the value [m * 2 ^ e] of a mantissa and an
    exponent, and the real number a finite float stands for. *)
Definition bpow (e : Z) : R := powerRZ 2 e.

Definition F2R (m e : Z) : R := (IZR m * bpow e)%R.

Definition SF2R (x : spec_float) : R :=
  match x with
  | S754_finite s m e => F2R (cond_Zopp s (Zpos m)) e
  | _ => 0%R
  end.

(** Where a real number lies with respect to an integer and its
    successor, as a [location] records it. *)
Definition inbetween (m : Z) (l : location) (y : R) : Prop :=
  match l with
  | loc_Exact => y = IZR m
  | loc_Inexact Lt => (IZR m < y < IZR m + / 2)%R
  | loc_Inexact Eq => y = (IZR m + / 2)%R
  | loc_Inexact Gt => (IZR m + / 2 < y < IZR m + 1)%R
  end.

(** [x'] is within the relative distance [eps] of [x]. *)
Definition close (eps x' x : R) : Prop := (Rabs (x' - x) <= eps * x)%R.

(** ** The trial runner *)

(** [using ResultValueType = std::pair <float, ValueType>;] *)
Abbreviation ResultValueType := (spec_float * ValueType)%type.

(** [std::accumulate (first, last, 0)] over [ValueType]. *)
Definition accumulate (block : list ValueType) (init : ValueType) : ValueType :=
  foldl int_add init block.

(** One turn of the loop of [runSingle], on the time sum, the accumulator
    and the clock. *)
Definition trial (mmult : FunctionType) (A B : Matrix2x2) (N : nat)
    (s : Z * Matrix2x2 * Timer) : Z * Matrix2x2 * Timer :=
  let '(timeSum, C, t) := s in
  let C0 := fill_zero C in
  let '(us, C', t') := mmult A B C0 N t in
  (to_uint64 (timeSum + us), C', t').

(** [ResultValueType runSingle (FunctionType mmult, A, B, C, N)], with the
    global [TRIALS] as a first argument. Besides the pair returned, the
    accumulator and the clock as they are left are given back. *)
Definition runSingle (TRIALS : nat) (mmult : FunctionType) (A B C : Matrix2x2)
    (N : nat) (t : Timer) : ResultValueType * Matrix2x2 * Timer :=
  let '(timeSum, C', t') :=
    for_loop TRIALS (fun _ => trial mmult A B N) (0, C, t) in
  let elements := to_uint32 (Z.of_nat (num_elements C')) in
  ((average timeSum TRIALS,
    accumulate (take (Z.to_nat (Z.min CHECKSUM_MAX elements)) (data C')) 0),
   C', t').

(** ** The result store *)

(** [using ResultKeyType = std::pair <std::uint32_t, std::string>;]
    [using ResultsType = std::map <ResultKeyType, ResultValueType>;] *)
Abbreviation ResultKeyType := (nat * string)%type.
Abbreviation ResultsType := (gmap (nat * string) (spec_float * Z)).

(** [results.insert ({key, value})]: [std::map::insert] leaves the map as
    it is when the key is already there. *)
Definition results_insert (results : ResultsType) (key : ResultKeyType)
    (value : ResultValueType) : ResultsType :=
  match results !! key with
  | Some _ => results
  | None => <[key := value]> results
  end.

(** [results[key]]: the stored value; a missing key is first entered
    with a value-initialised pair. *)
Definition results_index (results : ResultsType) (key : ResultKeyType)
    : ResultValueType * ResultsType :=
  match results !! key with
  | Some v => (v, results)
  | None => ((S754_zero false, 0), <[key := (S754_zero false, 0)]> results)
  end.

(** [results.at (key)]; [None] stands for [std::out_of_range]. *)
Definition results_at (results : ResultsType) (key : ResultKeyType)
    : option ResultValueType :=
  results !! key.

(** ** Output *)

(** What is inserted into a stream, in order. *)
Inductive Item :=
  | Text (s : string)
  | Letter (c : ascii)
  | Unsigned (n : nat)
  | Real (x : spec_float)
  | Integer (z : ValueType)
  | Endl
  | Fixed
  | Precision (digits : nat)
  | SetW (width : nat)
  | Description.

(** [print (title, orderList, sizeList, dataAccessor)]; the accessor may
    throw, which is [None]. *)
Definition FP_PRECISION : nat := 1.
Definition HEADING_WIDTH : nat := 7.
Definition DATA_WIDTH : nat := 15.

Fixpoint print_cells (N : nat) (orderList : list string)
    (dataAccessor : ResultKeyType -> option Item) : option (list Item) :=
  match orderList with
  | [] => Some []
  | order :: rest =>
      match dataAccessor (N, order) with
      | None => None
      | Some v =>
          match print_cells N rest dataAccessor with
          | None => None
          | Some items => Some (SetW DATA_WIDTH :: v :: Letter " " :: items)
          end
      end
  end.

Fixpoint print_rows (orderList : list string) (sizeList : list nat)
    (dataAccessor : ResultKeyType -> option Item) : option (list Item) :=
  match sizeList with
  | [] => Some []
  | N :: rest =>
      match print_cells N orderList dataAccessor with
      | None => None
      | Some cells =>
          match print_rows orderList rest dataAccessor with
          | None => None
          | Some rows =>
              Some ([SetW HEADING_WIDTH; Unsigned N; Letter " "] ++ cells
                    ++ [Endl] ++ rows)
          end
      end
  end.

Definition print (title : string) (orderList : list string)
    (sizeList : list nat) (dataAccessor : ResultKeyType -> option Item)
    : option (list Item) :=
  match print_rows orderList sizeList dataAccessor with
  | None => None
  | Some rows =>
      Some ([Fixed; Precision FP_PRECISION;
             Text (String "010" (String "010" "")); Text title;
             Text (String "010" (String "010" ""));
             SetW HEADING_WIDTH; Letter "N"; Letter " "]
            ++ (orderList ≫= fun order => [SetW DATA_WIDTH; Text order; Letter " "])
            ++ [Endl; SetW HEADING_WIDTH; Text "====="; Letter " "]
            ++ (orderList ≫= fun _ => [SetW DATA_WIDTH; Text "=========="; Letter " "])
            ++ [Endl] ++ rows)
  end.

(** [conditionalPrint (os, flag) << items]: the items reach [os] when the
    flag is set and [EMPTY_STREAM] otherwise. *)
Definition conditionalPrint (os : list Item) (flag : bool) (items : list Item)
    : list Item :=
  if flag then os ++ items else os.

(** ** The random source *)

(** [std::mt19937_64] and [std::uniform_int_distribution <ValueType>]
    come from the standard library. What the driver relies on is kept:
    an engine state obtained from a seed, and [dist (eng)], which gives a
    value between the two bounds of [DistributionType dist {0, 4}] and
    moves the engine on. *)
Class RandomSource := {
  EngineType : Type;
  seed_engine : nat -> EngineType;
  dist : EngineType -> ValueType * EngineType;
  dist_range : forall eng, 0 <= (dist eng).1 <= 4
}.

(** ** The driver *)

(** The command line as [boost::program_options] delivers it: a flag is
    present or not, an option with values is [None] when it was not
    given. *)
Record Options := mkOptions {
  opt_help : bool;
  opt_all : bool;
  opt_iterations : option nat;
  opt_seed : option nat;
  opt_sizes : option (list nat);
  opt_traversals : option (list string)
}.

(** What [std::cin >> N] and [std::cin >> order] deliver. *)
Record Input := mkInput { in_N : nat; in_order : string }.

(** How the process ends: with one of the two statuses, or in
    [std::terminate] on an exception that nothing catches. *)
Inductive ExitStatus := EXIT_SUCCESS | EXIT_FAILURE | Terminate.

(** The free store is outside the program, as the clock is:
    [grants k n] tells whether the [k]-th request of the run, for a
    block of [n] elements of [ValueType], is granted, and [requested]
    counts the requests made so far. Only the blocks of the matrices are
    requested through it; the small objects of the driver (the lists,
    the store, the streams) are taken to be granted. *)
Record Heap := mkHeap { grants : nat -> nat -> bool; requested : nat }.

(** [Matrix2x2 M {boost::extents[N][N]}]: the constructor requests a
    block of [N * N] elements; [None] stands for [std::bad_alloc]. The
    block granted is value-initialised ([new_matrix]). *)
Definition construct (N : nat) (h : Heap) : option Heap :=
  if grants h (requested h) (N * N)
  then Some (mkHeap (grants h) (S (requested h)))
  else None.

(** The three declarations at the head of the body of
    [for (auto N : sizeList)], in order. *)
Definition declare_matrices (N : nat) (h : Heap) : option Heap :=
  match construct N h with
  | None => None
  | Some h1 =>
      match construct N h1 with
      | None => None
      | Some h2 => construct N h2
      end
  end.

(** The state the loops of [main] work on. *)
Record State := mkState {
  results : ResultsType;
  cout : list Item;
  cerr : list Item;
  timer : Timer;
  heap : Heap
}.

(** A statement either falls through or leaves the process. *)
Inductive Step (St : Type) :=
  | Go (s : St)
  | Exit (status : ExitStatus) (s : St).
Arguments Go {St} s.
Arguments Exit {St} status s.

(** A range-based [for] whose body may leave the process. *)
Fixpoint for_each {X St : Type} (xs : list X) (body : X -> St -> Step St) (s : St)
    : Step St :=
  match xs with
  | [] => Go s
  | x :: xs' =>
      match body x s with
      | Go s' => for_each xs' body s'
      | Exit status s' => Exit status s'
      end
  end.

(** What the body of the inner loop writes: the progress line, the
    diagnostic of the handler, and the report of a single run. *)
Definition progress (N : nat) (order : string) : list Item :=
  [Text "Trials for "; Unsigned N; Text " with order "; Text order;
   Text "    "; Letter "013"].

Definition diagnostic (order : string) : list Item :=
  [Text "invalid traversal provided: "; Text order; Endl].

Definition report (time : spec_float) (sum : ValueType) : list Item :=
  [Text ("-- BEGIN OUTPUT --" ++ String "010" "");
   Text "Time (us) = "; Real time; Text (String "010" "");
   Text "Sum       = "; Integer sum; Text (String "010" "");
   Text "-- END OUTPUT --"; Endl].

(** The body of [for (auto order : orderList)]: the [try] block and its
    handler. The accumulator [C] is carried along with the state. *)
Definition dispatch (TRIALS : nat) (CUSTOM : bool) (A B : Matrix2x2) (N : nat)
    (order : string) (s : Matrix2x2 * State) : Step (Matrix2x2 * State) :=
  let '(C, st) := s in
  let err := conditionalPrint (cerr st) CUSTOM (progress N order) in
  match map_at FUNCTION_MAP order with
  | None =>
      Exit EXIT_FAILURE
           (C, mkState (results st) (cout st) (err ++ diagnostic order) (timer st)
                       (heap st))
  | Some mmult =>
      let '(value, C', t') := runSingle TRIALS mmult A B C N (timer st) in
      let res := results_insert (results st) (N, order) value in
      let '(v1, res1) := results_index res (N, order) in
      let '(v2, res2) := results_index res1 (N, order) in
      Go (C', mkState res2
                      (conditionalPrint (cout st) (negb CUSTOM) (report v1.1 v2.2))
                      err t' (heap st))
  end.

(** The two tables printed at the end. *)
Definition tables (res : ResultsType) (orderList : list string)
    (sizeList : list nat) : option (list Item) :=
  match print "TIMES (MICROSECONDS):" orderList sizeList
          (fun key => (fun v : ResultValueType => Real v.1) <$> results_at res key) with
  | None => None
  | Some times =>
      match print "SUMS:" orderList sizeList
              (fun key => (fun v : ResultValueType => Integer v.2) <$> results_at res key) with
      | None => None
      | Some sums => Some (times ++ sums)
      end
  end.

(** The lists [main] iterates over, and what the interactive branch
    writes on the way. *)
Definition default_sizes : list nat := [100; 200; 300; 400; 500]%nat.

Definition prompts : list Item :=
  [Text "-- BEGIN INPUT --"; Endl; Text "N     ==> "; Text "Order ==> ";
   Text "-- END INPUT --"; Endl].

Definition RUN_ALL (opts : Options) : bool := opt_all opts.

Definition CUSTOM (opts : Options) : bool :=
  (bool_decide (is_Some (opt_sizes opts)) && bool_decide (is_Some (opt_traversals opts)))
  || RUN_ALL opts.

Definition select_lists (opts : Options) (input : Input)
    : list nat * list string * list Item :=
  let sizeList := default [] (opt_sizes opts) in
  let orderList := default [] (opt_traversals opts) in
  if RUN_ALL opts then (default_sizes, orderList ++ FUNCTION_MAP.*1, [])
  else if negb (CUSTOM opts) then ([in_N input], [in_order input], prompts)
  else (sizeList, orderList, []).

(** ** The sweep *)

Section Driver.
Context `{RandomSource}.

(** [GeneratorType gen {std::bind (dist, eng)}]: a function object that
    holds its own copy of the engine; a call draws from that copy. *)
Definition GeneratorType : Type := EngineType.

Definition bind_dist (eng : EngineType) : GeneratorType := eng.

Definition call (g : GeneratorType) : ValueType * GeneratorType := dist g.

(** The loop of [std::generate_n]: [count] calls of [g], in order. *)
Fixpoint generate_loop (count : nat) (g : GeneratorType)
    : list ValueType * GeneratorType :=
  match count with
  | O => ([], g)
  | S count' =>
      let '(v, g') := call g in
      let '(vs, g'') := generate_loop count' g' in
      (v :: vs, g'')
  end.

(** [std::generate_n (first, count, g)]: the generator is a by-value
    parameter, so the calls move a copy of the caller's object on, and
    the copy is gone when the function returns; the block written is all
    that comes back. *)
Definition generate_n (block : list ValueType) (count : nat) (g : GeneratorType)
    : list ValueType :=
  let '(vs, _) := generate_loop count g in
  take (length block) vs ++ drop count block.

Definition generate_matrix (M : Matrix2x2) (gen : GeneratorType) : Matrix2x2 :=
  mkMatrix (extent0 M) (extent1 M) (generate_n (data M) (num_elements M) gen).

(** The head of the body of [for (auto N : sizeList)], once the blocks
    of the three matrices are granted ([declare_matrices]): the matrices
    are value-initialised, then [A] and [B] are filled, each by a call
    of [std::generate_n] on [gen]. *)
Definition make_inputs (gen : GeneratorType) (N : nat)
    : Matrix2x2 * Matrix2x2 * Matrix2x2 :=
  let A := new_matrix N N in
  let B := new_matrix N N in
  let C := new_matrix N N in
  let A' := generate_matrix A gen in
  let B' := generate_matrix B gen in
  (A', B', C).

(** The body of [for (auto N : sizeList)]. The declarations stand
    outside the [try] block: a refused block is an exception nothing
    catches. *)
Definition sweep_size (TRIALS : nat) (CUSTOM : bool) (gen : GeneratorType)
    (orderList : list string) (N : nat) (st : State) : Step State :=
  match declare_matrices N (heap st) with
  | None => Exit Terminate st
  | Some h =>
      let '(A, B, C) := make_inputs gen N in
      let st0 := mkState (results st) (cout st) (cerr st) (timer st) h in
      match for_each orderList (dispatch TRIALS CUSTOM A B N) (C, st0) with
      | Go (_, st') => Go st'
      | Exit status (_, st') => Exit status st'
      end
  end.

(** [int main (int argc, char* argv[])], with the clock and the free
    store of the run. *)
Definition main (opts : Options) (input : Input) (clock : nat -> Z)
    (memory : nat -> nat -> bool) : ExitStatus * State :=
  let TRIALS := default 5%nat (opt_iterations opts) in
  let SEED := default 0%nat (opt_seed opts) in
  if opt_help opts then
    (EXIT_SUCCESS,
     mkState ∅ [Description; Endl] [] (mkTimer clock 0) (mkHeap memory 0))
  else
    let '(sizeList, orderList, asked) := select_lists opts input in
    let eng := seed_engine SEED in
    let gen := bind_dist eng in
    let st1 := mkState ∅ asked [] (mkTimer clock 0) (mkHeap memory 0) in
    match for_each sizeList (sweep_size TRIALS (CUSTOM opts) gen orderList) st1 with
    | Exit status st => (status, st)
    | Go st =>
        match tables (results st) orderList sizeList with
        | None => (Terminate, st)
        | Some text =>
            (EXIT_SUCCESS,
             mkState (results st)
                     (conditionalPrint (cout st) (CUSTOM opts)
                        ([Text "Done!                                "; Endl] ++ text))
                     (cerr st) (timer st) (heap st))
        end
    end.

End Driver.

(** ** Reference notions the properties are stated with *)

(** The iteration space of the triple loop: the values of the counters
    [(i, j, k)] in the order the loops produce them. *)
Definition iterations (N : nat) : list (nat * nat * nat) :=
  i ← seq 0 N; j ← seq 0 N; k ← seq 0 N; [(i, j, k)].

(** The three roles at one iteration: the row [_(i)] of [A] and [C], the
    column [_(j)] of [B] and [C], the reduction index [_(k)]. *)
Definition binding (L : Letters) (ijk : nat * nat * nat) : nat * nat * nat :=
  let '(i, j, k) := ijk in
  (sel L "i" i j k, sel L "j" i j k, sel L "k" i j k).

(** The (row, column, reduction) triples one kernel execution goes
    through, in order. *)
Definition visits (L : Letters) (N : nat) : list (nat * nat * nat) :=
  binding L <$> iterations N.

(** The loop position of each role: where the letters i, j and k stand
    among the template parameters. *)
Definition positions (L : Letters) : list nat :=
  [getIndex "i" [L1 L; L2 L; L3 L] 0; getIndex "j" [L1 L; L2 L; L3 L] 0;
   getIndex "k" [L1 L; L2 L; L3 L] 0].

(** One update of the accumulator, by roles. *)
Definition update (A B : Matrix2x2) (C : Matrix2x2) (rcd : nat * nat * nat)
    : Matrix2x2 :=
  let '(r, c, d) := rcd in
  add_to C r c (int_mul (elem A r d) (elem B d c)).

(** The standard matrix product in the scalar type: entry (r, c) is the
    sum over d of [A[r][d] * B[d][c]], accumulated from 0 with the
    additions and multiplications of [ValueType]. *)
Definition dot (A B : Matrix2x2) (N r c : nat) : ValueType :=
  foldl (fun acc d => int_add acc (int_mul (elem A r d) (elem B d c))) 0 (seq 0 N).

Definition standard_product (A B : Matrix2x2) (N : nat) : Matrix2x2 :=
  mkMatrix N N ((fun p => dot A B N (p / N) (p mod N)) <$> seq 0 (N * N)).

(** The same sum over the integers, without any wrap-around. *)
Definition Zsum (l : list Z) : Z := foldr Z.add 0 l.

Definition exact_dot (A B : Matrix2x2) (N r c : nat) : Z :=
  Zsum ((fun d => elem A r d * elem B d c) <$> seq 0 N).

(** What the triple (r, c, d) adds to entry (r0, c0). *)
Definition share (A B : Matrix2x2) (r0 c0 : nat) (rcd : nat * nat * nat) : Z :=
  let '(r, c, d) := rcd in
  if decide (r = r0 /\ c = c0) then elem A r d * elem B d c else 0.

(** Values of the scalar type. *)
Definition in_range (z : Z) : Prop := - 2 ^ 31 <= z < 2 ^ 31.

(** A matrix read from rows of values. *)
Definition of_rows (N : nat) (rows : list (list ValueType)) : Matrix2x2 :=
  mkMatrix N N (concat rows).

(** The two matrices of the worked example. *)
Definition A2 : Matrix2x2 := of_rows 2 [[1; 2]; [3; 4]].
Definition B2 : Matrix2x2 := of_rows 2 [[5; 6]; [7; 8]].

(** The sum of the elapsed times of [TRIALS] kernel executions in a row,
    starting from the clock [t]. *)
Definition total_time (t : Timer) (TRIALS : nat) : Z :=
  Zsum ((fun k => to_uint64 (readings t (taken t + k))) <$> seq 0 TRIALS).

(** A matrix of [N] rows and [N] columns with its block in place. *)
Definition square (N : nat) (M : Matrix2x2) : Prop :=
  extent0 M = N /\ extent1 M = N /\ length (data M) = (N * N)%nat.

(** The accumulator as [runSingle] leaves it on a kernel, and the
    checksum it then returns. *)
Definition final_C (TRIALS : nat) (A B : Matrix2x2) (N : nat) : Matrix2x2 :=
  match TRIALS with
  | O => new_matrix N N
  | S _ => standard_product A B N
  end.

Definition expected_checksum (TRIALS : nat) (A B : Matrix2x2) (N : nat) : ValueType :=
  accumulate
    (take (Z.to_nat (Z.min CHECKSUM_MAX (to_uint32 (Z.of_nat (N * N)))))
          (data (final_C TRIALS A B N))) 0.

(** The checksums of a result store, and how an insertion shows there. *)
Definition checksums (results : ResultsType) : gmap (nat * string) Z :=
  snd <$> results.

Definition checksum_insert (m : gmap (nat * string) Z) (key : nat * string) (c : Z)
    : gmap (nat * string) Z :=
  match m !! key with
  | Some _ => m
  | None => <[key := c]> m
  end.

(** The checksums after the orders of a list were dispatched at size
    [N], all with one checksum [c]. *)
Definition checksums_after (N : nat) (c : Z) (orders : list string)
    (m : gmap (nat * string) Z) : gmap (nat * string) Z :=
  foldl (fun m order => checksum_insert m (N, order) c) m orders.

(** The six labels, as the keys of [FUNCTION_MAP]. *)
Definition labels : list string := FUNCTION_MAP.*1.

(** The orders of a list up to the first that is not one of the six
    labels, and that one, if any. *)
Fixpoint split_orders (orders : list string) : list string * option string :=
  match orders with
  | [] => ([], None)
  | o :: rest =>
      if decide (o ∈ labels) then
        let '(pre, bad) := split_orders rest in (o :: pre, bad)
      else ([], Some o)
  end.

Section Inputs.
Context `{RandomSource}.

(** The matrix of size [N] holding the first [N * N] draws of a
    generator. *)
Definition input_matrix (gen : GeneratorType) (N : nat) : Matrix2x2 :=
  mkMatrix N N (generate_loop (N * N) gen).1.

(** The input matrices the sweep works on, size by size. *)
Definition sweep_inputs (gen : GeneratorType) (sizeList : list nat)
    : list (Matrix2x2 * Matrix2x2) :=
  (fun N => (make_inputs gen N).1) <$> sizeList.

(** The input matrices of a sweep in which the state of the engine is
    carried on from one fill to the next: [A] takes [N * N] draws, [B]
    the following [N * N], and the next size goes on from there. *)
Fixpoint threaded_inputs (gen : GeneratorType) (sizeList : list nat)
    : list (Matrix2x2 * Matrix2x2) :=
  match sizeList with
  | [] => []
  | N :: rest =>
      let '(a, gen1) := generate_loop (N * N) gen in
      let '(b, gen2) := generate_loop (N * N) gen1 in
      (mkMatrix N N a, mkMatrix N N b) :: threaded_inputs gen2 rest
  end.

(** The checksum stored for size [N], whatever the order. *)
Definition size_checksum (TRIALS SEED N : nat) : ValueType :=
  let gen := bind_dist (seed_engine SEED) in
  expected_checksum TRIALS (input_matrix gen N) (input_matrix gen N) N.

End Inputs.

(** ** A small random source to run the driver with *)

(** A 64-bit linear congruential engine; a draw takes the high bits of
    the new state modulo 5. *)
Definition lcg : RandomSource.
Proof.
  refine {|
    EngineType := Z;
    seed_engine := fun seed => Z.of_nat seed;
    dist := fun eng =>
      let eng' := (6364136223846793005 * eng + 1442695040888963407) mod 2 ^ 64 in
      ((eng' / 2 ^ 33) mod 5, eng')
  |}.
  intros eng; simpl.
  pose proof (Z.mod_pos_bound
    (((6364136223846793005 * eng + 1442695040888963407) mod 2 ^ 64) / 2 ^ 33) 5).
  lia.
Defined.

(** ** Further reference notions *)

(** A matrix all of whose reads give a value between 0 and 4, as the
    distribution of the driver delivers them. *)
Definition small_entries (M : Matrix2x2) : Prop :=
  forall r c, 0 <= elem M r c <= 4.

(** The product over the integers, in row-major order. *)
Definition exact_product (A B : Matrix2x2) (N : nat) : list Z :=
  (fun p => exact_dot A B N (p / N) (p mod N)) <$> seq 0 (N * N).

(** A free store that grants every block the matrices of the sizes of
    a list ask for, whenever they ask. *)
Definition granted (memory : nat -> nat -> bool) (sizes : list nat) : Prop :=
  Forall (fun N : nat => forall k, memory k (N * N)%nat = true) sizes.

(** A time that can be printed as a number: zero or a positive finite
    value. *)
Definition finite_time (x : spec_float) : Prop :=
  x = S754_zero false \/ exists m e, x = S754_finite false m e.

(** * Properties *)

(** ** Arithmetic of the scalar type *)

Lemma wrap_in_range z : in_range (wrap z).
Proof.
  unfold in_range, wrap.
  pose proof (Z.mod_pos_bound (z + 2 ^ 31) (2 ^ 32)). lia.
Qed.

Lemma wrap_id z : in_range z -> wrap z = z.
Proof.
  unfold in_range, wrap. intros Hz.
  rewrite Z.mod_small; lia.
Qed.

Lemma wrap_add_l x y : wrap (wrap x + y) = wrap (x + y).
Proof.
  unfold wrap. f_equal.
  replace ((x + 2 ^ 31) mod 2 ^ 32 - 2 ^ 31 + y + 2 ^ 31)
    with ((x + 2 ^ 31) mod 2 ^ 32 + y) by lia.
  rewrite Zplus_mod_idemp_l. f_equal. lia.
Qed.

Lemma wrap_add_r x y : wrap (x + wrap y) = wrap (x + y).
Proof. rewrite (Z.add_comm x), wrap_add_l. f_equal. lia. Qed.

Lemma int_add_assoc_exact x a b :
  int_add (wrap x) (int_mul a b) = wrap (x + a * b).
Proof. unfold int_add, int_mul. now rewrite wrap_add_l, wrap_add_r. Qed.

Lemma Zsum_app l1 l2 : Zsum (l1 ++ l2) = Zsum l1 + Zsum l2.
Proof. unfold Zsum. induction l1 as [|x l1 IH]; simpl; lia. Qed.

Lemma Zsum_permutation l1 l2 : l1 ≡ₚ l2 -> Zsum l1 = Zsum l2.
Proof. unfold Zsum. induction 1; simpl; lia. Qed.

Lemma Zsum_zero {X : Type} (f : X -> Z) (l : list X) :
  (forall x, x ∈ l -> f x = 0) -> Zsum (f <$> l) = 0.
Proof.
  induction l as [|x l IH]; intros Hf; [reflexivity|].
  rewrite fmap_cons. unfold Zsum in *. simpl.
  rewrite Hf by left. rewrite IH; [lia|]. intros y Hy. apply Hf. now right.
Qed.

(** A sum in which a single index of the range counts. *)
Lemma Zsum_single (f : nat -> Z) (start len x0 : nat) :
  (start <= x0 < start + len)%nat ->
  Zsum ((fun x => if decide (x = x0) then f x else 0) <$> seq start len) = f x0.
Proof.
  revert start. induction len as [|len IH]; intros start Hx; [lia|].
  rewrite <- cons_seq, fmap_cons. unfold Zsum in *. simpl.
  destruct (decide (start = x0)) as [->|Hne].
  - rewrite (Zsum_zero (fun x => if decide (x = x0) then f x else 0)); [lia|].
    intros x Hx'. apply elem_of_seq in Hx'. destruct (decide (x = x0)); [lia|done].
  - rewrite IH by lia. lia.
Qed.

(** ** The kernel as a fold over its visits *)

Lemma foldl_bind {X Y St : Type} (f : St -> Y -> St) (g : X -> list Y) l s :
  foldl f s (l ≫= g) = foldl (fun s x => foldl f s (g x)) s l.
Proof.
  revert s. induction l as [|x l IH]; intros s; [reflexivity|].
  rewrite bind_cons, foldl_app. simpl. apply IH.
Qed.

Lemma foldl_pointwise {X St : Type} (f g : St -> X -> St) l s :
  (forall s x, f s x = g s x) -> foldl f s l = foldl g s l.
Proof.
  intros Hfg. revert s. induction l as [|x l IH]; intros s; [reflexivity|].
  simpl. rewrite Hfg. apply IH.
Qed.

Lemma multiply_loops_visits L A B C N :
  multiply_loops L A B C N = foldl (update A B) C (visits L N).
Proof.
  unfold multiply_loops, for_loop, visits, iterations.
  rewrite foldl_fmap, foldl_bind.
  apply foldl_pointwise; intros Ci i. rewrite foldl_bind.
  apply foldl_pointwise; intros Cj j. rewrite foldl_bind.
  apply foldl_pointwise; intros Ck k. reflexivity.
Qed.

Lemma update_extent1 A B C t : extent1 (update A B C t) = extent1 C.
Proof. now destruct t as [[r c] d]. Qed.

Lemma update_extent0 A B C t : extent0 (update A B C t) = extent0 C.
Proof. now destruct t as [[r c] d]. Qed.

Lemma update_length A B C t : length (data (update A B C t)) = length (data C).
Proof. destruct t as [[r c] d]. simpl. apply length_alter. Qed.

Lemma foldl_update_shape A B ts C :
  extent0 (foldl (update A B) C ts) = extent0 C /\
  extent1 (foldl (update A B) C ts) = extent1 C /\
  length (data (foldl (update A B) C ts)) = length (data C).
Proof.
  revert C. induction ts as [|t ts IH]; intros C; [done|]. simpl.
  destruct (IH (update A B C t)) as (-> & -> & ->).
  now rewrite update_extent0, update_extent1, update_length.
Qed.

(** Offsets of distinct in-range cells are distinct. *)
Lemma offset_inj (N r c r0 c0 : nat) :
  (c < N)%nat -> (c0 < N)%nat ->
  (r * N + c = r0 * N + c0)%nat -> r = r0 /\ c = c0.
Proof.
  intros Hc Hc0 Heq.
  destruct (Nat.lt_trichotomy r r0) as [Hlt|[->|Hgt]].
  - assert ((r + 1) * N <= r0 * N)%nat by (apply Nat.mul_le_mono_r; lia). lia.
  - lia.
  - assert ((r0 + 1) * N <= r * N)%nat by (apply Nat.mul_le_mono_r; lia). lia.
Qed.

(** One update seen from the cell (r0, c0). *)
Lemma update_elem A B C r c d r0 c0 :
  (c < extent1 C)%nat -> (c0 < extent1 C)%nat ->
  (offset C r0 c0 < length (data C))%nat ->
  elem (update A B C (r, c, d)) r0 c0 =
    if decide (r = r0 /\ c = c0)
    then int_add (elem C r0 c0) (int_mul (elem A r d) (elem B d c))
    else elem C r0 c0.
Proof.
  intros Hc Hc0 Hlen. unfold elem, update, add_to, offset in *. simpl.
  destruct (decide (r = r0 /\ c = c0)) as [[-> ->]|Hne].
  - rewrite list_lookup_alter_eq.
    destruct (data C !! (r0 * extent1 C + c0)%nat) as [x|] eqn:E; [reflexivity|].
    apply lookup_ge_None in E. lia.
  - rewrite list_lookup_alter_ne; [reflexivity|].
    intros Heq. apply Hne. eapply offset_inj; eauto.
Qed.

(** The cell (r0, c0) after a run of updates: what it held, plus the
    shares of the triples gone through, in the scalar type. *)
Lemma foldl_update_elem A B N r0 c0 ts : forall C,
  extent1 C = N -> (c0 < N)%nat ->
  (offset C r0 c0 < length (data C))%nat ->
  (forall r c d, (r, c, d) ∈ ts -> (c < N)%nat) ->
  in_range (elem C r0 c0) ->
  elem (foldl (update A B) C ts) r0 c0
  = wrap (elem C r0 c0 + Zsum (share A B r0 c0 <$> ts)).
Proof.
  induction ts as [|[[r c] d] ts IH]; intros C HN Hc0 Hoff Hts Hr.
  - simpl. unfold Zsum. simpl. rewrite Z.add_0_r. now rewrite wrap_id.
  - assert (Hc : (c < N)%nat) by (eapply Hts; left).
    change (foldl (update A B) C ((r, c, d) :: ts))
      with (foldl (update A B) (update A B C (r, c, d)) ts).
    assert (Hel : elem (update A B C (r, c, d)) r0 c0 =
              if decide (r = r0 /\ c = c0)
              then int_add (elem C r0 c0) (int_mul (elem A r d) (elem B d c))
              else elem C r0 c0)
      by (apply update_elem; rewrite ?HN; assumption).
    rewrite IH.
    + rewrite Hel, fmap_cons. unfold Zsum. simpl.
      fold (Zsum (share A B r0 c0 <$> ts)).
      destruct (decide (r = r0 /\ c = c0)) as [[-> ->]|Hne].
      * unfold int_add, int_mul. rewrite wrap_add_l.
        rewrite <- Z.add_assoc, (Z.add_comm (wrap _)), Z.add_assoc, wrap_add_r.
        f_equal. lia.
      * f_equal.
    + now rewrite update_extent1.
    + assumption.
    + unfold offset in *. now rewrite update_extent1, update_length.
    + intros r' c' d' Hin. eapply Hts. right. exact Hin.
    + rewrite Hel. destruct (decide _); [apply wrap_in_range | assumption].
Qed.

(** ** The iteration space and the six bindings *)

Lemma elem_of_iterations N i j k :
  (i, j, k) ∈ iterations N <-> (i < N)%nat /\ (j < N)%nat /\ (k < N)%nat.
Proof.
  unfold iterations. rewrite list_elem_of_bind. split.
  - intros (i' & Hin & Hi). apply list_elem_of_bind in Hin as (j' & Hin & Hj).
    apply list_elem_of_bind in Hin as (k' & Hin & Hk).
    apply list_elem_of_singleton in Hin. inversion Hin; subst.
    apply elem_of_seq in Hi, Hj, Hk. lia.
  - intros (Hi & Hj & Hk). exists i. split; [|apply elem_of_seq; lia].
    apply list_elem_of_bind. exists j. split; [|apply elem_of_seq; lia].
    apply list_elem_of_bind. exists k. split; [|apply elem_of_seq; lia].
    now apply list_elem_of_singleton.
Qed.

Lemma NoDup_iterations N : NoDup (iterations N).
Proof.
  unfold iterations. apply NoDup_bind; [| |apply NoDup_seq].
  - intros i1 i2 [[i j] k] _ _ H1 H2.
    apply list_elem_of_bind in H1 as (? & H1 & _).
    apply list_elem_of_bind in H1 as (? & H1 & _).
    apply list_elem_of_bind in H2 as (? & H2 & _).
    apply list_elem_of_bind in H2 as (? & H2 & _).
    apply list_elem_of_singleton in H1, H2. congruence.
  - intros i _. apply NoDup_bind; [| |apply NoDup_seq].
    + intros j1 j2 [[i' j] k] _ _ H1 H2.
      apply list_elem_of_bind in H1 as (? & H1 & _).
      apply list_elem_of_bind in H2 as (? & H2 & _).
      apply list_elem_of_singleton in H1, H2. congruence.
    + intros j _. apply NoDup_bind; [| |apply NoDup_seq].
      * intros k1 k2 [[i' j'] k] _ _ H1 H2.
        apply list_elem_of_singleton in H1, H2. congruence.
      * intros k _. apply NoDup_singleton.
Qed.

Lemma elem_of_labels X :
  X ∈ labels <->
  X = "ijk"%string \/ X = "ikj"%string \/ X = "jik"%string \/
  X = "jki"%string \/ X = "kij"%string \/ X = "kji"%string.
Proof.
  unfold labels, FUNCTION_MAP. simpl.
  rewrite !elem_of_cons, elem_of_nil. tauto.
Qed.

(** For each label the binding permutes the three counters. *)
Lemma binding_cases X :
  X ∈ labels ->
  (forall i j k, binding (letters_of X) (i, j, k) = (i, j, k)) \/
  (forall i j k, binding (letters_of X) (i, j, k) = (i, k, j)) \/
  (forall i j k, binding (letters_of X) (i, j, k) = (j, i, k)) \/
  (forall i j k, binding (letters_of X) (i, j, k) = (k, i, j)) \/
  (forall i j k, binding (letters_of X) (i, j, k) = (j, k, i)) \/
  (forall i j k, binding (letters_of X) (i, j, k) = (k, j, i)).
Proof.
  intros HX. apply elem_of_labels in HX.
  destruct HX as [->|[->|[->|[->|[->| ->]]]]]; tauto.
Qed.

Lemma binding_inj X : X ∈ labels -> Inj (=) (=) (binding (letters_of X)).
Proof.
  intros HX [[i j] k] [[i' j'] k'] Heq.
  destruct (binding_cases X HX) as [E|[E|[E|[E|[E|E]]]]];
    rewrite !E in Heq; congruence.
Qed.

Lemma elem_of_visits X N r c d :
  X ∈ labels ->
  (r, c, d) ∈ visits (letters_of X) N <-> (r < N)%nat /\ (c < N)%nat /\ (d < N)%nat.
Proof.
  intros HX. unfold visits. rewrite list_elem_of_fmap. split.
  - intros ([[i j] k] & Heq & Hin). apply elem_of_iterations in Hin.
    destruct (binding_cases X HX) as [E|[E|[E|[E|[E|E]]]]];
      rewrite E in Heq; inversion Heq; subst; lia.
  - intros Hlt.
    destruct (binding_cases X HX) as [E|[E|[E|[E|[E|E]]]]].
    + exists (r, c, d). rewrite E, elem_of_iterations. split; [done|lia].
    + exists (r, d, c). rewrite E, elem_of_iterations. split; [done|lia].
    + exists (c, r, d). rewrite E, elem_of_iterations. split; [done|lia].
    + exists (c, d, r). rewrite E, elem_of_iterations. split; [done|lia].
    + exists (d, r, c). rewrite E, elem_of_iterations. split; [done|lia].
    + exists (d, c, r). rewrite E, elem_of_iterations. split; [done|lia].
Qed.

Lemma NoDup_visits X N : X ∈ labels -> NoDup (visits (letters_of X) N).
Proof.
  intros HX. unfold visits. pose proof (binding_inj X HX).
  apply NoDup_fmap_2; [assumption|apply NoDup_iterations].
Qed.

Lemma visits_permutation X N :
  X ∈ labels -> visits (letters_of X) N ≡ₚ iterations N.
Proof.
  intros HX. apply NoDup_Permutation.
  - now apply NoDup_visits.
  - apply NoDup_iterations.
  - intros [[r c] d]. now rewrite elem_of_visits, elem_of_iterations.
Qed.

(** ** From the visits to the product *)

Lemma Zsum_ext {X : Type} (f g : X -> Z) (l : list X) :
  (forall x, x ∈ l -> f x = g x) -> Zsum (f <$> l) = Zsum (g <$> l).
Proof.
  induction l as [|x l IH]; intros Hfg; [reflexivity|].
  rewrite !fmap_cons. unfold Zsum in *. simpl.
  rewrite Hfg by left. rewrite IH; [reflexivity|].
  intros y Hy. apply Hfg. now right.
Qed.

Lemma Zsum_fmap_bind {X Y : Type} (f : Y -> Z) (g : X -> list Y) (l : list X) :
  Zsum (f <$> (l ≫= g)) = Zsum ((fun x => Zsum (f <$> g x)) <$> l).
Proof.
  induction l as [|x l IH]; [reflexivity|].
  rewrite bind_cons, fmap_app, Zsum_app, IH. reflexivity.
Qed.

Lemma share_inner A B N r0 c0 i j :
  Zsum (share A B r0 c0 <$> (seq 0 N ≫= fun k => [(i, j, k)]))
  = if decide (i = r0 /\ j = c0) then exact_dot A B N r0 c0 else 0.
Proof.
  rewrite Zsum_fmap_bind. unfold exact_dot.
  destruct (decide (i = r0 /\ j = c0)) as [[-> ->]|Hne].
  - apply Zsum_ext. intros k _. unfold Zsum. simpl.
    destruct (decide (r0 = r0 /\ c0 = c0)); [lia|tauto].
  - apply Zsum_zero. intros k _. unfold Zsum. simpl.
    destruct (decide (i = r0 /\ j = c0)); [tauto|reflexivity].
Qed.

Lemma share_iterations A B N r0 c0 :
  (r0 < N)%nat -> (c0 < N)%nat ->
  Zsum (share A B r0 c0 <$> iterations N) = exact_dot A B N r0 c0.
Proof.
  intros Hr Hc. unfold iterations. rewrite Zsum_fmap_bind.
  rewrite <- (Zsum_single (fun _ => exact_dot A B N r0 c0) 0 N r0) at 1 by lia.
  apply Zsum_ext. intros i _. rewrite Zsum_fmap_bind.
  destruct (decide (i = r0)) as [->|Hne].
  - rewrite <- (Zsum_single (fun _ => exact_dot A B N r0 c0) 0 N c0) at 1 by lia.
    apply Zsum_ext. intros j _. rewrite share_inner.
    destruct (decide (j = c0)) as [->|Hj].
    + destruct (decide (r0 = r0 /\ c0 = c0)); [reflexivity|tauto].
    + destruct (decide (r0 = r0 /\ j = c0)); [tauto|reflexivity].
  - apply Zsum_zero. intros j _. rewrite share_inner.
    destruct (decide (i = r0 /\ j = c0)); [tauto|reflexivity].
Qed.

(** The accumulation of [dot] wraps the exact sum. *)
Lemma foldl_dot A B r c l : forall acc,
  foldl (fun acc d => int_add acc (int_mul (elem A r d) (elem B d c))) (wrap acc) l
  = wrap (acc + Zsum ((fun d => elem A r d * elem B d c) <$> l)).
Proof.
  induction l as [|d l IH]; intros acc.
  - simpl. unfold Zsum. simpl. now rewrite Z.add_0_r.
  - cbn [foldl]. rewrite int_add_assoc_exact, IH, fmap_cons.
    unfold Zsum. cbn [foldr]. f_equal. lia.
Qed.

Lemma dot_exact A B N r c : dot A B N r c = wrap (exact_dot A B N r c).
Proof.
  unfold dot, exact_dot. change 0 with (wrap 0) at 1.
  now rewrite foldl_dot.
Qed.

Lemma elem_new_matrix N r c : elem (new_matrix N N) r c = 0.
Proof.
  unfold elem, new_matrix, offset. simpl.
  destruct (replicate (N * N) 0 !! (r * N + c)%nat) as [x|] eqn:E; [|reflexivity].
  apply lookup_replicate in E as [-> _]. reflexivity.
Qed.

(** Every cell of the accumulator, for any of the six labels. *)
Lemma multiply_loops_elem X A B N r0 c0 :
  X ∈ labels -> (r0 < N)%nat -> (c0 < N)%nat ->
  elem (multiply_loops (letters_of X) A B (new_matrix N N) N) r0 c0
  = dot A B N r0 c0.
Proof.
  intros HX Hr Hc. rewrite multiply_loops_visits.
  rewrite (foldl_update_elem A B N r0 c0).
  - rewrite elem_new_matrix, Z.add_0_l, dot_exact. f_equal.
    rewrite <- share_iterations by assumption.
    apply Zsum_permutation, fmap_Permutation. now apply visits_permutation.
  - reflexivity.
  - assumption.
  - unfold offset, new_matrix. simpl. rewrite length_replicate.
    assert ((r0 + 1) * N <= N * N)%nat by (apply Nat.mul_le_mono_r; lia). lia.
  - intros r c d Hin. apply (elem_of_visits X) in Hin; [lia|assumption].
  - rewrite elem_new_matrix. unfold in_range. lia.
Qed.

Lemma multiply_loops_product X A B N :
  X ∈ labels ->
  multiply_loops (letters_of X) A B (new_matrix N N) N = standard_product A B N.
Proof.
  intros HX.
  pose proof (multiply_loops_elem X A B N) as Hel.
  rewrite multiply_loops_visits in *.
  destruct (foldl_update_shape A B (visits (letters_of X) N) (new_matrix N N))
    as (H0 & H1 & Hlen).
  simpl in H0, H1, Hlen. rewrite length_replicate in Hlen.
  destruct (foldl (update A B) (new_matrix N N) (visits (letters_of X) N))
    as [e0 e1 dat] eqn:E.
  simpl in *. subst e0 e1. unfold standard_product. f_equal.
  apply list_eq. intros p. rewrite list_lookup_fmap.
  destruct (decide (p < N * N)%nat) as [Hp|Hp].
  - rewrite lookup_seq_lt by assumption. simpl.
    assert (HN : (0 < N)%nat) by (destruct N; [simpl in Hp|]; lia).
    assert (Hr : (p / N < N)%nat) by (apply Nat.Div0.div_lt_upper_bound; lia).
    assert (Hc : (p mod N < N)%nat) by (apply Nat.mod_upper_bound; lia).
    specialize (Hel (p / N)%nat (p mod N)%nat HX Hr Hc).
    unfold elem, offset in Hel. simpl in Hel.
    replace (p / N * N + p mod N)%nat with p in Hel
      by (rewrite (Nat.div_mod_eq p N) at 1; lia).
    destruct (dat !! p) as [x|] eqn:Ep.
    + simpl in Hel. now subst x.
    + apply lookup_ge_None in Ep. lia.
  - rewrite lookup_seq_ge by lia. simpl. apply lookup_ge_None. lia.
Qed.

(** ** Dispatch through [FUNCTION_MAP] *)

Lemma map_at_labels X f :
  map_at FUNCTION_MAP X = Some f <-> X ∈ labels /\ f = multiply (letters_of X).
Proof.
  rewrite elem_of_labels. unfold FUNCTION_MAP, CREATE_MAPPING. cbn [map_at]. split.
  - intros Hat.
    repeat match type of Hat with
    | (if String.eqb ?k X then _ else _) = _ =>
        destruct (String.eqb_spec k X) as [<-|_];
        [inversion Hat; subst; tauto|]
    end.
    discriminate.
  - intros [HX ->].
    destruct HX as [->|[->|[->|[->|[->| ->]]]]]; reflexivity.
Qed.

Lemma map_at_invalid X :
  map_at FUNCTION_MAP X = None <-> X ∉ labels.
Proof.
  split.
  - intros Hnone HX.
    assert (map_at FUNCTION_MAP X = Some (multiply (letters_of X)))
      by now apply map_at_labels.
    congruence.
  - intros HX. destruct (map_at FUNCTION_MAP X) as [f|] eqn:E; [|reflexivity].
    apply map_at_labels in E as [HX' _]. contradiction.
Qed.

Lemma multiply_product X A B N t :
  X ∈ labels ->
  multiply (letters_of X) A B (new_matrix N N) N t
  = (to_uint64 (readings t (taken t)), standard_product A B N,
     mkTimer (readings t) (S (taken t))).
Proof.
  intros HX. unfold multiply, measure. now rewrite multiply_loops_product.
Qed.

Lemma standard_product_elem A B N r c :
  (r < N)%nat -> (c < N)%nat ->
  elem (standard_product A B N) r c = wrap (exact_dot A B N r c).
Proof.
  intros Hr Hc. unfold elem, standard_product, offset. simpl.
  rewrite list_lookup_fmap, lookup_seq_lt.
  - simpl. rewrite <- dot_exact. f_equal.
    + rewrite Nat.div_add_l by lia. rewrite Nat.div_small by lia. lia.
    + rewrite Nat.add_comm, Nat.Div0.mod_add. apply Nat.mod_small. lia.
  - assert ((r + 1) * N <= N * N)%nat by (apply Nat.mul_le_mono_r; lia). lia.
Qed.

(** ** The trial runner on the six kernels *)

Lemma for_loop_S {St : Type} (n : nat) (f : St -> St) (s : St) :
  for_loop (S n) (fun _ => f) s = f (for_loop n (fun _ => f) s).
Proof. unfold for_loop. rewrite seq_S, foldl_app. reflexivity. Qed.

Lemma fill_zero_square N C : square N C -> fill_zero C = new_matrix N N.
Proof.
  intros (H0 & H1 & Hlen). unfold fill_zero, new_matrix, fill_n, num_elements.
  rewrite H0, H1, Hlen, Nat.min_id, drop_ge by lia. now rewrite app_nil_r.
Qed.

Lemma square_new_matrix N : square N (new_matrix N N).
Proof. unfold square, new_matrix. simpl. now rewrite length_replicate. Qed.

Lemma square_standard_product A B N : square N (standard_product A B N).
Proof.
  unfold square, standard_product. simpl.
  now rewrite length_fmap, length_seq.
Qed.

Lemma total_time_S t n :
  total_time t (S n) = total_time t n + to_uint64 (readings t (taken t + n)).
Proof.
  unfold total_time. rewrite seq_S, fmap_app, Zsum_app. unfold Zsum. simpl. lia.
Qed.

Lemma to_uint64_add_l x y : to_uint64 (to_uint64 x + y) = to_uint64 (x + y).
Proof. unfold to_uint64. now rewrite Zplus_mod_idemp_l. Qed.

(** The state of the loop of [runSingle] after [TRIALS] trials. *)
Lemma trials_state X A B N C t TRIALS :
  X ∈ labels -> square N C ->
  for_loop TRIALS (fun _ => trial (multiply (letters_of X)) A B N) (0, C, t)
  = (to_uint64 (total_time t TRIALS),
     match TRIALS with O => C | S _ => standard_product A B N end,
     mkTimer (readings t) (taken t + TRIALS)).
Proof.
  intros HX HC. induction TRIALS as [|n IH].
  - unfold for_loop, total_time. simpl. rewrite Nat.add_0_r. now destruct t.
  - rewrite for_loop_S, IH. unfold trial.
    assert (Hfill : fill_zero match n with O => C | S _ => standard_product A B N end
                    = new_matrix N N).
    { apply fill_zero_square. destruct n; [assumption|apply square_standard_product]. }
    rewrite Hfill, multiply_product by assumption. simpl.
    rewrite to_uint64_add_l, total_time_S. do 2 f_equal. lia.
Qed.

Lemma runSingle_kernel X A B N C t TRIALS :
  X ∈ labels -> square N C ->
  runSingle TRIALS (multiply (letters_of X)) A B C N t
  = let C' := match TRIALS with O => C | S _ => standard_product A B N end in
    ((average (to_uint64 (total_time t TRIALS)) TRIALS,
      accumulate
        (take (Z.to_nat (Z.min CHECKSUM_MAX (to_uint32 (Z.of_nat (N * N))))) (data C')) 0),
     C', mkTimer (readings t) (taken t + TRIALS)).
Proof.
  intros HX HC. unfold runSingle. rewrite (trials_state X) by assumption.
  assert (Hsq : square N match TRIALS with O => C | S _ => standard_product A B N end)
    by (destruct TRIALS; [assumption|apply square_standard_product]).
  destruct Hsq as (H0 & H1 & _). unfold num_elements. now rewrite H0, H1.
Qed.

(** ** The claims on the kernel *)

(** C1. Whichever of the six labels the kernel is dispatched with, on a
    zeroed N×N accumulator it leaves the standard matrix product of [A]
    and [B] (each entry the sum over d of [A[r][d] * B[d][c]], brought
    into the scalar type, and that sum itself when it is a value of the
    scalar type), so the result does not depend on the label;
    for the 2×2 example every label gives [[19,22],[43,50]] and the trial
    runner reports the checksum 134. *)
Theorem multiply_is_standard_product X f :
  map_at FUNCTION_MAP X = Some f ->
  (forall A B N t,
      f A B (new_matrix N N) N t
      = (to_uint64 (readings t (taken t)), standard_product A B N,
         mkTimer (readings t) (S (taken t)))
      /\ forall r c, (r < N)%nat -> (c < N)%nat ->
           elem (f A B (new_matrix N N) N t).1.2 r c = wrap (exact_dot A B N r c)
           /\ (in_range (exact_dot A B N r c) ->
               elem (f A B (new_matrix N N) N t).1.2 r c = exact_dot A B N r c))
  /\ (forall t, (f A2 B2 (new_matrix 2 2) 2%nat t).1.2 = of_rows 2 [[19; 22]; [43; 50]])
  /\ (forall TRIALS t,
        (runSingle (S TRIALS) f A2 B2 (new_matrix 2 2) 2 t).1.1.2 = 134).
Proof.
  intros Hat. apply map_at_labels in Hat as [HX ->]. split; [|split].
  - intros A B N t. rewrite multiply_product by assumption. split; [reflexivity|].
    intros r c Hr Hc. cbn [fst snd].
    rewrite standard_product_elem by assumption. split; [reflexivity|].
    apply wrap_id.
  - intros t. now rewrite multiply_product.
  - intros TRIALS t.
    rewrite (runSingle_kernel X) by (assumption || apply square_new_matrix).
    reflexivity.
Qed.

Lemma multiply_is_standard_product_witness :
  (multiply (letters_of "kji") A2 B2 (new_matrix 2 2) 2%nat (mkTimer (fun _ => 7) 0)).1.2
  = of_rows 2 [[19; 22]; [43; 50]].
Proof.
  apply (multiply_is_standard_product "kji" (multiply (letters_of "kji"))).
  reflexivity.
Defined.

(** C5. For each of the six labels the three roles (row, column,
    reduction) stand at three different loop positions, that is, the
    positions of the letters i, j, k are a rearrangement of 0, 1, 2; and
    one kernel execution on size N is a run of updates over triples
    (row, column, reduction) in which every triple below N occurs, none
    twice, and no other. *)
Theorem binding_is_bijection X :
  X ∈ labels ->
  positions (letters_of X) ≡ₚ [0; 1; 2]%nat
  /\ forall N,
       (forall A B C,
          multiply_loops (letters_of X) A B C N
          = foldl (update A B) C (visits (letters_of X) N))
       /\ NoDup (visits (letters_of X) N)
       /\ (forall r c d,
             (r, c, d) ∈ visits (letters_of X) N
             <-> (r < N)%nat /\ (c < N)%nat /\ (d < N)%nat).
Proof.
  intros HX. split.
  - apply elem_of_labels in HX.
    destruct HX as [->|[->|[->|[->|[->| ->]]]]];
      apply (bool_decide_unpack _); vm_compute; exact I.
  - intros N. split; [|split].
    + intros A B C. apply multiply_loops_visits.
    + now apply NoDup_visits.
    + intros r c d. now apply elem_of_visits.
Qed.

Lemma binding_is_bijection_witness :
  positions (letters_of "jki") ≡ₚ [0; 1; 2]%nat
  /\ NoDup (visits (letters_of "jki") 3).
Proof.
  destruct (binding_is_bijection "jki") as [Hpos Hvis].
  - apply (bool_decide_unpack _). vm_compute. exact I.
  - split; [exact Hpos|]. destruct (Hvis 3%nat) as (_ & Hnd & _). exact Hnd.
Defined.

(** ** The claims on the trial runner and the result store *)

(** C7. With a trial count of 0 the trial runner runs no trial (the
    accumulator and the clock are left as they were) and still divides:
    the average is the quotient of the zero time sum by the zero count,
    which is not a number. *)
Theorem runSingle_zero_trials mmult A B C N t :
  (runSingle 0 mmult A B C N t).1.1.1
    = float_of_double
        (double_div (double_mul (double_of_Z 1) (double_of_Z 0)) (double_of_Z 0))
  /\ double_div (double_mul (double_of_Z 1) (double_of_Z 0)) (double_of_Z 0)
     = S754_nan
  /\ (runSingle 0 mmult A B C N t).1.1.1 = S754_nan
  /\ (runSingle 0 mmult A B C N t).1.2 = C
  /\ (runSingle 0 mmult A B C N t).2 = t.
Proof. repeat split. Qed.

(** C6, as the code has it. An insertion with a key that is already in
    the result store changes nothing: the value stored first stays, and
    after two insertions with one key a lookup returns the value of the
    first. *)
Theorem results_insert_keeps_first (results : ResultsType) key v1 v2 :
  (is_Some (results !! key) -> results_insert results key v2 = results)
  /\ results_at (results_insert (results_insert results key v1) key v2) key
     = results_at (results_insert results key v1) key
  /\ (results !! key = None ->
      results_at (results_insert (results_insert results key v1) key v2) key
      = Some v1).
Proof.
  unfold results_insert, results_at. split; [|split].
  - intros [v Hv]. now rewrite Hv.
  - destruct (results !! key) as [v|] eqn:E.
    + cbv iota. now rewrite E.
    + rewrite lookup_insert_eq. cbv iota. now rewrite lookup_insert_eq.
  - intros ->. rewrite lookup_insert_eq. cbv iota. now rewrite lookup_insert_eq.
Qed.

Lemma results_insert_keeps_first_witness :
  results_at
    (results_insert (results_insert ∅ (2%nat, "ijk"%string) (S754_zero false, 134))
                    (2%nat, "ijk"%string) (S754_nan, 0))
    (2%nat, "ijk"%string)
  = Some (S754_zero false, 134).
Proof.
  apply (results_insert_keeps_first ∅ (2%nat, "ijk"%string)).
  reflexivity.
Defined.

(** C6 as stated fails: after two insertions with one key the lookup does
    not return the value of the last insertion. In a run over the sizes
    1 and 1 with one order, whose two trials take 10 and 20 microseconds,
    the store ends with the average of the first, 10. *)
Lemma results_insert_not_last_write :
  results_at
    (results_insert (results_insert ∅ (2%nat, "ijk"%string) (S754_zero false, 134))
                    (2%nat, "ijk"%string) (S754_nan, 0))
    (2%nat, "ijk"%string)
  <> Some (S754_nan, 0)
  /\ fst <$> results (main (H := lcg)
       (mkOptions false false (Some 1%nat) None (Some [1; 1]%nat) (Some ["ijk"%string]))
       (mkInput 0 "") (fun k => 10 + 10 * Z.of_nat k) (fun _ _ => true)).2 !! (1%nat, "ijk"%string)
     = Some (average 10 1)
  /\ average 10 1 <> average 20 1.
Proof.
  split; [vm_compute; discriminate|].
  split; [vm_compute; reflexivity|vm_compute; discriminate].
Qed.

(** ** One dispatch *)

Lemma results_insert_present (results : ResultsType) key v :
  exists w, results_insert results key v !! key = Some w
            /\ (results !! key = None -> w = v)
            /\ (forall u, results !! key = Some u -> w = u).
Proof.
  unfold results_insert. destruct (results !! key) as [u|] eqn:E.
  - exists u. split; [exact E|]. split; [discriminate|congruence].
  - exists v. rewrite lookup_insert_eq. split; [reflexivity|].
    split; [reflexivity|discriminate].
Qed.

Lemma results_index_present (results : ResultsType) key w :
  results !! key = Some w -> results_index results key = (w, results).
Proof. intros Hw. unfold results_index. now rewrite Hw. Qed.

Lemma checksums_insert (results : ResultsType) key v :
  checksums (results_insert results key v)
  = checksum_insert (checksums results) key v.2.
Proof.
  unfold checksums, results_insert, checksum_insert.
  rewrite lookup_fmap. destruct (results !! key) as [u|]; simpl; [reflexivity|].
  now rewrite fmap_insert.
Qed.

Lemma dispatch_invalid TRIALS CUSTOM A B N X C st :
  X ∉ labels ->
  dispatch TRIALS CUSTOM A B N X (C, st)
  = Exit EXIT_FAILURE
      (C, mkState (results st) (cout st)
                  (conditionalPrint (cerr st) CUSTOM (progress N X) ++ diagnostic X)
                  (timer st) (heap st)).
Proof.
  intros HX. apply map_at_invalid in HX. unfold dispatch. now rewrite HX.
Qed.

(** A dispatch with one of the six labels: the accumulator ends as
    [final_C], the pair entered into the store carries the expected
    checksum, and the clock has moved by [TRIALS] executions. *)
Lemma dispatch_valid TRIALS CUSTOM A B N X C st :
  X ∈ labels ->
  C = new_matrix N N \/ C = final_C TRIALS A B N ->
  exists w,
    dispatch TRIALS CUSTOM A B N X (C, st)
    = Go (final_C TRIALS A B N,
          mkState (results_insert (results st) (N, X)
                     (average (to_uint64 (total_time (timer st) TRIALS)) TRIALS,
                      expected_checksum TRIALS A B N))
                  (conditionalPrint (cout st) (negb CUSTOM) (report w.1 w.2))
                  (conditionalPrint (cerr st) CUSTOM (progress N X))
                  (mkTimer (readings (timer st)) (taken (timer st) + TRIALS))
                  (heap st)).
Proof.
  intros HX HC.
  assert (Hsq : square N C).
  { destruct HC as [->| ->]; [apply square_new_matrix|].
    destruct TRIALS; [apply square_new_matrix|apply square_standard_product]. }
  assert (Hfin : match TRIALS with O => C | S _ => standard_product A B N end
                 = final_C TRIALS A B N).
  { destruct TRIALS; [|reflexivity]. now destruct HC as [->| ->]. }
  unfold dispatch.
  assert (Hat : map_at FUNCTION_MAP X = Some (multiply (letters_of X)))
    by now apply map_at_labels.
  rewrite Hat, (runSingle_kernel X) by assumption. cbv zeta. rewrite Hfin.
  fold (expected_checksum TRIALS A B N).
  destruct (results_insert_present (results st) (N, X)
              (average (to_uint64 (total_time (timer st) TRIALS)) TRIALS,
               expected_checksum TRIALS A B N)) as (w & Hw & _).
  exists w. now rewrite !(results_index_present _ _ w Hw).
Qed.

(** A dispatch with one of the six labels, with the pair the report
    shows: it is the pair found in the store after the insertion. *)
Lemma dispatch_stored TRIALS CUSTOM A B N X C st :
  X ∈ labels ->
  C = new_matrix N N \/ C = final_C TRIALS A B N ->
  let value := (average (to_uint64 (total_time (timer st) TRIALS)) TRIALS,
                expected_checksum TRIALS A B N) in
  exists w,
    results_insert (results st) (N, X) value !! (N, X) = Some w
    /\ dispatch TRIALS CUSTOM A B N X (C, st)
       = Go (final_C TRIALS A B N,
             mkState (results_insert (results st) (N, X) value)
                     (conditionalPrint (cout st) (negb CUSTOM) (report w.1 w.2))
                     (conditionalPrint (cerr st) CUSTOM (progress N X))
                     (mkTimer (readings (timer st)) (taken (timer st) + TRIALS))
                     (heap st)).
Proof.
  intros HX HC value.
  assert (Hsq : square N C).
  { destruct HC as [->| ->]; [apply square_new_matrix|].
    destruct TRIALS; [apply square_new_matrix|apply square_standard_product]. }
  assert (Hfin : match TRIALS with O => C | S _ => standard_product A B N end
                 = final_C TRIALS A B N).
  { destruct TRIALS; [|reflexivity]. now destruct HC as [->| ->]. }
  unfold dispatch.
  assert (Hat : map_at FUNCTION_MAP X = Some (multiply (letters_of X)))
    by now apply map_at_labels.
  rewrite Hat, (runSingle_kernel X) by assumption. cbv zeta. rewrite Hfin.
  fold (expected_checksum TRIALS A B N). fold value.
  destruct (results_insert_present (results st) (N, X) value) as (w & Hw & _).
  exists w. split; [exact Hw|]. now rewrite !(results_index_present _ _ w Hw).
Qed.

Lemma results_insert_lookup_Some (res : ResultsType) key v key' (w : ResultValueType) :
  res !! key' = Some w -> results_insert res key v !! key' = Some w.
Proof.
  intros Hw. unfold results_insert. destruct (res !! key) eqn:E; [assumption|].
  rewrite lookup_insert_ne; [assumption|]. intros ->. congruence.
Qed.

Lemma results_insert_Forall (P : ResultKeyType -> ResultValueType -> Prop)
    (res : ResultsType) key v :
  map_Forall P res -> P key v -> map_Forall P (results_insert res key v).
Proof.
  intros Hres Hv. unfold results_insert.
  destruct (res !! key); [assumption|]. now apply map_Forall_insert_2.
Qed.

(** A dispatch makes no request to the free store. *)
Lemma dispatch_heap TRIALS CUSTOM A B N X (s : Matrix2x2 * State) :
  match dispatch TRIALS CUSTOM A B N X s with
  | Go s' | Exit _ s' => heap s'.2 = heap s.2
  end.
Proof.
  destruct s as [C st]. unfold dispatch.
  destruct (map_at FUNCTION_MAP X) as [mmult|]; [|reflexivity].
  destruct (runSingle TRIALS mmult A B C N (timer st)) as [[value C'] t'].
  destruct (results_index _ _) as [v1 res1].
  destruct (results_index _ _) as [v2 res2]. reflexivity.
Qed.

(** A property of the stored pairs that the pair of every dispatch has
    holds of the store throughout. *)
Lemma dispatch_values (P : ResultKeyType -> ResultValueType -> Prop)
    TRIALS CUSTOM A B N X (s : Matrix2x2 * State) :
  (forall t, P (N, X) (average (to_uint64 (total_time t TRIALS)) TRIALS,
                       expected_checksum TRIALS A B N)) ->
  (s.1 = new_matrix N N \/ s.1 = final_C TRIALS A B N)
  /\ map_Forall P (results s.2) ->
  match dispatch TRIALS CUSTOM A B N X s with
  | Go s' | Exit _ s' =>
      (s'.1 = new_matrix N N \/ s'.1 = final_C TRIALS A B N)
      /\ map_Forall P (results s'.2)
  end.
Proof.
  intros HP [HC Hres]. destruct s as [C st]. cbn [fst snd] in *.
  destruct (decide (X ∈ labels)) as [HX|HX].
  - destruct (dispatch_valid TRIALS CUSTOM A B N X C st HX HC) as (w & ->).
    cbn [fst snd results]. split; [now right|].
    apply results_insert_Forall; [assumption|apply HP].
  - rewrite dispatch_invalid by assumption. cbn [fst snd results]. now split.
Qed.

(** Two dispatches from states that agree on the accumulator, the
    checksums and the free store end alike, whatever their clocks are. *)
Lemma dispatch_related TRIALS CUSTOM A B N X (s1 s2 : Matrix2x2 * State) :
  s1.1 = s2.1 /\ (s1.1 = new_matrix N N \/ s1.1 = final_C TRIALS A B N)
  /\ checksums (results s1.2) = checksums (results s2.2)
  /\ heap s1.2 = heap s2.2 ->
  match dispatch TRIALS CUSTOM A B N X s1, dispatch TRIALS CUSTOM A B N X s2 with
  | Go a, Go b =>
      a.1 = b.1 /\ (a.1 = new_matrix N N \/ a.1 = final_C TRIALS A B N)
      /\ checksums (results a.2) = checksums (results b.2)
      /\ heap a.2 = heap b.2
  | Exit e a, Exit f b =>
      e = f
      /\ a.1 = b.1 /\ (a.1 = new_matrix N N \/ a.1 = final_C TRIALS A B N)
      /\ checksums (results a.2) = checksums (results b.2)
      /\ heap a.2 = heap b.2
  | _, _ => False
  end.
Proof.
  destruct s1 as [C1 st1], s2 as [C2 st2]. cbn [fst snd].
  intros (-> & HC & Hck & Hh).
  destruct (decide (X ∈ labels)) as [HX|HX].
  - destruct (dispatch_valid TRIALS CUSTOM A B N X C2 st1 HX HC) as (w1 & ->).
    destruct (dispatch_valid TRIALS CUSTOM A B N X C2 st2 HX HC) as (w2 & ->).
    cbn [fst snd results heap]. split; [reflexivity|]. split; [now right|].
    split; [|assumption]. rewrite !checksums_insert, Hck. reflexivity.
  - rewrite !dispatch_invalid by assumption. cbn [fst snd results heap].
    repeat split; assumption.
Qed.

(** ** The inner loop *)

Lemma for_each_app {X St : Type} (l1 l2 : list X) (body : X -> St -> Step St) s :
  for_each (l1 ++ l2) body s
  = match for_each l1 body s with
    | Go s' => for_each l2 body s'
    | Exit status s' => Exit status s'
    end.
Proof.
  revert s. induction l1 as [|x l1 IH]; intros s; [reflexivity|].
  simpl. destruct (body x s); [apply IH|reflexivity].
Qed.

Lemma for_each_invariant {X St : Type} (I : St -> Prop) (xs : list X)
    (body : X -> St -> Step St) :
  (forall x s, I s -> match body x s with Go s' | Exit _ s' => I s' end) ->
  forall s, I s -> match for_each xs body s with Go s' | Exit _ s' => I s' end.
Proof.
  intros Hbody. induction xs as [|x xs IH]; intros s Hs; [exact Hs|].
  cbn [for_each]. specialize (Hbody x s Hs).
  destruct (body x s) as [s'|status s']; [now apply IH|exact Hbody].
Qed.

(** Two loops whose bodies take related states to related outcomes end
    in related outcomes: both fall through, or both leave with one
    status. *)
Lemma for_each_related {X St : Type} (R : St -> St -> Prop) (xs : list X)
    (body : X -> St -> Step St) :
  (forall x s1 s2, R s1 s2 ->
     match body x s1, body x s2 with
     | Go a, Go b => R a b
     | Exit e a, Exit f b => e = f /\ R a b
     | _, _ => False
     end) ->
  forall s1 s2, R s1 s2 ->
    match for_each xs body s1, for_each xs body s2 with
    | Go a, Go b => R a b
    | Exit e a, Exit f b => e = f /\ R a b
    | _, _ => False
    end.
Proof.
  intros Hbody. induction xs as [|x xs IH]; intros s1 s2 HR; [exact HR|].
  cbn [for_each]. specialize (Hbody x s1 s2 HR).
  destruct (body x s1) as [a|e a], (body x s2) as [b|f b]; try contradiction.
  - now apply IH.
  - exact Hbody.
Qed.

(** The inner loop over valid labels runs through. *)
Lemma orders_valid TRIALS CUSTOM A B N pre : forall C st,
  Forall (fun o => o ∈ labels) pre ->
  C = new_matrix N N \/ C = final_C TRIALS A B N ->
  exists C' st',
    for_each pre (dispatch TRIALS CUSTOM A B N) (C, st) = Go (C', st')
    /\ (C' = new_matrix N N \/ C' = final_C TRIALS A B N)
    /\ checksums (results st')
       = checksums_after N (expected_checksum TRIALS A B N) pre (checksums (results st))
    /\ cerr st' = cerr st ++ (if CUSTOM then pre ≫= progress N else [])
    /\ (CUSTOM = true -> cout st' = cout st)
    /\ timer st' = mkTimer (readings (timer st)) (taken (timer st) + TRIALS * length pre).
Proof.
  induction pre as [|o pre IH]; intros C st Hpre HC.
  - exists C, st. simpl. rewrite Nat.mul_0_r, Nat.add_0_r.
    repeat split; try assumption.
    + destruct CUSTOM; now rewrite app_nil_r.
    + now destruct (timer st).
  - inversion Hpre as [|? ? Ho Hpre']; subst.
    destruct (dispatch_valid TRIALS CUSTOM A B N o C st Ho HC) as (w & Hd).
    cbn [for_each]. rewrite Hd.
    edestruct (IH (final_C TRIALS A B N)) as (C' & st' & Hrun & HC' & Hck & Herr & Hout & Htm);
      [exact Hpre'|now right|].
    exists C', st'. rewrite Hrun. split; [reflexivity|]. split; [assumption|].
    rewrite Hck, Herr, Htm. cbn [results cerr cout timer readings taken].
    rewrite checksums_insert. cbn [snd].
    repeat split.
    + unfold conditionalPrint. destruct CUSTOM.
      * now rewrite bind_cons, <- !app_assoc.
      * reflexivity.
    + intros ->. rewrite Hout by reflexivity. reflexivity.
    + f_equal. cbn [length]. lia.
Qed.

Lemma checksum_insert_lookup (m : gmap (nat * string) Z) key c key' :
  checksum_insert m key c !! key'
  = match m !! key' with
    | Some x => Some x
    | None => if decide (key = key') then Some c else None
    end.
Proof.
  unfold checksum_insert. destruct (decide (key = key')) as [->|Hne].
  - destruct (m !! key') as [x|] eqn:E; [exact E|apply lookup_insert_eq].
  - destruct (m !! key) as [y|] eqn:Ey.
    + now destruct (m !! key').
    + rewrite lookup_insert_ne by assumption. now destruct (m !! key').
Qed.

(** The checksums after a run of dispatches: what was there stays, and
    each order of the run has the checksum [c] unless it had one. *)
Lemma checksums_after_lookup N c orders : forall (m : gmap (nat * string) Z) key,
  checksums_after N c orders m !! key
  = match m !! key with
    | Some x => Some x
    | None => if decide (key.1 = N /\ key.2 ∈ orders) then Some c else None
    end.
Proof.
  unfold checksums_after.
  induction orders as [|o orders IH]; intros m key; simpl.
  - destruct (m !! key); [reflexivity|].
    destruct (decide _) as [[_ Hin]|_]; [|reflexivity]. now apply elem_of_nil in Hin.
  - rewrite IH, checksum_insert_lookup. destruct (m !! key) as [x|]; [reflexivity|].
    destruct (decide ((N, o) = key)) as [<-|Hne].
    + simpl. destruct (decide _) as [_|Hn]; [reflexivity|].
      exfalso. apply Hn. split; [reflexivity|left].
    + destruct (decide (key.1 = N /\ key.2 ∈ orders)) as [[HN Hin]|Hn].
      * destruct (decide _) as [_|Hn']; [reflexivity|].
        exfalso. apply Hn'. split; [assumption|now right].
      * destruct (decide _) as [[HN Hin]|_]; [|reflexivity].
        exfalso. apply elem_of_cons in Hin as [Heq|Hin].
        -- apply Hne. destruct key; simpl in *; congruence.
        -- apply Hn. now split.
Qed.

Lemma checksums_lookup (results : ResultsType) key :
  checksums results !! key = snd <$> results !! key.
Proof. unfold checksums. apply lookup_fmap. Qed.

(** The inner loop stops at the first invalid label. *)
Lemma orders_invalid TRIALS CUSTOM A B N pre bad post C st :
  Forall (fun o => o ∈ labels) pre -> bad ∉ labels ->
  C = new_matrix N N \/ C = final_C TRIALS A B N ->
  exists C' st',
    for_each (pre ++ bad :: post) (dispatch TRIALS CUSTOM A B N) (C, st)
    = Exit EXIT_FAILURE (C', st')
    /\ checksums (results st')
       = checksums_after N (expected_checksum TRIALS A B N) pre (checksums (results st))
    /\ cerr st' = cerr st ++ (if CUSTOM then (pre ++ [bad]) ≫= progress N else [])
                  ++ diagnostic bad
    /\ (CUSTOM = true \/ pre = [] -> cout st' = cout st)
    /\ timer st' = mkTimer (readings (timer st)) (taken (timer st) + TRIALS * length pre).
Proof.
  intros Hpre Hbad HC.
  destruct (orders_valid TRIALS CUSTOM A B N pre C st Hpre HC)
    as (C1 & st1 & Hrun & HC1 & Hck & Herr & Hout & Htm).
  rewrite for_each_app, Hrun. cbn [for_each].
  rewrite dispatch_invalid by assumption.
  eexists _, _. split; [reflexivity|]. cbn [results cerr cout timer].
  repeat split; try assumption.
  - rewrite Herr. unfold conditionalPrint. destruct CUSTOM.
    + rewrite bind_app, bind_cons. change ([] ≫= progress N) with (@nil Item).
      rewrite app_nil_r. now rewrite <- !app_assoc.
    + now rewrite !app_nil_r.
  - intros [Hc| ->]; [now apply Hout|].
    simpl in Hrun. now inversion Hrun.
Qed.

Lemma orders_heap TRIALS CUSTOM A B N orders (s : Matrix2x2 * State) :
  match for_each orders (dispatch TRIALS CUSTOM A B N) s with
  | Go s' | Exit _ s' => heap s'.2 = heap s.2
  end.
Proof.
  apply (for_each_invariant (fun s' : Matrix2x2 * State => heap s'.2 = heap s.2));
    [|reflexivity].
  intros X s' Hs'. pose proof (dispatch_heap TRIALS CUSTOM A B N X s') as Hd.
  destruct (dispatch TRIALS CUSTOM A B N X s'); congruence.
Qed.

Lemma orders_related TRIALS CUSTOM A B N orders (s1 s2 : Matrix2x2 * State) :
  s1.1 = s2.1 /\ (s1.1 = new_matrix N N \/ s1.1 = final_C TRIALS A B N)
  /\ checksums (results s1.2) = checksums (results s2.2)
  /\ heap s1.2 = heap s2.2 ->
  match for_each orders (dispatch TRIALS CUSTOM A B N) s1,
        for_each orders (dispatch TRIALS CUSTOM A B N) s2 with
  | Go a, Go b =>
      checksums (results a.2) = checksums (results b.2) /\ heap a.2 = heap b.2
  | Exit e a, Exit f b =>
      e = f /\ checksums (results a.2) = checksums (results b.2)
      /\ heap a.2 = heap b.2
  | _, _ => False
  end.
Proof.
  intros HR.
  pose proof (for_each_related
    (fun a b : Matrix2x2 * State =>
       a.1 = b.1 /\ (a.1 = new_matrix N N \/ a.1 = final_C TRIALS A B N)
       /\ checksums (results a.2) = checksums (results b.2)
       /\ heap a.2 = heap b.2)
    orders (dispatch TRIALS CUSTOM A B N)
    (fun X a b => dispatch_related TRIALS CUSTOM A B N X a b) s1 s2 HR) as Hrel.
  destruct (for_each orders _ s1) as [a|e a], (for_each orders _ s2) as [b|f b];
    try contradiction; tauto.
Qed.

Lemma orders_keeps TRIALS CUSTOM A B N orders key (v : ResultValueType) :
  forall s : Matrix2x2 * State,
    (s.1 = new_matrix N N \/ s.1 = final_C TRIALS A B N)
    /\ results s.2 !! key = Some v ->
    match for_each orders (dispatch TRIALS CUSTOM A B N) s with
    | Go s' | Exit _ s' =>
        (s'.1 = new_matrix N N \/ s'.1 = final_C TRIALS A B N)
        /\ results s'.2 !! key = Some v
    end.
Proof.
  apply for_each_invariant. intros X [C st] [HC Hv]. cbn [fst snd] in *.
  destruct (decide (X ∈ labels)) as [HX|HX].
  - destruct (dispatch_valid TRIALS CUSTOM A B N X C st HX HC) as (w & ->).
    cbn [fst snd results]. split; [now right|].
    now apply results_insert_lookup_Some.
  - rewrite dispatch_invalid by assumption. cbn [fst snd results]. now split.
Qed.

(** The dispatch of an order that was not met before at this size, after
    the orders [pre]: the pair enters the store with the average of the
    readings that follow those of [pre]. *)
Lemma orders_first_time TRIALS CUSTOM A B N pre o post st :
  Forall (fun x => x ∈ labels) (pre ++ o :: post) ->
  o ∉ pre -> results st !! (N, o) = None ->
  exists C' st',
    for_each (pre ++ o :: post) (dispatch TRIALS CUSTOM A B N) (new_matrix N N, st)
    = Go (C', st')
    /\ results st' !! (N, o)
       = Some (average (to_uint64 (total_time
                  (mkTimer (readings (timer st)) (taken (timer st) + TRIALS * length pre))
                  TRIALS)) TRIALS,
               expected_checksum TRIALS A B N).
Proof.
  intros Hval Hnin Hnone.
  apply Forall_app in Hval as [Hpre Hrest]. inversion Hrest as [|? ? Ho Hpost]; subst.
  destruct (orders_valid TRIALS CUSTOM A B N pre (new_matrix N N) st Hpre)
    as (C1 & st1 & Hrun1 & HC1 & Hck1 & _ & _ & Htm1); [now left|].
  assert (Hnone1 : results st1 !! (N, o) = None).
  { pose proof (f_equal (fun m => m !! (N, o)) Hck1) as Hl. cbv beta in Hl.
    rewrite checksums_after_lookup, !checksums_lookup, Hnone in Hl. cbn [fmap option_fmap option_map fst snd] in Hl.
    destruct (decide (N = N /\ o ∈ pre)) as [[_ Hin]|_]; [contradiction|].
    destruct (results st1 !! (N, o)); [discriminate|reflexivity]. }
  destruct (dispatch_stored TRIALS CUSTOM A B N o C1 st1 Ho HC1) as (w & Hw & Hd).
  cbv zeta in Hw, Hd. rewrite Htm1 in Hw, Hd. cbn [readings taken] in Hw, Hd.
  unfold results_insert in Hw at 1. rewrite Hnone1, lookup_insert_eq in Hw.
  injection Hw as <-.
  rewrite for_each_app, Hrun1. cbn [for_each]. rewrite Hd.
  set (value := (average (to_uint64 (total_time
                    (mkTimer (readings (timer st)) (taken (timer st) + TRIALS * length pre))
                    TRIALS)) TRIALS,
                 expected_checksum TRIALS A B N)).
  match goal with
  | |- context [for_each post ?body ?s] =>
      pose proof (orders_keeps TRIALS CUSTOM A B N post (N, o) value s) as Hk;
      destruct (orders_valid TRIALS CUSTOM A B N post (final_C TRIALS A B N) s.2 Hpost)
        as (C2 & st2 & Hrun2 & _); [now right|]
  end.
  cbn [fst snd results] in Hk, Hrun2. rewrite Hrun2 in Hk |- *.
  exists C2, st2. split; [reflexivity|]. apply Hk. split; [now right|].
  unfold results_insert. rewrite Hnone1. apply lookup_insert_eq.
Qed.

Lemma select_lists_not_custom opts input :
  CUSTOM opts = false ->
  select_lists opts input = ([in_N input], [in_order input], prompts).
Proof.
  intros Hc. unfold select_lists. rewrite Hc.
  unfold CUSTOM in Hc. apply orb_false_iff in Hc as [_ ->]. reflexivity.
Qed.


(** ** The tables *)

Lemma split_orders_spec orders :
  Forall (fun o => o ∈ labels) (split_orders orders).1
  /\ match (split_orders orders).2 with
     | None => orders = (split_orders orders).1
     | Some bad =>
         (bad ∉ labels) /\ exists post, orders = (split_orders orders).1 ++ bad :: post
     end.
Proof.
  induction orders as [|o rest [IHpre IHbad]]; simpl.
  - split; [constructor|reflexivity].
  - destruct (decide (o ∈ labels)) as [Ho|Ho].
    + destruct (split_orders rest) as [pre bad]. simpl in *. split; [now constructor|].
      destruct bad as [bad|].
      * destruct IHbad as (Hbad & post & ->). split; [assumption|now exists post].
      * now subst.
    + simpl. split; [constructor|]. split; [assumption|now exists rest].
Qed.

Lemma print_cells_is_Some N orders (acc : ResultKeyType -> option Item) :
  (forall o, o ∈ orders -> is_Some (acc (N, o))) ->
  is_Some (print_cells N orders acc).
Proof.
  induction orders as [|o orders IH]; intros Hacc; simpl; [eexists; reflexivity|].
  destruct (Hacc o) as [v ->]; [left|].
  destruct IH as [items ->]; [|eexists; reflexivity].
  intros o' Ho'. apply Hacc. now right.
Qed.

Lemma print_rows_is_Some orders sizes (acc : ResultKeyType -> option Item) :
  (forall N o, N ∈ sizes -> o ∈ orders -> is_Some (acc (N, o))) ->
  is_Some (print_rows orders sizes acc).
Proof.
  induction sizes as [|N sizes IH]; intros Hacc; simpl; [eexists; reflexivity|].
  destruct (print_cells_is_Some N orders acc) as [cells ->].
  { intros o Ho. apply Hacc; [left|assumption]. }
  destruct IH as [rows ->]; [|eexists; reflexivity].
  intros N' o HN' Ho. apply Hacc; [now right|assumption].
Qed.

Lemma print_cells_Some_inv N orders (acc : ResultKeyType -> option Item) :
  is_Some (print_cells N orders acc) ->
  forall o, o ∈ orders -> is_Some (acc (N, o)).
Proof.
  induction orders as [|o' orders IH]; intros Hsome o Ho.
  - now apply elem_of_nil in Ho.
  - cbn [print_cells] in Hsome.
    destruct (acc (N, o')) as [v|] eqn:Ev; [|destruct Hsome; discriminate].
    destruct (print_cells N orders acc) as [items|]; [|destruct Hsome; discriminate].
    apply elem_of_cons in Ho as [->|Ho]; [rewrite Ev; eexists; reflexivity|].
    apply IH; [eexists; reflexivity|assumption].
Qed.

Lemma print_rows_Some_inv orders sizes (acc : ResultKeyType -> option Item) :
  is_Some (print_rows orders sizes acc) ->
  forall N o, N ∈ sizes -> o ∈ orders -> is_Some (acc (N, o)).
Proof.
  induction sizes as [|N' sizes IH]; intros Hsome N o HN Ho.
  - now apply elem_of_nil in HN.
  - cbn [print_rows] in Hsome.
    destruct (print_cells N' orders acc) as [cells|] eqn:Ec;
      [|destruct Hsome; discriminate].
    destruct (print_rows orders sizes acc) as [rows|]; [|destruct Hsome; discriminate].
    apply elem_of_cons in HN as [->|HN].
    + apply (print_cells_Some_inv N' orders acc); [rewrite Ec; eexists; reflexivity|].
      assumption.
    + apply IH; [eexists; reflexivity|assumption..].
Qed.

(** The two tables can be printed once every pair of the two lists is in
    the store. *)
Lemma tables_is_Some (res : ResultsType) orders sizes :
  (forall N o, N ∈ sizes -> o ∈ orders -> is_Some (res !! (N, o))) ->
  is_Some (tables res orders sizes).
Proof.
  intros Hres. unfold tables, print, results_at.
  destruct (print_rows_is_Some orders sizes
              (fun key => (fun v : ResultValueType => Real v.1) <$> res !! key))
    as [times ->].
  { intros N o HN Ho. destruct (Hres N o HN Ho) as [v ->]. eexists; reflexivity. }
  destruct (print_rows_is_Some orders sizes
              (fun key => (fun v : ResultValueType => Integer v.2) <$> res !! key))
    as [sums ->].
  { intros N o HN Ho. destruct (Hres N o HN Ho) as [v ->]. eexists; reflexivity. }
  eexists; reflexivity.
Qed.

Lemma tables_Some_iff (res : ResultsType) orders sizes :
  is_Some (tables res orders sizes)
  <-> forall N o, N ∈ sizes -> o ∈ orders -> is_Some (res !! (N, o)).
Proof.
  split; [|apply tables_is_Some].
  intros Hsome N o HN Ho. unfold tables, print, results_at in Hsome.
  destruct (print_rows orders sizes
              (fun key => (fun v : ResultValueType => Real v.1) <$> res !! key))
    as [times|] eqn:Et; [|destruct Hsome; discriminate].
  pose proof (print_rows_Some_inv orders sizes _ (ex_intro _ times Et) N o HN Ho) as Hp.
  cbv beta in Hp. now apply fmap_is_Some in Hp.
Qed.

(** ** The sweep over the sizes *)

Lemma sweep_checksums_domain (c : nat -> Z) (orders : list string) sizes :
  forall (m : gmap (nat * string) Z) key,
    is_Some (foldl (fun m N => checksums_after N (c N) orders m) m sizes !! key)
    <-> is_Some (m !! key) \/ (key.1 ∈ sizes /\ key.2 ∈ orders).
Proof.
  induction sizes as [|N sizes IH]; intros m key; cbn [foldl].
  - split; [now left|]. intros [Hm|[HN _]]; [assumption|].
    now apply elem_of_nil in HN.
  - rewrite IH, checksums_after_lookup. rewrite elem_of_cons.
    destruct (m !! key) as [x|].
    + split; intros _; left; eexists; reflexivity.
    + destruct (decide (key.1 = N /\ key.2 ∈ orders)) as [[HN Ho]|Hno].
      * split; [|intros _; left; eexists; reflexivity].
        intros _. right. split; [now left|assumption].
      * split.
        -- intros [[x Hx]|[HN Ho]]; [discriminate|]. right. split; [now right|assumption].
        -- intros [[x Hx]|[[HN|HN] Ho]]; [discriminate|tauto|]. right. now split.
Qed.

(** The three declarations on a free store that grants its next three
    requests, and on one that refuses one of them. *)
Lemma declare_matrices_granted N h :
  (forall k, (k < 3)%nat -> grants h (requested h + k) (N * N) = true) ->
  declare_matrices N h = Some (mkHeap (grants h) (requested h + 3)).
Proof.
  intros Hg. unfold declare_matrices, construct.
  pose proof (Hg 0%nat ltac:(lia)) as H0. rewrite Nat.add_0_r in H0.
  pose proof (Hg 1%nat ltac:(lia)) as H1.
  replace (requested h + 1)%nat with (S (requested h)) in H1 by lia.
  pose proof (Hg 2%nat ltac:(lia)) as H2.
  replace (requested h + 2)%nat with (S (S (requested h))) in H2 by lia.
  rewrite H0. cbn [grants requested]. rewrite H1. cbn [grants requested].
  rewrite H2. do 2 f_equal. lia.
Qed.

Lemma declare_matrices_refused N h k :
  (k < 3)%nat -> grants h (requested h + k) (N * N) = false ->
  declare_matrices N h = None.
Proof.
  intros Hk Hno. unfold declare_matrices, construct.
  destruct k as [|[|[|k]]]; [| | |lia].
  - rewrite Nat.add_0_r in Hno. now rewrite Hno.
  - replace (requested h + 1)%nat with (S (requested h)) in Hno by lia.
    destruct (grants h (requested h) (N * N)); [|reflexivity].
    cbn [grants requested]. now rewrite Hno.
  - replace (requested h + 2)%nat with (S (S (requested h))) in Hno by lia.
    destruct (grants h (requested h) (N * N)); [|reflexivity].
    cbn [grants requested].
    destruct (grants h (S (requested h)) (N * N)); [|reflexivity].
    cbn [grants requested]. now rewrite Hno.
Qed.

Section Sweep.
Context `{RandomSource}.

Lemma generate_loop_length count : forall g, length (generate_loop count g).1 = count.
Proof.
  induction count as [|count IH]; intros g; [reflexivity|]. simpl.
  destruct (call g) as [v g']. specialize (IH g').
  destruct (generate_loop count g') as [vs g'']. simpl in *. now rewrite IH.
Qed.

Lemma generate_loop_range count : forall g,
  Forall (fun v => 0 <= v <= 4) (generate_loop count g).1.
Proof.
  induction count as [|count IH]; intros g; [constructor|]. simpl.
  pose proof (dist_range g) as Hv. unfold call. destruct (dist g) as [v g'].
  specialize (IH g'). destruct (generate_loop count g') as [vs g''].
  simpl in *. now constructor.
Qed.

(** Both fills of the loop body start from the generator as it was
    handed in: [A] and [B] are the same matrix of its first draws. *)
Lemma make_inputs_eq gen N :
  make_inputs gen N = (input_matrix gen N, input_matrix gen N, new_matrix N N).
Proof.
  unfold make_inputs, input_matrix, generate_matrix, generate_n, new_matrix,
    num_elements. cbn [extent0 extent1 data].
  pose proof (generate_loop_length (N * N) gen) as Hlen.
  destruct (generate_loop (N * N) gen) as [vs g']. cbn [fst] in *.
  rewrite length_replicate, drop_ge by (rewrite length_replicate; lia).
  rewrite firstn_all2 by lia. now rewrite app_nil_r.
Qed.

(** One size whose blocks are granted, with valid orders. *)
Lemma sweep_size_valid TRIALS CUSTOM gen orders N st h :
  Forall (fun o => o ∈ labels) orders ->
  declare_matrices N (heap st) = Some h ->
  exists st',
    sweep_size TRIALS CUSTOM gen orders N st = Go st'
    /\ checksums (results st')
       = checksums_after N
           (expected_checksum TRIALS (input_matrix gen N) (input_matrix gen N) N)
           orders (checksums (results st))
    /\ cerr st' = cerr st ++ (if CUSTOM then orders ≫= progress N else [])
    /\ (CUSTOM = true -> cout st' = cout st)
    /\ timer st'
       = mkTimer (readings (timer st)) (taken (timer st) + TRIALS * length orders)
    /\ heap st' = h.
Proof.
  intros Hval Hdecl. unfold sweep_size. rewrite Hdecl, make_inputs_eq.
  destruct (orders_valid TRIALS CUSTOM (input_matrix gen N) (input_matrix gen N) N
              orders (new_matrix N N)
              (mkState (results st) (cout st) (cerr st) (timer st) h) Hval)
    as (C' & st' & Hrun & _ & Hck & Herr & Hout & Htm); [now left|].
  pose proof (orders_heap TRIALS CUSTOM (input_matrix gen N) (input_matrix gen N) N
                orders (new_matrix N N,
                        mkState (results st) (cout st) (cerr st) (timer st) h)) as Hh.
  rewrite Hrun in Hh |- *. cbn [fst snd results cout cerr timer heap] in *.
  exists st'. repeat split; assumption.
Qed.

(** One size whose blocks are granted, with a first invalid order. *)
Lemma sweep_size_invalid TRIALS CUSTOM gen pre bad post N st h :
  Forall (fun o => o ∈ labels) pre -> bad ∉ labels ->
  declare_matrices N (heap st) = Some h ->
  exists st',
    sweep_size TRIALS CUSTOM gen (pre ++ bad :: post) N st = Exit EXIT_FAILURE st'
    /\ checksums (results st')
       = checksums_after N
           (expected_checksum TRIALS (input_matrix gen N) (input_matrix gen N) N)
           pre (checksums (results st))
    /\ cerr st' = cerr st ++ (if CUSTOM then (pre ++ [bad]) ≫= progress N else [])
                  ++ diagnostic bad
    /\ (CUSTOM = true \/ pre = [] -> cout st' = cout st)
    /\ timer st'
       = mkTimer (readings (timer st)) (taken (timer st) + TRIALS * length pre).
Proof.
  intros Hval Hbad Hdecl. unfold sweep_size. rewrite Hdecl, make_inputs_eq.
  destruct (orders_invalid TRIALS CUSTOM (input_matrix gen N) (input_matrix gen N) N
              pre bad post (new_matrix N N)
              (mkState (results st) (cout st) (cerr st) (timer st) h) Hval Hbad)
    as (C' & st' & Hrun & Hck & Herr & Hout & Htm); [now left|].
  rewrite Hrun. cbn [results cout cerr timer] in *.
  exists st'. repeat split; assumption.
Qed.

(** The sweep over sizes whose blocks are all granted, with valid
    orders. *)
Lemma sweep_valid TRIALS CUSTOM gen orders sizes : forall st,
  Forall (fun o => o ∈ labels) orders ->
  granted (grants (heap st)) sizes ->
  exists st',
    for_each sizes (sweep_size TRIALS CUSTOM gen orders) st = Go st'
    /\ checksums (results st')
       = foldl (fun m N =>
                  checksums_after N
                    (expected_checksum TRIALS (input_matrix gen N) (input_matrix gen N) N)
                    orders m)
               (checksums (results st)) sizes
    /\ cerr st'
       = cerr st ++ (if CUSTOM then sizes ≫= (fun N => orders ≫= progress N) else [])
    /\ (CUSTOM = true -> cout st' = cout st)
    /\ timer st'
       = mkTimer (readings (timer st))
                 (taken (timer st) + TRIALS * length orders * length sizes)
    /\ heap st'
       = mkHeap (grants (heap st)) (requested (heap st) + 3 * length sizes).
Proof.
  induction sizes as [|N sizes IH]; intros st Hval Hgr.
  - exists st. cbn [for_each foldl length]. rewrite !Nat.mul_0_r, !Nat.add_0_r.
    repeat split.
    + destruct CUSTOM; now rewrite app_nil_r.
    + now destruct (timer st).
    + now destruct (heap st).
  - unfold granted in Hgr. apply Forall_cons in Hgr as [HN Hgr].
    destruct (sweep_size_valid TRIALS CUSTOM gen orders N st _ Hval
                (declare_matrices_granted N (heap st)
                   (fun k _ => HN (requested (heap st) + k)%nat)))
      as (st1 & Hrun & Hck & Herr & Hout & Htm & Hh).
    destruct (IH st1 Hval) as (st' & Hrun' & Hck' & Herr' & Hout' & Htm' & Hh').
    { rewrite Hh. exact Hgr. }
    exists st'. cbn [for_each foldl]. rewrite Hrun, Hrun'. split; [reflexivity|].
    split; [now rewrite Hck', Hck|]. split; [|split; [|split]].
    + rewrite Herr', Herr. destruct CUSTOM.
      * rewrite bind_cons. now rewrite <- !app_assoc.
      * now rewrite !app_nil_r.
    + intros Hc. now rewrite Hout', Hout.
    + rewrite Htm', Htm. cbn [readings taken length]. f_equal. lia.
    + rewrite Hh', Hh. cbn [grants requested length]. f_equal. lia.
Qed.

(** The stored pairs keep a property that the pair of every dispatch
    has, through the sweep and to the end of the run, however the run
    ends. *)
Lemma sweep_values (P : ResultKeyType -> ResultValueType -> Prop)
    TRIALS CUSTOM gen orders sizes :
  (forall t N X,
     P (N, X) (average (to_uint64 (total_time t TRIALS)) TRIALS,
               expected_checksum TRIALS (input_matrix gen N) (input_matrix gen N) N)) ->
  forall st, map_Forall P (results st) ->
  match for_each sizes (sweep_size TRIALS CUSTOM gen orders) st with
  | Go st' | Exit _ st' => map_Forall P (results st')
  end.
Proof.
  intros HP. apply for_each_invariant. intros N st Hst.
  unfold sweep_size. destruct (declare_matrices N (heap st)) as [h|]; [|exact Hst].
  rewrite make_inputs_eq.
  pose proof (for_each_invariant
    (fun s : Matrix2x2 * State =>
       (s.1 = new_matrix N N
        \/ s.1 = final_C TRIALS (input_matrix gen N) (input_matrix gen N) N)
       /\ map_Forall P (results s.2))
    orders (dispatch TRIALS CUSTOM (input_matrix gen N) (input_matrix gen N) N)) as Hinv.
  specialize (Hinv (fun X s => dispatch_values P TRIALS CUSTOM _ _ N X s
                                 (fun t => HP t N X))
                   (new_matrix N N,
                    mkState (results st) (cout st) (cerr st) (timer st) h)).
  cbn [fst snd results] in Hinv. specialize (Hinv (conj (or_introl eq_refl) Hst)).
  destruct (for_each orders _ _) as [[C' st']|status [C' st']]; apply Hinv.
Qed.

Lemma main_values (P : ResultKeyType -> ResultValueType -> Prop)
    opts input clock memory :
  (forall t N X,
     P (N, X)
       (average (to_uint64 (total_time t (default 5%nat (opt_iterations opts))))
                (default 5%nat (opt_iterations opts)),
        size_checksum (default 5%nat (opt_iterations opts))
                      (default 0%nat (opt_seed opts)) N)) ->
  map_Forall P (results (main opts input clock memory).2).
Proof.
  intros HP. unfold main. destruct (opt_help opts); [apply map_Forall_empty|].
  destruct (select_lists opts input) as [[sizes orders] asked].
  pose proof (sweep_values P _ (CUSTOM opts) (bind_dist (seed_engine
                (default 0%nat (opt_seed opts)))) orders sizes HP
                (mkState ∅ asked [] (mkTimer clock 0) (mkHeap memory 0))) as Hinv.
  cbn [results] in Hinv. specialize (Hinv (map_Forall_empty _)).
  destruct (for_each sizes _ _) as [st|status st]; [|exact Hinv].
  destruct (tables (results st) orders sizes); exact Hinv.
Qed.

Lemma sweep_keeps TRIALS CUSTOM gen orders sizes key (v : ResultValueType) :
  forall st, results st !! key = Some v ->
  match for_each sizes (sweep_size TRIALS CUSTOM gen orders) st with
  | Go st' | Exit _ st' => results st' !! key = Some v
  end.
Proof.
  apply for_each_invariant. intros N st Hv.
  unfold sweep_size. destruct (declare_matrices N (heap st)) as [h|]; [|exact Hv].
  rewrite make_inputs_eq.
  pose proof (orders_keeps TRIALS CUSTOM (input_matrix gen N) (input_matrix gen N) N
                orders key v
                (new_matrix N N, mkState (results st) (cout st) (cerr st) (timer st) h)
                (conj (or_introl eq_refl) Hv)) as Hk.
  destruct (for_each orders _ _) as [[C' st']|status [C' st']]; apply Hk.
Qed.

(** Two sweeps from states that agree on the checksums and the free
    store end alike, whatever their clocks are. *)
Lemma sweep_related TRIALS CUSTOM gen orders sizes (st1 st2 : State) :
  checksums (results st1) = checksums (results st2) /\ heap st1 = heap st2 ->
  match for_each sizes (sweep_size TRIALS CUSTOM gen orders) st1,
        for_each sizes (sweep_size TRIALS CUSTOM gen orders) st2 with
  | Go a, Go b => checksums (results a) = checksums (results b) /\ heap a = heap b
  | Exit e a, Exit f b =>
      e = f /\ checksums (results a) = checksums (results b) /\ heap a = heap b
  | _, _ => False
  end.
Proof.
  apply (for_each_related
    (fun a b : State => checksums (results a) = checksums (results b)
                        /\ heap a = heap b)).
  clear st1 st2. intros N st1 st2 [Hck Hh]. unfold sweep_size. rewrite Hh.
  destruct (declare_matrices N (heap st2)) as [h|]; [|now repeat split].
  rewrite make_inputs_eq.
  pose proof (orders_related TRIALS CUSTOM (input_matrix gen N) (input_matrix gen N) N
                orders
                (new_matrix N N, mkState (results st1) (cout st1) (cerr st1) (timer st1) h)
                (new_matrix N N, mkState (results st2) (cout st2) (cerr st2) (timer st2) h))
    as Hrel.
  cbn [fst snd results heap] in Hrel.
  specialize (Hrel (conj eq_refl (conj (or_introl eq_refl) (conj Hck eq_refl)))).
  destruct (for_each orders _ (_, mkState (results st1) _ _ _ _)) as [[C1 a]|e [C1 a]],
           (for_each orders _ (_, mkState (results st2) _ _ _ _)) as [[C2 b]|f [C2 b]];
    try contradiction; exact Hrel.
Qed.

(** The exit status and the checksums of a run do not involve the clock. *)
Lemma main_clock_independent opts input clock1 clock2 memory :
  (main opts input clock1 memory).1 = (main opts input clock2 memory).1
  /\ checksums (results (main opts input clock1 memory).2)
     = checksums (results (main opts input clock2 memory).2).
Proof.
  unfold main. destruct (opt_help opts); [now split|].
  destruct (select_lists opts input) as [[sizes orders] asked].
  pose proof (sweep_related (default 5%nat (opt_iterations opts)) (CUSTOM opts)
                (bind_dist (seed_engine (default 0%nat (opt_seed opts)))) orders sizes
                (mkState ∅ asked [] (mkTimer clock1 0) (mkHeap memory 0))
                (mkState ∅ asked [] (mkTimer clock2 0) (mkHeap memory 0))
                (conj eq_refl eq_refl)) as Hrel.
  destruct (for_each sizes _ (mkState ∅ asked [] (mkTimer clock1 0) _)) as [a|e a],
           (for_each sizes _ (mkState ∅ asked [] (mkTimer clock2 0) _)) as [b|f b];
    try contradiction.
  - destruct Hrel as [Hck Hh].
    assert (Hsame : is_Some (tables (results a) orders sizes)
                    <-> is_Some (tables (results b) orders sizes)).
    { rewrite !tables_Some_iff. split; intros Hall N o HN Ho;
        specialize (Hall N o HN Ho);
        pose proof (f_equal (fun m => m !! (N, o)) Hck) as Hl; cbv beta in Hl;
        rewrite !checksums_lookup in Hl;
        destruct (results a !! (N, o)), (results b !! (N, o));
        try discriminate; try (eexists; reflexivity); destruct Hall; discriminate. }
    destruct (tables (results a) orders sizes) as [ta|],
             (tables (results b) orders sizes) as [tb|]; cbn [fst snd results].
    + now split.
    + destruct (proj1 Hsame) as [x Hx]; [eexists; reflexivity|discriminate].
    + destruct (proj2 Hsame) as [x Hx]; [eexists; reflexivity|discriminate].
    + now split.
  - destruct Hrel as (-> & Hck & Hh). now split.
Qed.

(** A run whose orders are all among the six labels and whose blocks
    are all granted, with the state the sweep leaves. *)
Lemma main_valid opts input clock memory sizes orders asked :
  opt_help opts = false ->
  select_lists opts input = (sizes, orders, asked) ->
  Forall (fun o => o ∈ labels) orders ->
  granted memory sizes ->
  exists st text,
    for_each sizes
      (sweep_size (default 5%nat (opt_iterations opts)) (CUSTOM opts)
         (bind_dist (seed_engine (default 0%nat (opt_seed opts)))) orders)
      (mkState ∅ asked [] (mkTimer clock 0) (mkHeap memory 0)) = Go st
    /\ tables (results st) orders sizes = Some text
    /\ main opts input clock memory
       = (EXIT_SUCCESS,
          mkState (results st)
                  (conditionalPrint (cout st) (CUSTOM opts)
                     ([Text "Done!                                "; Endl] ++ text))
                  (cerr st) (timer st) (heap st))
    /\ (forall key, is_Some (results st !! key) <-> key.1 ∈ sizes /\ key.2 ∈ orders)
    /\ cerr st
       = (if CUSTOM opts then sizes ≫= (fun N => orders ≫= progress N) else [])
    /\ (CUSTOM opts = true -> cout st = asked)
    /\ timer st
       = mkTimer clock
           (default 5%nat (opt_iterations opts) * length orders * length sizes).
Proof.
  intros Hhelp Hsel Hval Hgr. unfold main. rewrite Hhelp, Hsel.
  set (TRIALS := default 5%nat (opt_iterations opts)).
  set (gen := bind_dist (seed_engine (default 0%nat (opt_seed opts)))).
  set (st1 := mkState ∅ asked [] (mkTimer clock 0) (mkHeap memory 0)).
  destruct (sweep_valid TRIALS (CUSTOM opts) gen orders sizes st1 Hval Hgr)
    as (st & Hrun & Hck & Herr & Hout & Htm & _).
  assert (Hdom : forall key,
            is_Some (results st !! key) <-> key.1 ∈ sizes /\ key.2 ∈ orders).
  { intros key.
    pose proof (sweep_checksums_domain
      (fun N => expected_checksum TRIALS (input_matrix gen N) (input_matrix gen N) N)
      orders sizes (checksums (results st1)) key) as Hd.
    cbv beta in Hd. rewrite <- Hck in Hd. rewrite !checksums_lookup in Hd.
    cbn [results st1] in Hd. rewrite lookup_empty in Hd.
    rewrite fmap_is_Some in Hd. rewrite Hd. split; [|now right].
    intros [[x Hx]|Hin]; [discriminate|assumption]. }
  destruct (tables_is_Some (results st) orders sizes) as [text Htext].
  { intros N o HN Ho. now apply (Hdom (N, o)). }
  exists st, text. rewrite Hrun, Htext. split; [reflexivity|].
  split; [reflexivity|]. split; [reflexivity|].
  split; [exact Hdom|]. split; [exact Herr|]. split; [exact Hout|].
  rewrite Htm. reflexivity.
Qed.

(** The interactive run, case by case: a refused block, a label among
    the six, any other label. *)
Lemma interactive_outcome opts input clock memory :
  opt_help opts = false -> CUSTOM opts = false ->
  let TRIALS := default 5%nat (opt_iterations opts) in
  let time := average (to_uint64 (total_time (mkTimer clock 0) TRIALS)) TRIALS in
  let sum := size_checksum TRIALS (default 0%nat (opt_seed opts)) (in_N input) in
  main opts input clock memory
  = match declare_matrices (in_N input) (mkHeap memory 0) with
    | None => (Terminate, mkState ∅ prompts [] (mkTimer clock 0) (mkHeap memory 0))
    | Some h =>
        if decide (in_order input ∈ labels)
        then (EXIT_SUCCESS,
              mkState {[ (in_N input, in_order input) := (time, sum) ]}
                      (prompts ++ report time sum) [] (mkTimer clock TRIALS) h)
        else (EXIT_FAILURE,
              mkState ∅ prompts (diagnostic (in_order input)) (mkTimer clock 0) h)
    end.
Proof.
  intros Hhelp Hc TRIALS time sum. unfold main.
  rewrite Hhelp, (select_lists_not_custom opts input Hc), Hc.
  fold TRIALS. cbn [for_each]. unfold sweep_size. cbn [heap].
  destruct (declare_matrices (in_N input) (mkHeap memory 0)) as [h|]; [|reflexivity].
  rewrite make_inputs_eq. cbn [for_each results cout cerr timer].
  set (gen := bind_dist (seed_engine (default 0%nat (opt_seed opts)))).
  destruct (decide (in_order input ∈ labels)) as [Horder|Horder].
  - destruct (dispatch_stored TRIALS false (input_matrix gen (in_N input))
                (input_matrix gen (in_N input)) (in_N input) (in_order input)
                (new_matrix (in_N input) (in_N input))
                (mkState ∅ prompts [] (mkTimer clock 0) h) Horder (or_introl eq_refl))
      as (w & Hw & ->).
    cbn [results timer cout cerr taken readings heap] in *.
    fold time in Hw |- *.
    change (expected_checksum TRIALS (input_matrix gen (in_N input))
              (input_matrix gen (in_N input)) (in_N input)) with sum in Hw |- *.
    unfold results_insert in *. rewrite lookup_empty in *.
    rewrite lookup_insert_eq in Hw. injection Hw as <-.
    change (insert (in_N input, in_order input) (time, sum) ∅)
      with ({[ (in_N input, in_order input) := (time, sum) ]} : ResultsType).
    destruct (tables_is_Some {[ (in_N input, in_order input) := (time, sum) ]}
                [in_order input] [in_N input]) as [text ->].
    { intros N o HN Ho. apply list_elem_of_singleton in HN, Ho. subst.
      rewrite lookup_singleton_eq. eexists; reflexivity. }
    reflexivity.
  - rewrite dispatch_invalid by assumption. reflexivity.
Qed.

End Sweep.

(** ** The claims on the driver *)

Section DriverClaims.
Context `{RandomSource}.

(** C2. When the list of orders holds a label that is not one of the six,
    with valid labels [pre] before the first such label [bad], and the
    blocks of the three matrices of the first size N are granted, the
    run ends in the handler at the dispatch of (N, bad): the exit status
    is the failure status; the last thing written to the diagnostic
    stream is the message "invalid traversal provided: " followed by the
    label [bad] and the end of the line (after the progress lines of the
    dispatches made, in batch mode); the store has no entry for (N, bad)
    and entries only for pairs dispatched before it; no kernel was
    executed for the pair; and the output stream holds nothing but what
    was written before the loops, so no table. *)
Theorem invalid_order_aborts opts input clock memory N rest pre bad post asked :
  opt_help opts = false ->
  select_lists opts input = (N :: rest, pre ++ bad :: post, asked) ->
  Forall (fun o => o ∈ labels) pre -> bad ∉ labels ->
  (forall k, (k < 3)%nat -> memory k (N * N)%nat = true) ->
  (main opts input clock memory).1 = EXIT_FAILURE
  /\ cerr (main opts input clock memory).2
     = (if CUSTOM opts
        then (pre ++ [bad]) ≫=
               (fun o => [Text "Trials for "; Unsigned N; Text " with order ";
                          Text o; Text "    "; Letter "013"])
        else [])
       ++ [Text "invalid traversal provided: "; Text bad; Endl]
  /\ cout (main opts input clock memory).2 = asked
  /\ results (main opts input clock memory).2 !! (N, bad) = None
  /\ (forall key, is_Some (results (main opts input clock memory).2 !! key) ->
        exists o, o ∈ pre /\ key = (N, o))
  /\ taken (timer (main opts input clock memory).2)
     = (default 5 (opt_iterations opts) * length pre)%nat.
Proof.
  intros Hhelp Hsel Hpre Hbad Hgr. unfold main. rewrite Hhelp, Hsel.
  cbn [for_each].
  destruct (sweep_size_invalid (default 5%nat (opt_iterations opts)) (CUSTOM opts)
              (bind_dist (seed_engine (default 0%nat (opt_seed opts))))
              pre bad post N
              (mkState ∅ asked [] (mkTimer clock 0) (mkHeap memory 0)) _ Hpre Hbad
              (declare_matrices_granted N (mkHeap memory 0) (fun k Hk => Hgr k Hk)))
    as (st' & Hrun & Hck & Herr & Hout & Htm).
  rewrite Hrun. cbn [fst snd]. cbn [results cerr cout timer] in *.
  assert (Hdom : forall key, is_Some (results st' !! key) ->
                   exists o, o ∈ pre /\ key = (N, o)).
  { intros key [v Hv].
    assert (Hk : checksums (results st') !! key = Some v.2)
      by (rewrite checksums_lookup, Hv; reflexivity).
    rewrite Hck, checksums_after_lookup in Hk.
    unfold checksums in Hk. rewrite lookup_fmap, lookup_empty in Hk. simpl in Hk.
    destruct (decide _) as [[HN Hin]|_]; [|discriminate].
    exists key.2. split; [assumption|]. destruct key; simpl in *; congruence. }
  split; [reflexivity|]. split; [exact Herr|]. split.
  - apply Hout. destruct (CUSTOM opts) eqn:Ec; [now left|right].
    rewrite (select_lists_not_custom opts input Ec) in Hsel.
    inversion Hsel as [[HN Hl Ha]]. destruct pre; [reflexivity|].
    destruct pre; discriminate.
  - split; [|split].
    + destruct (results st' !! (N, bad)) as [v|] eqn:E; [|reflexivity].
      destruct (Hdom (N, bad)) as (o & Ho & Heq); [now rewrite E|].
      inversion Heq; subst. rewrite Forall_forall in Hpre.
      exfalso. apply Hbad, Hpre, Ho.
    + exact Hdom.
    + rewrite Htm. simpl. lia.
Qed.

(** C9. When neither the help flag nor the run-all flag is given and
    exactly one of the options sizes and traversals is given, the
    driver is not in custom mode. The lists it works on are the single
    size and the single order read from the input, and the run is the
    one with neither option given: the list of the command line plays
    no part. The output stream starts with the prompts ("-- BEGIN INPUT
    --", "N     ==> ", "Order ==> ", "-- END INPUT --"); no pair other
    than the one read enters the store; and when the blocks of the
    matrices are granted and the order read is one of the six labels,
    the run succeeds, with that pair in the store after [TRIALS]
    executions of its kernel. *)
Theorem one_list_falls_back_to_input opts input clock memory :
  opt_help opts = false -> opt_all opts = false ->
  (is_Some (opt_sizes opts) /\ opt_traversals opts = None)
  \/ (opt_sizes opts = None /\ is_Some (opt_traversals opts)) ->
  CUSTOM opts = false
  /\ select_lists opts input
     = ([in_N input], [in_order input],
        [Text "-- BEGIN INPUT --"; Endl; Text "N     ==> "; Text "Order ==> ";
         Text "-- END INPUT --"; Endl])
  /\ main opts input clock memory
     = main (mkOptions (opt_help opts) false (opt_iterations opts) (opt_seed opts)
                       None None) input clock memory
  /\ (exists rest,
        cout (main opts input clock memory).2
        = [Text "-- BEGIN INPUT --"; Endl; Text "N     ==> "; Text "Order ==> ";
           Text "-- END INPUT --"; Endl] ++ rest)
  /\ (forall key, is_Some (results (main opts input clock memory).2 !! key) ->
        key = (in_N input, in_order input))
  /\ ((forall k, (k < 3)%nat -> memory k (in_N input * in_N input)%nat = true) ->
      in_order input ∈ labels ->
      (main opts input clock memory).1 = EXIT_SUCCESS
      /\ is_Some (results (main opts input clock memory).2
                    !! (in_N input, in_order input))
      /\ taken (timer (main opts input clock memory).2)
         = default 5%nat (opt_iterations opts)).
Proof.
  intros Hhelp Hall Hone.
  assert (Hcustom : CUSTOM opts = false).
  { unfold CUSTOM, RUN_ALL. rewrite Hall.
    destruct Hone as [[_ ->]|[-> _]]; simpl;
      rewrite ?andb_false_r; reflexivity. }
  assert (Hsel : select_lists opts input = ([in_N input], [in_order input], prompts)).
  { unfold select_lists. unfold RUN_ALL at 1. now rewrite Hall, Hcustom. }
  split; [assumption|]. split; [exact Hsel|]. split.
  { unfold main. rewrite Hsel, Hcustom. reflexivity. }
  pose proof (interactive_outcome opts input clock memory Hhelp Hcustom) as Hrun.
  cbv zeta in Hrun. rewrite Hrun. clear Hrun. split; [|split].
  - destruct (declare_matrices _ _) as [h|]; [destruct (decide _)|]; cbn [snd cout].
    + eexists. reflexivity.
    + exists []. reflexivity.
    + exists []. reflexivity.
  - intros key [v Hv].
    destruct (declare_matrices _ _) as [h|]; [destruct (decide _)|];
      cbn [snd results] in Hv.
    + apply lookup_singleton_Some in Hv as [<- _]. reflexivity.
    + rewrite lookup_empty in Hv. discriminate.
    + rewrite lookup_empty in Hv. discriminate.
  - intros Hgr Horder.
    rewrite (declare_matrices_granted (in_N input) (mkHeap memory 0)
               (fun k Hk => Hgr k Hk)).
    destruct (decide _) as [_|Hno]; [|contradiction].
    cbn [fst snd results timer taken]. split; [reflexivity|]. split; [|reflexivity].
    rewrite lookup_singleton_eq. eexists; reflexivity.
Qed.

End DriverClaims.

Lemma invalid_order_aborts_witness :
  (main (H := lcg)
        (mkOptions false false None None (Some [2; 3]%nat) (Some ["ijk"; "xyz"; "kji"]))
        (mkInput 0 "") (fun _ => 7) (fun _ n => (n <=? 100)%nat)).1
  = EXIT_FAILURE
  /\ cerr (main (H := lcg)
        (mkOptions false false None None (Some [2; 3]%nat) (Some ["ijk"; "xyz"; "kji"]))
        (mkInput 0 "") (fun _ => 7) (fun _ n => (n <=? 100)%nat)).2
     = [Text "Trials for "; Unsigned 2; Text " with order "; Text "ijk";
        Text "    "; Letter "013";
        Text "Trials for "; Unsigned 2; Text " with order "; Text "xyz";
        Text "    "; Letter "013";
        Text "invalid traversal provided: "; Text "xyz"; Endl].
Proof.
  destruct (invalid_order_aborts (H := lcg)
              (mkOptions false false None None (Some [2; 3]%nat)
                         (Some ["ijk"; "xyz"; "kji"]))
              (mkInput 0 "") (fun _ => 7) (fun _ n => (n <=? 100)%nat)
              2%nat [3%nat] ["ijk"%string] "xyz"%string ["kji"%string] [])
    as (Hstatus & Herr & _).
  - reflexivity.
  - reflexivity.
  - repeat constructor.
  - apply (bool_decide_unpack _). vm_compute. exact I.
  - intros k _. reflexivity.
  - split; [exact Hstatus|exact Herr].
Defined.

Lemma one_list_falls_back_to_input_witness :
  select_lists (mkOptions false false None None (Some [100; 200]%nat) None)
               (mkInput 2 "jik")
  = ([2%nat], ["jik"%string],
     [Text "-- BEGIN INPUT --"; Endl; Text "N     ==> "; Text "Order ==> ";
      Text "-- END INPUT --"; Endl])
  /\ (main (H := lcg) (mkOptions false false None None (Some [100; 200]%nat) None)
           (mkInput 2 "jik") (fun _ => 7) (fun _ n => (n <=? 100)%nat)).1
     = EXIT_SUCCESS.
Proof.
  destruct (one_list_falls_back_to_input (H := lcg)
              (mkOptions false false None None (Some [100; 200]%nat) None)
              (mkInput 2 "jik") (fun _ => 7) (fun _ n => (n <=? 100)%nat))
    as (_ & Hsel & _ & _ & _ & Hrun).
  - reflexivity.
  - reflexivity.
  - left. split; [eexists; reflexivity | reflexivity].
  - split; [exact Hsel|]. apply Hrun.
    + intros k _. reflexivity.
    + apply (bool_decide_unpack _). vm_compute. exact I.
Defined.

(** ** The claims on the generated inputs *)

Section Determinism.
Context `{RandomSource}.

(** Every checksum in the store is the one of its size. *)
Lemma stored_checksum opts input clock memory N order v :
  results (main opts input clock memory).2 !! (N, order) = Some v ->
  v.2 = size_checksum (default 5%nat (opt_iterations opts))
                      (default 0%nat (opt_seed opts)) N.
Proof.
  intros Hv.
  apply (main_values
           (fun key v => v.2 = size_checksum (default 5%nat (opt_iterations opts))
                                             (default 0%nat (opt_seed opts)) key.1)
           opts input clock memory (fun t N X => eq_refl) (N, order) v Hv).
Qed.

(** C8. Two runs with the same options, the same input and the same
    free store, whatever the clock shows in each, end with the same
    exit status and the same checksum for every (size, order) pair. The
    matrices [A] and [B] of a size are determined by the seed and the
    size, their entries lie between 0 and 4, and every order of a size
    is run on them: the checksum stored for a pair is the one of its
    size. *)
Theorem fixed_seed_runs_agree opts input clock1 clock2 memory :
  (main opts input clock1 memory).1 = (main opts input clock2 memory).1
  /\ checksums (results (main opts input clock1 memory).2)
     = checksums (results (main opts input clock2 memory).2)
  /\ (forall N order v,
        results (main opts input clock1 memory).2 !! (N, order) = Some v ->
        v.2 = size_checksum (default 5%nat (opt_iterations opts))
                            (default 0%nat (opt_seed opts)) N)
  /\ forall N,
       let gen := bind_dist (seed_engine (default 0%nat (opt_seed opts))) in
       (make_inputs gen N).1 = (input_matrix gen N, input_matrix gen N)
       /\ Forall (fun v => 0 <= v <= 4) (data (input_matrix gen N)).
Proof.
  destruct (main_clock_independent opts input clock1 clock2 memory) as [Hst Hck].
  split; [exact Hst|]. split; [exact Hck|]. split.
  - intros N order v. apply stored_checksum.
  - intros N gen. split; [now rewrite make_inputs_eq|].
    unfold input_matrix. cbn [data]. apply generate_loop_range.
Qed.

(** C10, as the code has it. The engine is seeded once and never again,
    and its state is not carried from one fill to the next:
    [std::generate_n] works on its own copy of the generator, so for
    every size both [A] and [B] hold the first N*N draws of the seeded
    engine. The matrices of a size are the same whatever sizes come
    before it, and so is the checksum stored for it. *)
Theorem fills_restart_from_seed opts input clock memory :
  (forall gen N,
     make_inputs gen N = (input_matrix gen N, input_matrix gen N, new_matrix N N))
  /\ (forall gen before1 before2 N,
        sweep_inputs gen (before1 ++ [N]) !! length before1
        = Some (input_matrix gen N, input_matrix gen N)
        /\ sweep_inputs gen (before1 ++ [N]) !! length before1
           = sweep_inputs gen (before2 ++ [N]) !! length before2)
  /\ (forall N order v,
        results (main opts input clock memory).2 !! (N, order) = Some v ->
        v.2 = size_checksum (default 5%nat (opt_iterations opts))
                            (default 0%nat (opt_seed opts)) N).
Proof.
  assert (Hat : forall gen before N,
            sweep_inputs gen (before ++ [N]) !! length before
            = Some (input_matrix gen N, input_matrix gen N)).
  { intros gen before N. unfold sweep_inputs.
    rewrite list_lookup_fmap, lookup_app_r, Nat.sub_diag by lia.
    change ([N] !! 0%nat) with (Some N). cbn [fmap option_fmap option_map].
    now rewrite make_inputs_eq. }
  split; [apply make_inputs_eq|]. split.
  - intros gen before1 before2 N. now rewrite !Hat.
  - intros N order v. apply stored_checksum.
Qed.

End Determinism.

Lemma fixed_seed_runs_agree_witness :
  exists v,
    results (main (H := lcg)
      (mkOptions false false (Some 1%nat) None (Some [2]%nat) (Some ["kij"%string]))
      (mkInput 0 "") (fun _ => 7) (fun _ _ => true)).2 !! (2%nat, "kij"%string) = Some v
    /\ v.2 = size_checksum (H := lcg) 1 0 2.
Proof.
  eexists. split; [vm_compute; reflexivity|].
  destruct (fixed_seed_runs_agree (H := lcg)
              (mkOptions false false (Some 1%nat) None (Some [2]%nat)
                         (Some ["kij"%string]))
              (mkInput 0 "") (fun _ => 7) (fun _ => 9) (fun _ _ => true)) as (_ & _ & Hv & _).
  apply (Hv 2%nat "kij"%string). vm_compute. reflexivity.
Defined.

Lemma fills_restart_from_seed_witness :
  exists v,
    results (main (H := lcg)
      (mkOptions false false (Some 1%nat) None (Some [3; 2]%nat) (Some ["ijk"%string]))
      (mkInput 0 "") (fun _ => 7) (fun _ _ => true)).2 !! (2%nat, "ijk"%string) = Some v
    /\ v.2 = size_checksum (H := lcg) 1 0 2.
Proof.
  eexists. split; [vm_compute; reflexivity|].
  destruct (fills_restart_from_seed (H := lcg)
              (mkOptions false false (Some 1%nat) None (Some [3; 2]%nat)
                         (Some ["ijk"%string]))
              (mkInput 0 "") (fun _ => 7) (fun _ _ => true)) as (_ & _ & Hv).
  apply (Hv 2%nat "ijk"%string). vm_compute. reflexivity.
Defined.

(** C10 as stated fails. With the small engine seeded with 0, the sweep
    over the sizes 1 and 2 does not work on the matrices a threaded
    engine state would give; size 2 gets the same matrices after size 1
    and after size 3, where a threaded state would give different ones;
    and the checksum stored for (2, ijk) is the same in both sweeps. *)
Lemma sweep_is_not_threaded :
  sweep_inputs (H := lcg) (seed_engine 0) [1; 2]%nat
    <> threaded_inputs (H := lcg) (seed_engine 0) [1; 2]%nat
  /\ sweep_inputs (H := lcg) (seed_engine 0) [1; 2]%nat !! 1%nat
     = sweep_inputs (H := lcg) (seed_engine 0) [3; 2]%nat !! 1%nat
  /\ threaded_inputs (H := lcg) (seed_engine 0) [1; 2]%nat !! 1%nat
     <> threaded_inputs (H := lcg) (seed_engine 0) [3; 2]%nat !! 1%nat
  /\ checksums (results (main (H := lcg)
        (mkOptions false false (Some 1%nat) None (Some [1; 2]%nat) (Some ["ijk"%string]))
        (mkInput 0 "") (fun _ => 7) (fun _ _ => true)).2) !! (2%nat, "ijk"%string)
     = checksums (results (main (H := lcg)
        (mkOptions false false (Some 1%nat) None (Some [3; 2]%nat) (Some ["ijk"%string]))
        (mkInput 0 "") (fun _ => 7) (fun _ _ => true)).2) !! (2%nat, "ijk"%string).
Proof.
  split; [vm_compute; discriminate|].
  split; [vm_compute; reflexivity|].
  split; [vm_compute; discriminate|].
  vm_compute. reflexivity.
Qed.

(** ** The checksum *)

Lemma accumulate_wrap l : forall acc,
  accumulate l (wrap acc) = wrap (acc + Zsum l).
Proof.
  unfold accumulate.
  induction l as [|x l IH]; intros acc.
  - unfold Zsum. simpl. now rewrite Z.add_0_r.
  - cbn [foldl]. unfold int_add at 2. rewrite wrap_add_l, IH.
    unfold Zsum. cbn [foldr]. f_equal. lia.
Qed.

Lemma accumulate_Zsum l : accumulate l 0 = wrap (Zsum l).
Proof. change 0 with (wrap 0) at 1. now rewrite accumulate_wrap. Qed.

Lemma Zsum_const {X : Type} (c : Z) (l : list X) :
  Zsum ((fun _ => c) <$> l) = Z.of_nat (length l) * c.
Proof.
  induction l as [|x l IH]; [reflexivity|].
  rewrite fmap_cons. unfold Zsum in *. cbn [foldr length]. rewrite IH. lia.
Qed.

(** As long as the number of elements fits 32 bits, the checksum of a
    valid kernel is the sum, in the scalar type, of the first
    min (10000, N*N) elements of the accumulator in row-major order. *)
Lemma runSingle_checksum_small X A B N C t TRIALS :
  X ∈ labels -> square N C -> Z.of_nat (N * N) < 2 ^ 32 ->
  (runSingle TRIALS (multiply (letters_of X)) A B C N t).1.1.2
  = wrap (Zsum (take (Nat.min (Z.to_nat CHECKSUM_MAX) (N * N))
                     (data (runSingle TRIALS (multiply (letters_of X)) A B C N t).1.2))).
Proof.
  intros HX HC Hfit. rewrite (runSingle_kernel X) by assumption. cbn [fst snd].
  rewrite accumulate_Zsum. do 3 f_equal.
  unfold to_uint32. rewrite Z.mod_small by lia. unfold CHECKSUM_MAX. lia.
Qed.

(** A matrix of ones. *)
Lemma elem_ones N r c :
  (r < N)%nat -> (c < N)%nat ->
  elem (mkMatrix N N (replicate (N * N) 1)) r c = 1.
Proof.
  intros Hr Hc. unfold elem, offset. cbn [data extent1].
  rewrite lookup_replicate_2; [reflexivity|].
  assert ((r + 1) * N <= N * N)%nat by (apply Nat.mul_le_mono_r; lia). lia.
Qed.

Lemma dot_ones N r c :
  (r < N)%nat -> (c < N)%nat ->
  dot (mkMatrix N N (replicate (N * N) 1)) (mkMatrix N N (replicate (N * N) 1)) N r c
  = wrap (Z.of_nat N).
Proof.
  intros Hr Hc. rewrite dot_exact. f_equal. unfold exact_dot.
  rewrite (Zsum_ext _ (fun _ => 1)).
  - rewrite Zsum_const, length_seq. lia.
  - intros d Hd. apply elem_of_seq in Hd. rewrite !elem_ones by lia. reflexivity.
Qed.

(** The first cells of the product of two matrices of ones. *)
Lemma take_product_ones N n :
  (n <= N)%nat ->
  take n (data (standard_product (mkMatrix N N (replicate (N * N) 1))
                                 (mkMatrix N N (replicate (N * N) 1)) N))
  = (fun _ => wrap (Z.of_nat N)) <$> seq 0 n.
Proof.
  intros Hn. unfold standard_product. cbn [data].
  rewrite <- fmap_take, take_seq.
  assert (Hmin : Nat.min n (N * N) = n).
  { destruct N as [|N']; [lia|].
    assert (1 * S N' <= S N' * S N')%nat by (apply Nat.mul_le_mono_r; lia). lia. }
  rewrite Hmin. apply list_fmap_ext. intros i p Hp.
  apply lookup_seq in Hp as [-> Hi]. cbn [Nat.add].
  rewrite Nat.div_small, Nat.mod_small by lia. apply dot_ones; lia.
Qed.

(** At size 65536 the number of elements is 2^32, which the 32-bit
    [elements] holds as 0: the checksum is the empty sum, although the
    first 10000 elements of the accumulator add up to 655360000. *)
Lemma checksum_truncated N t :
  Z.of_nat N = 65536 ->
  let ones := mkMatrix N N (replicate (N * N) 1) in
  let run := runSingle 1 (multiply (letters_of "ijk")) ones ones (new_matrix N N) N t in
  run.1.1.2 = 0
  /\ accumulate (take (Nat.min (Z.to_nat CHECKSUM_MAX) (N * N)) (data run.1.2)) 0
     = 655360000.
Proof.
  intros HN ones run. subst run.
  rewrite (runSingle_kernel "ijk")
    by first [apply square_new_matrix | apply elem_of_labels; tauto].
  cbn [fst snd]. split.
  - assert (Hz : to_uint32 (Z.of_nat (N * N)) = 0)
      by (rewrite Nat2Z.inj_mul, HN; reflexivity).
    rewrite Hz. reflexivity.
  - assert (Hmin : Nat.min (Z.to_nat CHECKSUM_MAX) (N * N) = Z.to_nat CHECKSUM_MAX).
    { apply Nat.min_l. unfold CHECKSUM_MAX. nia. }
    rewrite Hmin. subst ones. rewrite take_product_ones by (unfold CHECKSUM_MAX; lia).
    rewrite accumulate_Zsum, Zsum_const, length_seq, HN.
    rewrite Z2Nat.id by (unfold CHECKSUM_MAX; lia). reflexivity.
Qed.

(** C3 at a size where it breaks. At size 65536, with one trial of the
    ijk kernel on two matrices of ones, the checksum returned is 0, while
    the first min (10000, N*N) elements of the accumulator left by the
    trial add up to 655360000: the element count 2^32 does not fit the
    32-bit variable it is stored in before the minimum is taken. *)
Theorem checksum_wraps_at_65536 :
  let N := Z.to_nat 65536 in
  let ones := mkMatrix N N (replicate (N * N) 1) in
  let run := runSingle 1 (multiply (letters_of "ijk")) ones ones (new_matrix N N) N
               (mkTimer (fun _ => 0) 0) in
  run.1.1.2 = 0
  /\ accumulate (take (Nat.min (Z.to_nat CHECKSUM_MAX) (N * N)) (data run.1.2)) 0
     = 655360000.
Proof. apply checksum_truncated. apply Z2Nat.id. lia. Qed.

(** ** Rounding *)

Lemma bpow_pos e : (0 < bpow e)%R.
Proof. unfold bpow. apply powerRZ_lt. lra. Qed.

Lemma bpow_add a b : bpow (a + b) = (bpow a * bpow b)%R.
Proof. unfold bpow. apply powerRZ_add. lra. Qed.

Lemma bpow_0 : bpow 0 = 1%R.
Proof. reflexivity. Qed.

Lemma bpow_1 : bpow 1 = 2%R.
Proof. unfold bpow. simpl. lra. Qed.

Lemma bpow_m1 : bpow (-1) = (/ 2)%R.
Proof. unfold bpow. simpl. f_equal. lra. Qed.

Lemma bpow_opp e : bpow (- e) = (/ bpow e)%R.
Proof.
  apply Rmult_eq_reg_l with (bpow e); [|pose proof (bpow_pos e); lra].
  rewrite <- bpow_add, Z.add_opp_diag_r, bpow_0.
  field. pose proof (bpow_pos e); lra.
Qed.

Lemma bpow_IZR k : 0 <= k -> bpow k = IZR (2 ^ k).
Proof.
  intros Hk. unfold bpow. rewrite <- (Z2Nat.id k Hk) at 1 2.
  rewrite <- pow_powerRZ, pow_IZR. reflexivity.
Qed.

(** *** Digits *)
Lemma digits2_pos_bounds p :
  2 ^ (Zpos (digits2_pos p) - 1) <= Zpos p < 2 ^ Zpos (digits2_pos p).
Proof.
  induction p as [p IH|p IH|]; cbn [digits2_pos].
  - rewrite Pos2Z.inj_succ. change (Zpos p~1) with (2 * Zpos p + 1).
    replace (Z.succ (Zpos (digits2_pos p)) - 1) with (Z.succ (Zpos (digits2_pos p) - 1)) by lia.
    rewrite !Z.pow_succ_r by lia.
    set (a := 2 ^ (Zpos (digits2_pos p) - 1)) in *.
    set (b := 2 ^ Zpos (digits2_pos p)) in *. clearbody a b. lia.
  - rewrite Pos2Z.inj_succ. change (Zpos p~0) with (2 * Zpos p).
    replace (Z.succ (Zpos (digits2_pos p)) - 1) with (Z.succ (Zpos (digits2_pos p) - 1)) by lia.
    rewrite !Z.pow_succ_r by lia.
    set (a := 2 ^ (Zpos (digits2_pos p) - 1)) in *.
    set (b := 2 ^ Zpos (digits2_pos p)) in *. clearbody a b. lia.
  - simpl. lia.
Qed.

Lemma Zdigits2_bounds m :
  0 < m -> 2 ^ (Zdigits2 m - 1) <= m < 2 ^ Zdigits2 m.
Proof. destruct m as [|p|p]; try lia. intros _. apply digits2_pos_bounds. Qed.

Lemma Zdigits2_pos m : 0 < m -> 0 < Zdigits2 m.
Proof. destruct m; simpl; lia. Qed.

Lemma Zdigits2_unique m d :
  0 < m -> 2 ^ (d - 1) <= m < 2 ^ d -> Zdigits2 m = d.
Proof.
  intros Hm [Hlo Hhi]. pose proof (Zdigits2_bounds m Hm) as [Hlo' Hhi'].
  pose proof (Zdigits2_pos m Hm).
  assert (0 < d).
  { destruct d as [|q|q]; [simpl in Hhi; lia|lia|].
    rewrite Z.pow_neg_r in Hhi by lia. lia. }
  destruct (Z_lt_le_dec (Zdigits2 m) d).
  - assert (2 ^ Zdigits2 m <= 2 ^ (d - 1)) by (apply Z.pow_le_mono_r; lia). lia.
  - destruct (Z_lt_le_dec d (Zdigits2 m)); [|lia].
    assert (2 ^ d <= 2 ^ (Zdigits2 m - 1)) by (apply Z.pow_le_mono_r; lia). lia.
Qed.

(** *** Shifting right *)

Lemma IZR_xO p : IZR (Zpos p~0) = (2 * IZR (Zpos p))%R.
Proof. change (Zpos p~0) with (2 * Zpos p). now rewrite mult_IZR. Qed.

Lemma IZR_xI p : IZR (Zpos p~1) = (2 * IZR (Zpos p) + 1)%R.
Proof. change (Zpos p~1) with (2 * Zpos p + 1). now rewrite plus_IZR, mult_IZR. Qed.

Lemma shr_1_spec mrs y :
  0 < shr_m mrs ->
  inbetween (shr_m mrs) (loc_of_shr_record mrs) y ->
  inbetween (shr_m (shr_1 mrs)) (loc_of_shr_record (shr_1 mrs)) (y / 2)
  /\ Zdigits2 (shr_m (shr_1 mrs)) = Zdigits2 (shr_m mrs) - 1.
Proof.
  destruct mrs as [m r s]. cbn [shr_m]. intros Hm Hin.
  destruct m as [|p|p]; try lia. clear Hm.
  destruct p as [p|p|]; cbn [shr_1 shr_m Zdigits2 digits2_pos].
  - split; [|lia].
    destruct r, s; cbn [orb loc_of_shr_record inbetween] in *;
      rewrite IZR_xI in Hin; lra.
  - split; [|lia].
    destruct r, s; cbn [orb loc_of_shr_record inbetween] in *;
      rewrite IZR_xO in Hin; lra.
  - split; [|lia].
    destruct r, s; cbn [orb loc_of_shr_record inbetween] in *; lra.
Qed.

Lemma Zdigits2_pos_inv m : 0 <= m -> 0 < Zdigits2 m -> 0 < m.
Proof. destruct m; simpl; lia. Qed.

Lemma shr_1_nonneg mrs : 0 <= shr_m mrs -> 0 <= shr_m (shr_1 mrs).
Proof.
  destruct mrs as [m r s]. cbn [shr_m]. intros Hm.
  destruct m as [|p|p]; try lia; [reflexivity|]. destruct p; simpl; lia.
Qed.

Lemma iter_shr_1_spec p : forall mrs y,
  0 < shr_m mrs -> Zpos p < Zdigits2 (shr_m mrs) ->
  inbetween (shr_m mrs) (loc_of_shr_record mrs) y ->
  inbetween (shr_m (SpecFloat.iter_pos shr_1 p mrs)) (loc_of_shr_record (SpecFloat.iter_pos shr_1 p mrs))
            (y * bpow (- Zpos p))
  /\ Zdigits2 (shr_m (SpecFloat.iter_pos shr_1 p mrs)) = Zdigits2 (shr_m mrs) - Zpos p
  /\ 0 < shr_m (SpecFloat.iter_pos shr_1 p mrs).
Proof.
  assert (Hstep : forall mrs y,
    0 < shr_m mrs -> 1 < Zdigits2 (shr_m mrs) ->
    inbetween (shr_m mrs) (loc_of_shr_record mrs) y ->
    inbetween (shr_m (shr_1 mrs)) (loc_of_shr_record (shr_1 mrs)) (y * bpow (- 1))
    /\ Zdigits2 (shr_m (shr_1 mrs)) = Zdigits2 (shr_m mrs) - 1
    /\ 0 < shr_m (shr_1 mrs)).
  { intros mrs y Hm Hd Hin. destruct (shr_1_spec mrs y Hm Hin) as [Hin' Hd'].
    rewrite bpow_m1. split; [exact Hin'|]. split; [exact Hd'|].
    apply Zdigits2_pos_inv; [apply shr_1_nonneg; lia|lia]. }
  induction p as [p IH|p IH|]; intros mrs y Hm Hd Hin; cbn [SpecFloat.iter_pos].
  - destruct (Hstep mrs y Hm ltac:(lia) Hin) as (H1 & H2 & H3).
    destruct (IH _ _ H3 ltac:(lia) H1) as (H4 & H5 & H6).
    destruct (IH _ _ H6 ltac:(lia) H4) as (H7 & H8 & H9).
    split; [|split; [lia|assumption]].
    replace (y * bpow (- Zpos p~1))%R
      with (y * bpow (-1) * bpow (- Zpos p) * bpow (- Zpos p))%R; [exact H7|].
    rewrite !Rmult_assoc, <- !bpow_add. do 2 f_equal. lia.
  - destruct (IH _ _ Hm ltac:(lia) Hin) as (H4 & H5 & H6).
    destruct (IH _ _ H6 ltac:(lia) H4) as (H7 & H8 & H9).
    split; [|split; [lia|assumption]].
    replace (y * bpow (- Zpos p~0))%R
      with (y * bpow (- Zpos p) * bpow (- Zpos p))%R; [exact H7|].
    rewrite !Rmult_assoc, <- !bpow_add. do 2 f_equal. lia.
  - apply Hstep; assumption.
Qed.

(** *** Rounding to nearest, ties to even *)
Lemma round_nearest_even_spec m l y :
  inbetween m l y ->
  m <= round_nearest_even m l <= m + 1
  /\ (Rabs (IZR (round_nearest_even m l) - y) <= / 2)%R.
Proof.
  intros Hin. destruct l as [|[| |]]; cbn [round_nearest_even inbetween] in *.
  - split; [lia|]. subst y. rewrite Rminus_diag, Rabs_R0. lra.
  - destruct (Z.even m); (split; [lia|]); rewrite ?plus_IZR; subst y.
    + replace (IZR m - (IZR m + / 2))%R with (- / 2)%R by lra.
      rewrite Rabs_Ropp, Rabs_pos_eq; lra.
    + replace (IZR m + 1 - (IZR m + / 2))%R with (/ 2)%R by lra.
      rewrite Rabs_pos_eq; lra.
  - split; [lia|]. apply Rabs_le. lra.
  - split; [lia|]. rewrite plus_IZR. apply Rabs_le. lra.
Qed.

Lemma loc_of_shr_record_of_loc m l :
  loc_of_shr_record (shr_record_of_loc m l) = l
  /\ shr_m (shr_record_of_loc m l) = m.
Proof. destruct l as [|[| |]]; split; reflexivity. Qed.

Lemma inbetween_bounds m l y : inbetween m l y -> (IZR m <= y < IZR m + 1)%R.
Proof. destruct l as [|[| |]]; cbn [inbetween]; lra. Qed.

Lemma shr_spec mrs e n y :
  0 <= n < Zdigits2 (shr_m mrs) -> 0 < shr_m mrs ->
  inbetween (shr_m mrs) (loc_of_shr_record mrs) y ->
  (shr mrs e n).2 = e + n
  /\ inbetween (shr_m (shr mrs e n).1) (loc_of_shr_record (shr mrs e n).1)
               (y * bpow (- n))
  /\ Zdigits2 (shr_m (shr mrs e n).1) = Zdigits2 (shr_m mrs) - n
  /\ 0 < shr_m (shr mrs e n).1.
Proof.
  intros Hn Hm Hin. unfold shr. destruct n as [|p|p]; try lia; cbn [fst snd].
  - change (- 0) with 0. rewrite bpow_0, Rmult_1_r, Z.add_0_r, Z.sub_0_r. auto.
  - split; [reflexivity|]. apply iter_shr_1_spec; [assumption|lia|assumption].
Qed.

Lemma shr_1_even k :
  0 < k -> shr_1 (Build_shr_record (2 * k) false false) = Build_shr_record k false false.
Proof. destruct k; try lia. reflexivity. Qed.

Section Rounding.
Variables prec emax : Z.
Hypothesis Hprec : 1 < prec.

(** Rounding a positive value that lies in the normal range. *)
Lemma binary_round_aux_spec sx mx ex lx x :
  0 < mx ->
  inbetween mx lx (x * bpow (- ex)) ->
  prec <= Zdigits2 mx ->
  emin prec emax <= Zdigits2 mx + ex - prec ->
  Zdigits2 mx + ex < emax ->
  exists m e,
    binary_round_aux prec emax sx mx ex lx = S754_finite sx m e
    /\ Zpos (digits2_pos m) = prec
    /\ Zdigits2 mx + ex <= prec + e <= Zdigits2 mx + ex + 1
    /\ (Rabs (F2R (Zpos m) e - x) <= bpow (- prec) * x)%R.
Proof.
  intros Hmx Hin Hd Hmin Hmax.
  unfold binary_round_aux, shr_fexp.
  set (d := Zdigits2 mx) in *.
  assert (Hfexp : fexp prec emax (d + ex) = d + ex - prec) by (unfold fexp; lia).
  rewrite Hfexp.
  destruct (loc_of_shr_record_of_loc mx lx) as [Hloc Hm0].
  destruct (shr_spec (shr_record_of_loc mx lx) ex (d + ex - prec - ex) (x * bpow (- ex)))
    as (He1 & Hin1 & Hd1 & Hm1).
  { rewrite Hm0. fold d. lia. }
  { now rewrite Hm0. }
  { now rewrite Hloc, Hm0. }
  destruct (shr (shr_record_of_loc mx lx) ex (d + ex - prec - ex)) as [mrs1 e1].
  cbn [fst snd] in *. rewrite Hm0 in Hd1. fold d in Hd1.
  assert (He1' : e1 = d + ex - prec) by lia. clear He1.
  assert (Hy1 : (x * bpow (- ex) * bpow (- (d + ex - prec - ex)) = x * bpow (- e1))%R).
  { rewrite Rmult_assoc, <- bpow_add. do 2 f_equal. lia. }
  rewrite Hy1 in Hin1. clear Hy1.
  set (m1 := shr_m mrs1) in *. set (l1 := loc_of_shr_record mrs1) in *.
  assert (Hd1' : Zdigits2 m1 = prec) by lia.
  pose proof (Zdigits2_bounds m1 Hm1) as Hb1. rewrite Hd1' in Hb1.
  destruct (round_nearest_even_spec m1 l1 _ Hin1) as [Hm2 Herr].
  set (m2 := round_nearest_even m1 l1) in *.
  pose proof (inbetween_bounds _ _ _ Hin1) as Hy.
  assert (Hpow : 2 ^ prec = 2 * 2 ^ (prec - 1)).
  { replace prec with (Z.succ (prec - 1)) at 1 by lia. apply Z.pow_succ_r. lia. }
  assert (Hpp : 0 < 2 ^ (prec - 1)) by (apply Z.pow_pos_nonneg; lia).
  assert (Hx : (IZR (2 ^ (prec - 1)) * bpow e1 <= x)%R).
  { assert (IZR (2 ^ (prec - 1)) <= x * bpow (- e1))%R
      by (apply Rle_trans with (IZR m1); [apply IZR_le; lia|lra]).
    assert (Hxe : x = (x * bpow (- e1) * bpow e1)%R)
      by (rewrite Rmult_assoc, <- bpow_add, Z.add_opp_diag_l, bpow_0; lra).
    rewrite Hxe.
    apply Rmult_le_compat_r; [pose proof (bpow_pos e1); lra|assumption]. }
  assert (Hbound : (Rabs (F2R m2 e1 - x) <= bpow (- prec) * x)%R).
  { unfold F2R.
    replace (IZR m2 * bpow e1 - x)%R with ((IZR m2 - x * bpow (- e1)) * bpow e1)%R.
    - rewrite Rabs_mult, (Rabs_pos_eq (bpow e1)) by (pose proof (bpow_pos e1); lra).
      apply Rle_trans with (/ 2 * bpow e1)%R.
      + apply Rmult_le_compat_r; [pose proof (bpow_pos e1); lra|assumption].
      + apply Rle_trans with (bpow (- prec) * (IZR (2 ^ (prec - 1)) * bpow e1))%R.
        * rewrite <- (bpow_IZR (prec - 1)) by lia.
          rewrite <- Rmult_assoc, <- bpow_add.
          replace (- prec + (prec - 1)) with (- 1) by lia. rewrite bpow_m1. lra.
        * apply Rmult_le_compat_l; [pose proof (bpow_pos (- prec)); lra|assumption].
    - rewrite Rmult_minus_distr_r, Rmult_assoc, <- bpow_add, Z.add_opp_diag_l, bpow_0.
      lra. }
  destruct (Z_lt_le_dec m2 (2 ^ prec)) as [Hlt|Hge].
  - (* no carry *)
    assert (Hd2 : Zdigits2 m2 = prec) by (apply Zdigits2_unique; lia).
    rewrite Hd2.
    assert (Hf2 : fexp prec emax (prec + e1) - e1 = 0) by (unfold fexp; lia).
    rewrite Hf2. cbn [shr shr_record_of_loc shr_m].
    destruct m2 as [|q|q] eqn:Eq; try lia.
    exists q, e1. rewrite (proj2 (Z.leb_le _ _)) by lia.
    split; [reflexivity|]. split; [exact Hd2|]. split; [lia|exact Hbound].
  - (* the mantissa reaches 2 ^ prec *)
    assert (Hm2' : m2 = 2 ^ prec) by lia.
    assert (Hd2 : Zdigits2 m2 = prec + 1).
    { apply Zdigits2_unique; [lia|]. rewrite Hm2'.
      replace (prec + 1 - 1) with prec by lia. split; [lia|].
      apply Z.pow_lt_mono_r; lia. }
    rewrite Hd2.
    assert (Hf2 : fexp prec emax (prec + 1 + e1) - e1 = 1) by (unfold fexp; lia).
    rewrite Hf2. cbn [shr shr_record_of_loc SpecFloat.iter_pos].
    rewrite Hm2', Hpow, shr_1_even by assumption. cbn [shr_m].
    destruct (2 ^ (prec - 1)) as [|q|q] eqn:Eq; try lia.
    exists q, (e1 + 1). rewrite (proj2 (Z.leb_le _ _)) by lia.
    split; [reflexivity|]. split.
    + change (Zdigits2 (Zpos q) = prec). apply Zdigits2_unique; lia.
    + split; [lia|].
      replace (F2R (Zpos q) (e1 + 1)) with (F2R m2 e1); [exact Hbound|].
      unfold F2R. rewrite Hm2', Hpow, mult_IZR, bpow_add, bpow_1. lra.
Qed.

End Rounding.

(** *** Aligning to the left *)
Lemma iter_xO_spec mx d :
  Zpos (Pos.iter xO mx d) = Zpos mx * 2 ^ Zpos d
  /\ Zpos (digits2_pos (Pos.iter xO mx d)) = Zpos (digits2_pos mx) + Zpos d.
Proof.
  induction d as [|d [IH1 IH2]] using Pos.peano_ind.
  - cbn [Pos.iter digits2_pos]. split; [change (2 ^ 1) with 2; lia|lia].
  - rewrite Pos.iter_succ. cbn [digits2_pos].
    change (Zpos (Pos.iter xO mx d)~0) with (2 * Zpos (Pos.iter xO mx d)).
    rewrite IH1, Pos2Z.inj_succ, Pos2Z.inj_succ, IH2, Z.pow_succ_r by lia.
    split; lia.
Qed.

Lemma shl_align_spec mx ex ex' :
  let mz := (shl_align mx ex ex').1 in
  let ez := (shl_align mx ex ex').2 in
  F2R (Zpos mz) ez = F2R (Zpos mx) ex
  /\ Zpos (digits2_pos mz) + ez = Zpos (digits2_pos mx) + ex
  /\ ez <= ex'
  /\ (ex' <= ex -> ez = ex').
Proof.
  unfold shl_align. destruct (ex' - ex) as [|d|d] eqn:E; cbn [fst snd].
  - repeat split; lia.
  - repeat split; lia.
  - destruct (iter_xO_spec mx d) as [Hm Hd]. rewrite Hd.
    split; [|repeat split; lia].
    unfold F2R. rewrite Hm, mult_IZR, <- bpow_IZR by lia.
    rewrite Rmult_assoc, <- bpow_add. do 2 f_equal. lia.
Qed.

Section Operations.
Variables prec emax : Z.
Hypothesis Hprec : 1 < prec.

Lemma binary_round_spec sx mx ex :
  emin prec emax <= Zpos (digits2_pos mx) + ex - prec ->
  Zpos (digits2_pos mx) + ex < emax ->
  exists m e,
    binary_round prec emax sx mx ex = S754_finite sx m e
    /\ Zpos (digits2_pos m) = prec
    /\ Zpos (digits2_pos mx) + ex <= prec + e <= Zpos (digits2_pos mx) + ex + 1
    /\ (Rabs (F2R (Zpos m) e - F2R (Zpos mx) ex) <= bpow (- prec) * F2R (Zpos mx) ex)%R.
Proof.
  intros Hmin Hmax. unfold binary_round.
  assert (Hfexp : fexp prec emax (Zpos (digits2_pos mx) + ex)
                  = Zpos (digits2_pos mx) + ex - prec) by (unfold fexp; lia).
  rewrite Hfexp.
  destruct (shl_align_spec mx ex (Zpos (digits2_pos mx) + ex - prec))
    as (Hval & Hmag & Hle & Heq).
  destruct (shl_align mx ex (Zpos (digits2_pos mx) + ex - prec)) as [mz ez].
  cbn [fst snd] in *.
  destruct (binary_round_aux_spec prec emax Hprec sx (Zpos mz) ez loc_Exact
              (F2R (Zpos mx) ex)) as (m & e & Hr & Hd & He & Hb).
  - lia.
  - cbn [inbetween]. rewrite <- Hval. unfold F2R.
    rewrite Rmult_assoc, <- bpow_add, Z.add_opp_diag_r, bpow_0. lra.
  - cbn [Zdigits2]. lia.
  - cbn [Zdigits2]. lia.
  - cbn [Zdigits2]. lia.
  - exists m, e. cbn [Zdigits2] in He. repeat split; try assumption; lia.
Qed.

Lemma digits2_pos_mul mx my :
  Zpos (digits2_pos mx) + Zpos (digits2_pos my) - 1
  <= Zpos (digits2_pos (mx * my))
  <= Zpos (digits2_pos mx) + Zpos (digits2_pos my).
Proof.
  pose proof (digits2_pos_bounds mx) as [Hx1 Hx2].
  pose proof (digits2_pos_bounds my) as [Hy1 Hy2].
  pose proof (digits2_pos_bounds (mx * my)) as [Hz1 Hz2].
  set (dx := Zpos (digits2_pos mx)) in *. set (dy := Zpos (digits2_pos my)) in *.
  set (dz := Zpos (digits2_pos (mx * my))) in *.
  assert (0 < dx /\ 0 < dy /\ 0 < dz) as (Hdx & Hdy & Hdz) by (subst dx dy dz; lia).
  rewrite Pos2Z.inj_mul in *.
  assert (Hlo : 2 ^ (dx - 1 + (dy - 1)) <= Zpos mx * Zpos my).
  { rewrite Z.pow_add_r by lia. apply Z.mul_le_mono_nonneg; try assumption;
      apply Z.pow_nonneg; lia. }
  assert (Hhi : Zpos mx * Zpos my < 2 ^ (dx + dy)).
  { rewrite Z.pow_add_r by lia. apply Z.mul_lt_mono_nonneg; lia. }
  split.
  - destruct (Z_lt_le_dec dz (dx + dy - 1)); [|lia].
    assert (2 ^ dz <= 2 ^ (dx - 1 + (dy - 1))) by (apply Z.pow_le_mono_r; lia). lia.
  - destruct (Z_lt_le_dec (dx + dy) dz); [|lia].
    assert (2 ^ (dx + dy) <= 2 ^ (dz - 1)) by (apply Z.pow_le_mono_r; lia). lia.
Qed.

Lemma SFmul_spec sx mx ex sy my ey :
  Zpos (digits2_pos mx) = prec -> Zpos (digits2_pos my) = prec ->
  emin prec emax <= prec - 1 + ex + ey ->
  2 * prec + ex + ey < emax ->
  exists m e,
    SFmul prec emax (S754_finite sx mx ex) (S754_finite sy my ey)
    = S754_finite (xorb sx sy) m e
    /\ Zpos (digits2_pos m) = prec
    /\ 2 * prec - 1 + ex + ey <= prec + e <= 2 * prec + ex + ey + 1
    /\ (Rabs (F2R (Zpos m) e - F2R (Zpos mx) ex * F2R (Zpos my) ey)
        <= bpow (- prec) * (F2R (Zpos mx) ex * F2R (Zpos my) ey))%R.
Proof.
  intros Hdx Hdy Hmin Hmax. cbn [SFmul].
  pose proof (digits2_pos_mul mx my) as Hd. rewrite Hdx, Hdy in Hd.
  destruct (binary_round_aux_spec prec emax Hprec (xorb sx sy) (Zpos (mx * my))
              (ex + ey) loc_Exact (F2R (Zpos mx) ex * F2R (Zpos my) ey))
    as (m & e & Hr & Hdm & He & Hb); cbn [Zdigits2]; try lia.
  - cbn [inbetween]. unfold F2R. rewrite Pos2Z.inj_mul, mult_IZR.
    replace (IZR (Zpos mx) * bpow ex * (IZR (Zpos my) * bpow ey) * bpow (- (ex + ey)))%R
      with (IZR (Zpos mx) * IZR (Zpos my) * (bpow ex * bpow ey * bpow (- (ex + ey))))%R
      by ring.
    rewrite <- !bpow_add. replace (ex + ey + - (ex + ey)) with 0 by lia.
    rewrite bpow_0. ring.
  - exists m, e. cbn [Zdigits2] in He. repeat split; try assumption; lia.
Qed.

End Operations.

(** *** Division *)
Lemma new_location_spec my r q :
  0 < my -> 0 <= r < my ->
  inbetween q (new_location my r) (IZR q + IZR r / IZR my).
Proof.
  intros Hmy Hr.
  assert (HRmy : (0 < IZR my)%R) by (apply IZR_lt; lia).
  assert (Hhalf : forall k : Z, (IZR r / IZR my < / 2)%R <-> 2 * r < my).
  { intros _. split; intros Hlt.
    - apply lt_IZR. rewrite mult_IZR.
      apply Rmult_lt_compat_r with (r := IZR my) in Hlt; [|assumption].
      unfold Rdiv in Hlt. rewrite Rmult_assoc, Rinv_l in Hlt by lra. lra.
    - apply IZR_lt in Hlt. rewrite mult_IZR in Hlt.
      apply Rmult_lt_reg_r with (IZR my); [assumption|].
      unfold Rdiv. rewrite Rmult_assoc, Rinv_l by lra. lra. }
  assert (Hlt_half : 2 * r < my -> (IZR r / IZR my < / 2)%R) by (apply (Hhalf 0)).
  assert (Hgt_half : my < 2 * r -> (/ 2 < IZR r / IZR my)%R).
  { intros Hgt. apply IZR_lt in Hgt. rewrite mult_IZR in Hgt.
    apply Rmult_lt_reg_r with (IZR my); [assumption|].
    unfold Rdiv. rewrite Rmult_assoc, Rinv_l by lra. lra. }
  assert (Heq_half : my = 2 * r -> (IZR r / IZR my = / 2)%R).
  { intros ->. rewrite mult_IZR. field. rewrite mult_IZR in HRmy. lra. }
  assert (Hpos : 0 < r -> (0 < IZR r / IZR my)%R).
  { intros H0. apply Rdiv_lt_0_compat; [apply IZR_lt; lia|assumption]. }
  assert (Hlt1 : (IZR r / IZR my < 1)%R).
  { apply Rmult_lt_reg_r with (IZR my); [assumption|].
    unfold Rdiv. rewrite Rmult_assoc, Rinv_l by lra.
    assert (IZR r < IZR my)%R by (apply IZR_lt; lia). lra. }
  unfold new_location. destruct (Z.even my) eqn:Ev.
  - unfold new_location_even. destruct (Z.eqb_spec r 0) as [->|Hne].
    + cbn [inbetween]. unfold Rdiv. rewrite Rmult_0_l. lra.
    + destruct (Z.compare_spec (2 * r) my) as [Heq|Hlt|Hgt]; cbn [inbetween].
      * rewrite Heq_half by lia. reflexivity.
      * specialize (Hlt_half Hlt). specialize (Hpos ltac:(lia)). lra.
      * specialize (Hgt_half Hgt). lra.
  - unfold new_location_odd. destruct (Z.eqb_spec r 0) as [->|Hne].
    + cbn [inbetween]. unfold Rdiv. rewrite Rmult_0_l. lra.
    + assert (Hodd : Z.odd my = true) by (rewrite <- Z.negb_even, Ev; reflexivity).
      apply Z.odd_spec in Hodd as [k Hk].
      destruct (Z.compare_spec (2 * r + 1) my) as [Heq|Hlt|Hgt]; cbn [inbetween].
      * specialize (Hlt_half ltac:(lia)). specialize (Hpos ltac:(lia)). lra.
      * specialize (Hlt_half ltac:(lia)). specialize (Hpos ltac:(lia)). lra.
      * specialize (Hgt_half ltac:(lia)). lra.
Qed.

Section Division.
Variables prec emax : Z.
Hypothesis Hprec : 1 < prec.

Lemma SFdiv_spec sx mx ex sy my ey :
  Zpos (digits2_pos mx) = prec -> Zpos (digits2_pos my) = prec ->
  emin prec emax <= ex - ey - prec ->
  ex - ey + 1 < emax ->
  exists m e,
    SFdiv prec emax (S754_finite sx mx ex) (S754_finite sy my ey)
    = S754_finite (xorb sx sy) m e
    /\ Zpos (digits2_pos m) = prec
    /\ ex - ey <= prec + e <= ex - ey + 2
    /\ (Rabs (F2R (Zpos m) e - F2R (Zpos mx) ex / F2R (Zpos my) ey)
        <= bpow (- prec) * (F2R (Zpos mx) ex / F2R (Zpos my) ey))%R.
Proof.
  intros Hdx Hdy Hmin Hmax. cbn [SFdiv]. unfold SFdiv_core_binary.
  cbn [Zdigits2]. rewrite Hdx, Hdy.
  assert (He' : Z.min (fexp prec emax (prec + ex - (prec + ey))) (ex - ey)
                = ex - ey - prec) by (unfold fexp; lia).
  rewrite He'.
  replace (ex - ey - (ex - ey - prec)) with prec by lia.
  assert (Hshift : match prec with
                   | Zpos _ => Z.shiftl (Zpos mx) prec
                   | Z0 => Zpos mx
                   | Zneg _ => 0
                   end = Zpos mx * 2 ^ prec)
    by (destruct prec; try lia; apply Z.shiftl_mul_pow2; lia).
  rewrite Hshift.
  pose proof (Z_div_mod (Zpos mx * 2 ^ prec) (Zpos my) ltac:(lia)) as Hdiv.
  destruct (Z.div_eucl (Zpos mx * 2 ^ prec) (Zpos my)) as [q r].
  destruct Hdiv as [Hqr Hr].
  pose proof (digits2_pos_bounds mx) as [Hx1 Hx2]. rewrite Hdx in Hx1, Hx2.
  pose proof (digits2_pos_bounds my) as [Hy1 Hy2]. rewrite Hdy in Hy1, Hy2.
  assert (Hpow : 2 ^ prec = 2 * 2 ^ (prec - 1)).
  { replace prec with (Z.succ (prec - 1)) at 1 by lia. apply Z.pow_succ_r. lia. }
  assert (Hpp : 0 < 2 ^ (prec - 1)) by (apply Z.pow_pos_nonneg; lia).
  set (P := 2 ^ (prec - 1)) in *.
  (* bounds on the quotient *)
  assert (Hq1 : P <= q) by nia.
  assert (Hq2 : q < 2 * (2 * P)) by nia.
  assert (Hdq : prec <= Zdigits2 q <= prec + 1).
  { destruct (Z_lt_le_dec q (2 * P)).
    - rewrite (Zdigits2_unique q prec); [lia|lia|]. rewrite Hpow. fold P. lia.
    - rewrite (Zdigits2_unique q (prec + 1)); [lia|lia|].
      replace (prec + 1 - 1) with prec by lia.
      rewrite Z.pow_add_r, Hpow by lia. fold P. change (2 ^ 1) with 2. lia. }
  assert (HRmy : (0 < IZR (Zpos my))%R) by (apply IZR_lt; lia).
  destruct (binary_round_aux_spec prec emax Hprec (xorb sx sy) q (ex - ey - prec)
              (new_location (Zpos my) r) (F2R (Zpos mx) ex / F2R (Zpos my) ey))
    as (m & e & Hres & Hdm & He & Hb); try lia.
  - replace (F2R (Zpos mx) ex / F2R (Zpos my) ey * bpow (- (ex - ey - prec)))%R
      with (IZR q + IZR r / IZR (Zpos my))%R; [apply new_location_spec; lia|].
    unfold F2R.
    replace (- (ex - ey - prec)) with (- ex + (ey + prec)) by lia.
    rewrite !bpow_add, (bpow_opp ex), (bpow_IZR prec) by lia.
    assert (HZ : (IZR (Zpos mx) * IZR (2 ^ prec) = IZR (Zpos my) * IZR q + IZR r)%R)
      by (rewrite <- mult_IZR, <- mult_IZR, <- plus_IZR; f_equal; exact Hqr).
    pose proof (bpow_pos ex). pose proof (bpow_pos ey).
    transitivity (IZR (Zpos mx) * IZR (2 ^ prec) / IZR (Zpos my))%R.
    + rewrite HZ. field. lra.
    + field. repeat split; lra.
  - exists m, e. repeat split; try assumption; lia.
Qed.

End Division.

(** *** Relative error *)
Lemma Rabs_le_inv x a : (Rabs x <= a)%R -> (- a <= x <= a)%R.
Proof.
  intros H. unfold Rabs in H. destruct (Rcase_abs x); lra.
Qed.

Lemma close_trans e1 e2 x0 x1 x2 :
  (0 <= x0)%R -> (0 <= e1)%R -> (0 <= e2)%R ->
  close e1 x1 x0 -> close e2 x2 x1 -> close (e1 + e2 + e1 * e2) x2 x0.
Proof.
  unfold close. intros H0 He1 He2 H1 H2.
  apply Rabs_le. apply Rabs_le_inv in H1, H2.
  assert (0 <= e1 * x0)%R by nra. assert (0 <= e2 * x0)%R by nra.
  assert (0 <= e1 * e2 * x0)%R by (apply Rmult_le_pos; nra).
  assert (e2 * x1 <= e2 * (x0 + e1 * x0))%R by (apply Rmult_le_compat_l; lra).
  nra.
Qed.

Lemma close_weaken e e' x' x : (0 <= x)%R -> (e <= e')%R -> close e x' x -> close e' x' x.
Proof.
  unfold close. intros Hx He H. apply Rle_trans with (e * x)%R; [assumption|].
  apply Rmult_le_compat_r; assumption.
Qed.

Lemma close_div e1 e2 a' a b' b :
  (0 <= a)%R -> (0 < b)%R -> (0 <= e1)%R -> (0 <= e2 <= / 2)%R ->
  close e1 a' a -> close e2 b' b ->
  close (e1 + 2 * e2 + 2 * e1 * e2) (a' / b') (a / b).
Proof.
  unfold close. intros Ha Hb He1 He2 H1 H2.
  apply Rabs_le_inv in H1, H2.
  assert (Hb' : (b * / 2 <= b')%R) by nra.
  assert (Hb'pos : (0 < b')%R) by nra.
  assert (Hab : (0 <= a / b)%R) by (apply Rmult_le_pos; [lra|left; now apply Rinv_0_lt_compat]).
  assert (Heq : (a' / b' - a / b = ((a' - a) * b - a * (b' - b)) / (b' * b))%R)
    by (field; lra).
  rewrite Heq. clear Heq.
  assert (Hden : (0 < b' * b)%R) by nra.
  unfold Rdiv at 1. rewrite Rabs_mult, (Rabs_pos_eq (/ (b' * b)))
    by (left; now apply Rinv_0_lt_compat).
  apply Rmult_le_reg_r with (b' * b)%R; [assumption|].
  rewrite Rmult_assoc, Rinv_l, Rmult_1_r by lra.
  replace ((e1 + 2 * e2 + 2 * e1 * e2) * (a / b) * (b' * b))%R
    with ((e1 + 2 * e2 + 2 * e1 * e2) * a * b')%R by (field; lra).
  apply Rabs_le.
  assert (0 <= e1 * a)%R by nra. assert (0 <= e2 * b)%R by nra.
  assert (0 <= e2 * a)%R by nra. assert (0 <= a * b)%R by nra.
  assert (0 <= e1 * a * b)%R by nra. assert (0 <= e2 * a * b)%R by nra.
  assert (0 <= e1 * e2 * a * b)%R by (repeat apply Rmult_le_pos; lra).
  assert (Hk : ((e1 + 2 * e2 + 2 * e1 * e2) * a * b' >= (e1 + 2 * e2 + 2 * e1 * e2) * a * (b - e2 * b))%R).
  { apply Rle_ge. apply Rmult_le_compat_l; [|lra].
    apply Rmult_le_pos; [|lra]. nra. }
  assert (Hk2 : ((e1 + 2 * e2 + 2 * e1 * e2) * a * (b - e2 * b)
                 >= e1 * a * b + e2 * a * b)%R).
  { assert (0 <= e2 * e2 * a * b)%R by (repeat apply Rmult_le_pos; lra).
    assert (0 <= e1 * e2 * e2 * a * b)%R by (repeat apply Rmult_le_pos; lra).
    assert (e2 * e2 * a * b <= / 2 * (e2 * a * b))%R by nra.
    assert (e1 * e2 * e2 * a * b <= / 2 * (e1 * e2 * a * b))%R by nra.
    nra. }
  assert (Hnum1 : (- (e1 * a) * b <= (a' - a) * b <= e1 * a * b)%R) by nra.
  assert (Hnum2 : (- (e2 * b) * a <= a * (b' - b) <= e2 * b * a)%R) by nra.
  split; nra.
Qed.

(** *** The average *)

Lemma double_of_Z_spec z :
  0 < z < 2 ^ 64 ->
  exists m e,
    double_of_Z z = S754_finite false m e
    /\ Zpos (digits2_pos m) = 53
    /\ 1 <= 53 + e <= 65
    /\ close (bpow (- 53)) (F2R (Zpos m) e) (IZR z).
Proof.
  intros Hz. destruct z as [|p|p]; try lia. unfold double_of_Z, binary_normalize.
  pose proof (digits2_pos_bounds p) as [Hlo Hhi].
  assert (Hd : Zpos (digits2_pos p) <= 64).
  { destruct (Z_lt_le_dec 64 (Zpos (digits2_pos p))); [|lia].
    assert (2 ^ 64 <= 2 ^ (Zpos (digits2_pos p) - 1)) by (apply Z.pow_le_mono_r; lia).
    lia. }
  destruct (binary_round_spec 53 1024 ltac:(lia) false p 0) as (m & e & Hr & Hdm & He & Hb).
  - unfold emin. lia.
  - lia.
  - exists m, e. repeat split; try assumption; try lia.
    unfold close. unfold F2R at 2 3 in Hb. rewrite bpow_0, Rmult_1_r in Hb. exact Hb.
Qed.

Lemma double_of_Z_one : double_of_Z 1 = S754_finite false 4503599627370496 (- 52).
Proof. reflexivity. Qed.

Lemma F2R_one : F2R 4503599627370496 (- 52) = 1%R.
Proof.
  unfold F2R. change (bpow (- 52)) with (bpow (Z.opp 52)).
  rewrite bpow_opp, (bpow_IZR 52) by lia.
  change (2 ^ 52) with 4503599627370496. field.
Qed.

Lemma bpow_m53 : bpow (- 53) = (/ 9007199254740992)%R.
Proof.
  change (bpow (- 53)) with (bpow (Z.opp 53)).
  rewrite bpow_opp, (bpow_IZR 53) by lia. reflexivity.
Qed.

Lemma bpow_m24 : bpow (- 24) = (/ 16777216)%R.
Proof.
  change (bpow (- 24)) with (bpow (Z.opp 24)).
  rewrite bpow_opp, (bpow_IZR 24) by lia. reflexivity.
Qed.

Lemma bpow_m23 : bpow (- 23) = (/ 8388608)%R.
Proof.
  change (bpow (- 23)) with (bpow (Z.opp 23)).
  rewrite bpow_opp, (bpow_IZR 23) by lia. reflexivity.
Qed.

(** The average of a positive time sum: a positive binary32 number
    within a relative distance of 2^-23 of the quotient. *)
Lemma average_spec timeSum TRIALS :
  0 < timeSum < 2 ^ 64 -> 0 < Z.of_nat TRIALS < 2 ^ 32 ->
  exists m e,
    average timeSum TRIALS = S754_finite false m e
    /\ close (bpow (- 23)) (F2R (Zpos m) e) (IZR timeSum / IZR (Z.of_nat TRIALS)).
Proof.
  intros HS HT. unfold average.
  destruct (double_of_Z_spec timeSum HS) as (m2 & e2 & -> & Hd2 & He2 & Hc2).
  destruct (double_of_Z_spec (Z.of_nat TRIALS) ltac:(lia)) as (m4 & e4 & -> & Hd4 & He4 & Hc4).
  rewrite double_of_Z_one.
  destruct (SFmul_spec 53 1024 ltac:(lia) false 4503599627370496 (- 52) false m2 e2)
    as (m3 & e3 & Hr3 & Hd3 & He3 & Hc3); [reflexivity|assumption|unfold emin; lia|lia|].
  unfold double_mul. rewrite Hr3. cbn [xorb].
  destruct (SFdiv_spec 53 1024 ltac:(lia) false m3 e3 false m4 e4)
    as (m5 & e5 & Hr5 & Hd5 & He5 & Hc5); [assumption|assumption|unfold emin; lia|lia|].
  unfold double_div. rewrite Hr5. cbn [xorb float_of_double].
  destruct (binary_round_spec 24 128 ltac:(lia) false m5 e5)
    as (m6 & e6 & Hr6 & Hd6 & He6 & Hc6); [unfold emin; lia|lia|].
  exists m6, e6. split; [exact Hr6|].
  fold (close (bpow (- 53)) (F2R (Zpos m3) e3)
              (F2R 4503599627370496 (- 52) * F2R (Zpos m2) e2)) in Hc3.
  rewrite F2R_one, Rmult_1_l in Hc3.
  fold (close (bpow (- 53)) (F2R (Zpos m5) e5) (F2R (Zpos m3) e3 / F2R (Zpos m4) e4)) in Hc5.
  fold (close (bpow (- 24)) (F2R (Zpos m6) e6) (F2R (Zpos m5) e5)) in Hc6.
  change (Z.opp 53) with (-53) in *. change (Z.opp 24) with (-24) in *.
  rewrite bpow_m53 in *. rewrite bpow_m24 in *. rewrite bpow_m23.
  set (u := (/ 9007199254740992)%R) in *. set (v := (/ 16777216)%R) in *.
  assert (Hu : (0 <= u <= / 2)%R) by (subst u; lra).
  assert (Hv : (0 <= v)%R) by (subst v; lra).
  assert (HS' : (0 < IZR timeSum)%R) by (apply IZR_lt; lia).
  assert (HT' : (0 < IZR (Z.of_nat TRIALS))%R) by (apply IZR_lt; lia).
  assert (Hq : (0 <= IZR timeSum / IZR (Z.of_nat TRIALS))%R)
    by (apply Rmult_le_pos; [lra|left; now apply Rinv_0_lt_compat]).
  set (e3' := (u + u + u * u)%R).
  assert (Hc23 : close e3' (F2R (Zpos m3) e3) (IZR timeSum))
    by (apply (close_trans u u (IZR timeSum) (F2R (Zpos m2) e2)); (lra || assumption)).
  assert (He3' : (0 <= e3')%R) by (subst e3'; nra).
  set (e4' := (e3' + 2 * u + 2 * e3' * u)%R).
  assert (Hq34 : close e4' (F2R (Zpos m3) e3 / F2R (Zpos m4) e4)
                       (IZR timeSum / IZR (Z.of_nat TRIALS)))
    by (apply close_div; (lra || assumption)).
  assert (He4' : (0 <= e4')%R) by (subst e4'; nra).
  set (e5' := (e4' + u + e4' * u)%R).
  assert (Hc15 : close e5' (F2R (Zpos m5) e5) (IZR timeSum / IZR (Z.of_nat TRIALS)))
    by (apply (close_trans e4' u _ (F2R (Zpos m3) e3 / F2R (Zpos m4) e4));
        (lra || assumption)).
  assert (He5' : (0 <= e5')%R) by (subst e5'; nra).
  assert (Hc16 : close (e5' + v + e5' * v) (F2R (Zpos m6) e6)
                       (IZR timeSum / IZR (Z.of_nat TRIALS)))
    by (apply (close_trans e5' v _ (F2R (Zpos m5) e5)); (lra || assumption)).
  eapply close_weaken; [exact Hq| |exact Hc16].
  subst e5' e4' e3' u v. lra.
Qed.

Lemma average_zero TRIALS :
  0 < Z.of_nat TRIALS < 2 ^ 32 -> average 0 TRIALS = S754_zero false.
Proof.
  intros HT. unfold average.
  destruct (double_of_Z_spec (Z.of_nat TRIALS) ltac:(lia)) as (m4 & e4 & -> & _).
  reflexivity.
Qed.

(** ** The claim on the average *)

Lemma to_uint64_range z : 0 <= to_uint64 z < 2 ^ 64.
Proof. unfold to_uint64. apply Z.mod_pos_bound. lia. Qed.

Lemma average_close timeSum TRIALS :
  0 <= timeSum < 2 ^ 64 -> 0 < Z.of_nat TRIALS < 2 ^ 32 ->
  close (bpow (- 23)) (SF2R (average timeSum TRIALS))
        (IZR timeSum / IZR (Z.of_nat TRIALS)).
Proof.
  intros HS HT. destruct (Z.eq_dec timeSum 0) as [->|Hne].
  - rewrite average_zero by assumption. unfold close. cbn [SF2R].
    unfold Rdiv. rewrite Rmult_0_l, Rminus_diag, Rabs_R0. lra.
  - destruct (average_spec timeSum TRIALS ltac:(lia) HT) as (m & e & -> & Hc).
    exact Hc.
Qed.

(** C4. For a trial count of at least 1, on any of the six kernels, the
    time sum the trial runner holds is the sum of the elapsed times of
    all its trials (kept in 64 bits, so the sum itself as long as that is
    below 2^64), and the average it returns is the binary32 number
    obtained from the quotient of the time sum by the trial count: it
    lies within the relative distance 2^-23 of that quotient. Each trial
    starts from a zeroed accumulator, so the accumulator left is the
    product of one kernel execution, and the clock has moved by one
    reading per trial. *)
Theorem average_is_mean X A B N C t TRIALS :
  X ∈ labels -> square N C ->
  (1 <= TRIALS)%nat -> Z.of_nat TRIALS < 2 ^ 32 ->
  let run := runSingle TRIALS (multiply (letters_of X)) A B C N t in
  let timeSum := to_uint64 (total_time t TRIALS) in
  run.1.1.1 = average timeSum TRIALS
  /\ (total_time t TRIALS < 2 ^ 64 -> timeSum = total_time t TRIALS)
  /\ close (bpow (- 23)) (SF2R run.1.1.1) (IZR timeSum / IZR (Z.of_nat TRIALS))
  /\ run.1.2 = standard_product A B N
  /\ taken run.2 = (taken t + TRIALS)%nat.
Proof.
  intros HX HC H1 H32 run timeSum. subst run.
  rewrite (runSingle_kernel X) by assumption. cbn [fst snd taken].
  fold timeSum.
  split; [reflexivity|]. split; [|split; [|split]].
  - intros Hlt. subst timeSum. unfold to_uint64. apply Z.mod_small.
    split; [|assumption]. unfold total_time.
    induction (seq 0 TRIALS) as [|k l IH]; [unfold Zsum; simpl; lia|].
    rewrite fmap_cons. unfold Zsum in *. cbn [foldr].
    pose proof (to_uint64_range (readings t (taken t + k))). lia.
  - apply average_close; [apply to_uint64_range|lia].
  - destruct TRIALS; [lia|reflexivity].
  - reflexivity.
Qed.

Lemma average_is_mean_witness :
  (runSingle 5 (multiply (letters_of "ikj")) A2 B2 (new_matrix 2 2) 2
             (mkTimer (fun k => 10 + Z.of_nat k) 0)).1.1.1
  = average 60 5.
Proof.
  apply (average_is_mean "ikj" A2 B2 2 (new_matrix 2 2)
           (mkTimer (fun k => 10 + Z.of_nat k) 0) 5).
  - apply (bool_decide_unpack _). vm_compute. exact I.
  - repeat split.
  - lia.
  - lia.
Defined.

(** * Further properties of the code *)

(** ** The letter lookup *)

Lemma uint32_succ_spec index :
  Z.of_nat (uint32_succ index) = to_uint32 (Z.of_nat index + 1).
Proof.
  unfold uint32_succ. rewrite Z2Nat.id; [reflexivity|].
  unfold to_uint32. apply Z.mod_pos_bound. lia.
Qed.

Lemma uint32_succ_small index :
  Z.of_nat index + 1 < 2 ^ 32 -> uint32_succ index = (index + 1)%nat.
Proof.
  intros Hi. unfold uint32_succ, to_uint32. rewrite Z.mod_small by lia. lia.
Qed.

Lemma getIndex_absent Value Args : forall index,
  Value ∉ Args -> getIndex Value Args index = 0%nat.
Proof.
  induction Args as [|Other Args IH]; intros index Hnin; [reflexivity|].
  cbn [getIndex]. destruct (Ascii.eqb_spec Value Other) as [->|Hne].
  - exfalso. apply Hnin. left.
  - apply IH. intros Hin. apply Hnin. now right.
Qed.

Lemma getIndex_first Value Args : forall index n,
  Z.of_nat index < 2 ^ 32 ->
  Args !! n = Some Value ->
  (forall m, (m < n)%nat -> Args !! m <> Some Value) ->
  Z.of_nat (getIndex Value Args index) = to_uint32 (Z.of_nat index + Z.of_nat n).
Proof.
  induction Args as [|Other Args IH]; intros index n Hi Hn Hfirst; [discriminate|].
  cbn [getIndex]. destruct (Ascii.eqb_spec Value Other) as [->|Hne].
  - destruct n as [|n].
    + rewrite Z.add_0_r. unfold to_uint32. rewrite Z.mod_small; lia.
    + exfalso. apply (Hfirst 0%nat); [lia|reflexivity].
  - destruct n as [|n]; [cbn in Hn; congruence|].
    rewrite (IH (uint32_succ index) n).
    + rewrite uint32_succ_spec. unfold to_uint32.
      rewrite Zplus_mod_idemp_l. f_equal. lia.
    + rewrite uint32_succ_spec. unfold to_uint32.
      apply Z.mod_pos_bound. lia.
    + exact Hn.
    + intros m Hm. apply (Hfirst (S m)). lia.
Qed.

Lemma getIndex_bound Value Args : forall index,
  Z.of_nat index + Z.of_nat (length Args) <= 2 ^ 32 ->
  getIndex Value Args index = 0%nat
  \/ (index <= getIndex Value Args index < index + length Args)%nat.
Proof.
  induction Args as [|Other Args IH]; intros index Hfit; [now left|].
  cbn [getIndex length] in *. destruct (Ascii.eqb Value Other); [right; lia|].
  destruct Args as [|Other' Args]; [now left|].
  rewrite uint32_succ_small by (cbn [length] in Hfit; lia).
  destruct (IH (index + 1)%nat) as [->|Hb]; [lia|now left|right; lia].
Qed.

(** X1. [getIndex] gives the position of the first of the letters equal
    to the one looked for, counted from the start index in
    [std::uint32_t], that is modulo 2^32: from the start index
    4294967295 a letter found at the second place gives 0. When no
    letter is equal it gives 0, whatever the start index, so that a
    letter missing from the three of a label selects the outer counter.
    From start index 0, with no more than 2^32 letters, the result stays
    below the number of letters (below 1 when there are none): with
    three letters [std::get] is never asked for a component past the
    third. *)
Theorem getIndex_position Value Args index :
  Z.of_nat index < 2 ^ 32 ->
  (Value ∉ Args -> getIndex Value Args index = 0%nat)
  /\ (forall n, Args !! n = Some Value ->
        (forall m, (m < n)%nat -> Args !! m <> Some Value) ->
        Z.of_nat (getIndex Value Args index)
        = to_uint32 (Z.of_nat index + Z.of_nat n))
  /\ (Z.of_nat (length Args) <= 2 ^ 32 ->
      (getIndex Value Args 0 < Nat.max 1 (length Args))%nat)
  /\ (forall L i j k, Value ∉ [L1 L; L2 L; L3 L] -> sel L Value i j k = i).
Proof.
  intros Hi. split; [apply getIndex_absent|].
  split; [intros n; now apply getIndex_first|]. split.
  - intros Hlen. destruct (getIndex_bound Value Args 0) as [->|Hb]; lia.
  - intros L i j k Hnin. unfold sel. now rewrite getIndex_absent.
Qed.

Lemma getIndex_position_witness :
  Z.of_nat (getIndex "k" ["j"; "k"; "i"]%char 0) = 1
  /\ Z.of_nat (getIndex "b" ["a"; "b"]%char (Z.to_nat 4294967295)) = 0
  /\ sel (mkLetters "i" "i" "j") "k" 10 20 30 = 10%nat.
Proof.
  destruct (getIndex_position "k" ["j"; "k"; "i"]%char 0 ltac:(lia))
    as (_ & Hfirst & _ & _).
  destruct (getIndex_position "b" ["a"; "b"]%char (Z.to_nat 4294967295) ltac:(lia))
    as (_ & Hwrap & _ & _).
  destruct (getIndex_position "k" ["i"; "i"; "j"]%char 0 ltac:(lia))
    as (_ & _ & _ & Hsel).
  split; [|split].
  - apply (Hfirst 1%nat); [reflexivity|].
    intros m Hm. destruct m; [discriminate|lia].
  - rewrite (Hwrap 1%nat); [|reflexivity|].
    + rewrite Z2Nat.id by lia. reflexivity.
    + intros m Hm. destruct m; [discriminate|lia].
  - apply (Hsel (mkLetters "i" "i" "j")). apply (bool_decide_unpack _).
    vm_compute. exact I.
Defined.

(** ** The kernel on an accumulator that is not zeroed *)

(** X2. The kernel adds to the accumulator: for each of the six labels,
    on an N×N accumulator, every entry ends as what it held plus the sum
    over d of [A[r][d] * B[d][c]], in the scalar type, and the
    accumulator keeps its extents and its block length. *)
Theorem multiply_accumulates X A B C N t :
  X ∈ labels -> square N C ->
  square N (multiply (letters_of X) A B C N t).1.2
  /\ forall r c, (r < N)%nat -> (c < N)%nat -> in_range (elem C r c) ->
       elem (multiply (letters_of X) A B C N t).1.2 r c
       = wrap (elem C r c + exact_dot A B N r c).
Proof.
  intros HX (H0 & H1 & Hlen). unfold multiply, measure. cbn [fst snd].
  rewrite multiply_loops_visits.
  destruct (foldl_update_shape A B (visits (letters_of X) N) C) as (E0 & E1 & Elen).
  split; [unfold square; lia|].
  intros r c Hr Hc Hin.
  rewrite (foldl_update_elem A B N r c); try assumption.
  - f_equal. f_equal. rewrite <- share_iterations by assumption.
    apply Zsum_permutation, fmap_Permutation. now apply visits_permutation.
  - unfold offset. rewrite H1, Hlen.
    assert ((r + 1) * N <= N * N)%nat by (apply Nat.mul_le_mono_r; lia). lia.
  - intros r' c' d' Hv. apply (elem_of_visits X) in Hv; [lia|assumption].
Qed.

Lemma multiply_accumulates_witness :
  elem (multiply (letters_of "jik") A2 B2 (of_rows 2 [[1; 1]; [1; 1]]) 2%nat
                 (mkTimer (fun _ => 0) 0)).1.2 1 0
  = wrap (elem (of_rows 2 [[1; 1]; [1; 1]]) 1 0 + exact_dot A2 B2 2 1 0).
Proof.
  apply (multiply_accumulates "jik" A2 B2 (of_rows 2 [[1; 1]; [1; 1]]) 2
           (mkTimer (fun _ => 0) 0)).
  - apply (bool_decide_unpack _). vm_compute. exact I.
  - repeat split.
  - lia.
  - lia.
  - vm_compute. split; [discriminate|reflexivity].
Defined.

(** ** The checksum across labels and for small inputs *)

(** X3. With at least one trial, the checksum and the accumulator the
    trial runner ends with are the same for any two of the six labels,
    whatever the accumulator held before and whatever the clock shows:
    the accumulator is zeroed before each trial. *)
Theorem runSingle_label_independent X Y A B N C C' t t' TRIALS :
  X ∈ labels -> Y ∈ labels -> square N C -> square N C' -> (1 <= TRIALS)%nat ->
  (runSingle TRIALS (multiply (letters_of X)) A B C N t).1.1.2
  = (runSingle TRIALS (multiply (letters_of Y)) A B C' N t').1.1.2
  /\ (runSingle TRIALS (multiply (letters_of X)) A B C N t).1.2
     = (runSingle TRIALS (multiply (letters_of Y)) A B C' N t').1.2.
Proof.
  intros HX HY HC HC' HT.
  rewrite (runSingle_kernel X), (runSingle_kernel Y) by assumption.
  destruct TRIALS; [lia|]. split; reflexivity.
Qed.

Lemma runSingle_label_independent_witness :
  (runSingle 2 (multiply (letters_of "ijk")) A2 B2 (new_matrix 2 2) 2
             (mkTimer (fun _ => 3) 0)).1.1.2
  = (runSingle 2 (multiply (letters_of "kji")) A2 B2 (of_rows 2 [[9; 9]; [9; 9]]) 2
               (mkTimer (fun _ => 5) 0)).1.1.2.
Proof.
  apply (runSingle_label_independent "ijk" "kji" A2 B2 2 (new_matrix 2 2)
           (of_rows 2 [[9; 9]; [9; 9]]) (mkTimer (fun _ => 3) 0)
           (mkTimer (fun _ => 5) 0) 2).
  - apply (bool_decide_unpack _). vm_compute. exact I.
  - apply (bool_decide_unpack _). vm_compute. exact I.
  - repeat split.
  - repeat split.
  - lia.
Defined.

Lemma Zsum_Forall_bounds (b : Z) (l : list Z) :
  Forall (fun x => 0 <= x <= b) l -> 0 <= Zsum l <= Z.of_nat (length l) * b.
Proof.
  induction 1 as [|x l Hx Hl IH]; unfold Zsum in *; cbn [foldr length]; [lia|].
  rewrite Nat2Z.inj_succ. lia.
Qed.

Lemma exact_dot_bounds A B N r c :
  small_entries A -> small_entries B ->
  0 <= exact_dot A B N r c <= 16 * Z.of_nat N.
Proof.
  intros HA HB. unfold exact_dot.
  pose proof (Zsum_Forall_bounds 16
    ((fun d => elem A r d * elem B d c) <$> seq 0 N)) as Hb.
  rewrite length_fmap, length_seq in Hb.
  assert (0 <= Zsum ((fun d => elem A r d * elem B d c) <$> seq 0 N)
          <= Z.of_nat N * 16); [|lia].
  apply Hb. apply Forall_fmap, Forall_forall. intros d _. cbn.
  specialize (HA r d). specialize (HB d c). nia.
Qed.

Lemma standard_product_exact A B N :
  small_entries A -> small_entries B -> Z.of_nat N <= 13421 ->
  data (standard_product A B N) = exact_product A B N.
Proof.
  intros HA HB HN. unfold standard_product, exact_product. cbn [data].
  apply list_fmap_ext. intros i p _. rewrite dot_exact. apply wrap_id.
  pose proof (exact_dot_bounds A B N (p / N) (p mod N) HA HB).
  unfold in_range. lia.
Qed.

Lemma exact_product_Forall A B N :
  small_entries A -> small_entries B ->
  Forall (fun x => 0 <= x <= 16 * Z.of_nat N) (exact_product A B N).
Proof.
  intros HA HB. unfold exact_product. apply Forall_fmap, Forall_forall.
  intros p _. cbn. now apply exact_dot_bounds.
Qed.

(** The checksum of a product with small entries, at a size up to 13421. *)
Lemma expected_checksum_exact TRIALS A B N :
  (1 <= TRIALS)%nat -> small_entries A -> small_entries B -> Z.of_nat N <= 13421 ->
  expected_checksum TRIALS A B N
  = Zsum (take (Nat.min (Z.to_nat CHECKSUM_MAX) (N * N)) (exact_product A B N))
  /\ 0 <= expected_checksum TRIALS A B N <= 160000 * Z.of_nat N.
Proof.
  intros HT HA HB HN. unfold expected_checksum.
  destruct TRIALS as [|n]; [lia|]. cbn [final_C].
  rewrite standard_product_exact by assumption.
  assert (Hk : Z.to_nat (Z.min CHECKSUM_MAX (to_uint32 (Z.of_nat (N * N))))
               = Nat.min (Z.to_nat CHECKSUM_MAX) (N * N)).
  { unfold to_uint32, CHECKSUM_MAX. rewrite Z.mod_small by nia. lia. }
  rewrite Hk, accumulate_Zsum.
  set (l := take (Nat.min (Z.to_nat CHECKSUM_MAX) (N * N)) (exact_product A B N)).
  assert (Hl : Forall (fun x => 0 <= x <= 16 * Z.of_nat N) l)
    by (apply Forall_take; now apply exact_product_Forall).
  pose proof (Zsum_Forall_bounds _ _ Hl) as Hb.
  assert (Hlen : Z.of_nat (length l) <= 10000).
  { subst l. rewrite length_take. unfold CHECKSUM_MAX. lia. }
  assert (Hs : 0 <= Zsum l <= 160000 * Z.of_nat N) by nia.
  rewrite wrap_id by (unfold in_range; lia). split; [reflexivity|exact Hs].
Qed.

(** X4. For input matrices with entries between 0 and 4 and a size up to
    13421, nothing wraps around: after at least one trial of any of the
    six kernels the accumulator holds the product over the integers, and
    the checksum is the sum over the integers of its first
    min (10000, N*N) entries, a value between 0 and 160000 N. *)
Theorem checksum_exact_for_small_inputs X A B N C t TRIALS :
  X ∈ labels -> square N C -> (1 <= TRIALS)%nat ->
  small_entries A -> small_entries B -> Z.of_nat N <= 13421 ->
  data (runSingle TRIALS (multiply (letters_of X)) A B C N t).1.2
  = exact_product A B N
  /\ (runSingle TRIALS (multiply (letters_of X)) A B C N t).1.1.2
     = Zsum (take (Nat.min (Z.to_nat CHECKSUM_MAX) (N * N)) (exact_product A B N))
  /\ 0 <= (runSingle TRIALS (multiply (letters_of X)) A B C N t).1.1.2
       <= 160000 * Z.of_nat N.
Proof.
  intros HX HC HT HA HB HN.
  destruct (expected_checksum_exact TRIALS A B N HT HA HB HN) as [Heq Hb].
  rewrite (runSingle_kernel X) by assumption.
  destruct TRIALS as [|n]; [lia|]. cbn [fst snd].
  change (accumulate _ 0) with (expected_checksum (S n) A B N).
  split; [now apply standard_product_exact|split; assumption].
Qed.

Lemma small_entries_of_data M :
  Forall (fun v => 0 <= v <= 4) (data M) -> small_entries M.
Proof.
  intros HM r c. unfold elem.
  destruct (data M !! offset M r c) as [v|] eqn:E; cbn; [|lia].
  rewrite Forall_forall in HM. apply HM. eapply list_elem_of_lookup_2. exact E.
Qed.

Lemma checksum_exact_for_small_inputs_witness :
  (runSingle 1 (multiply (letters_of "kij")) A2 A2 (new_matrix 2 2) 2
             (mkTimer (fun _ => 0) 0)).1.1.2
  = Zsum (take (Nat.min (Z.to_nat CHECKSUM_MAX) (2 * 2)) (exact_product A2 A2 2)).
Proof.
  apply (checksum_exact_for_small_inputs "kij" A2 A2 2 (new_matrix 2 2)
           (mkTimer (fun _ => 0) 0) 1).
  - apply (bool_decide_unpack _). vm_compute. exact I.
  - repeat split.
  - lia.
  - apply small_entries_of_data. repeat constructor; lia.
  - apply small_entries_of_data. repeat constructor; lia.
  - lia.
Defined.

(** ** The generated matrices *)

Section Generated.
Context `{RandomSource}.

Lemma generate_loop_prefix n : forall m g,
  (n <= m)%nat -> (generate_loop n g).1 = take n (generate_loop m g).1.
Proof.
  induction n as [|n IH]; intros m g Hnm; [reflexivity|].
  destruct m as [|m]; [lia|]. cbn [generate_loop].
  destruct (call g) as [v g']. specialize (IH m g' ltac:(lia)).
  destruct (generate_loop n g') as [vs g1]. destruct (generate_loop m g') as [ws g2].
  cbn [fst take] in *. now rewrite IH.
Qed.

Lemma small_entries_input_matrix gen N : small_entries (input_matrix gen N).
Proof.
  apply small_entries_of_data. unfold input_matrix. cbn [data].
  apply generate_loop_range.
Qed.

(** X5. Every fill starts from the generator as seeded, so the matrices
    of a size are an initial part of those of any larger size: in
    row-major order, [A] (and [B]) of size N is the first N*N entries of
    [A] (and [B]) of size M, for N up to M. *)
Theorem smaller_inputs_are_prefixes gen N M :
  (N <= M)%nat ->
  data (make_inputs gen N).1.1 = take (N * N) (data (make_inputs gen M).1.1)
  /\ data (make_inputs gen N).1.2 = take (N * N) (data (make_inputs gen M).1.2).
Proof.
  intros HNM. rewrite !make_inputs_eq. cbn [fst snd]. unfold input_matrix.
  cbn [data]. split; apply generate_loop_prefix; now apply Nat.mul_le_mono.
Qed.

(** X6. In a run with at least one trial, the checksum stored for a
    size up to 13421 is free of wrap-around: it is the sum over the
    integers of the first min (10000, N*N) entries of the product of the
    generated matrix with itself, and lies between 0 and 160000 N. *)
Theorem stored_checksum_exact opts input clock memory N order v :
  (1 <= default 5 (opt_iterations opts))%nat -> Z.of_nat N <= 13421 ->
  results (main opts input clock memory).2 !! (N, order) = Some v ->
  let M := input_matrix (bind_dist (seed_engine (default 0%nat (opt_seed opts)))) N in
  v.2 = Zsum (take (Nat.min (Z.to_nat CHECKSUM_MAX) (N * N)) (exact_product M M N))
  /\ 0 <= v.2 <= 160000 * Z.of_nat N.
Proof.
  intros HT HN Hv M. rewrite (stored_checksum opts input clock memory N order v Hv).
  unfold size_checksum. fold M.
  apply expected_checksum_exact; try assumption;
    apply small_entries_input_matrix.
Qed.

End Generated.

Lemma smaller_inputs_are_prefixes_witness :
  data (make_inputs (H := lcg) (seed_engine 0) 2).1.1
  = take (2 * 2) (data (make_inputs (H := lcg) (seed_engine 0) 3).1.1).
Proof.
  apply (smaller_inputs_are_prefixes (H := lcg) (seed_engine 0) 2 3). lia.
Defined.

Lemma stored_checksum_exact_witness :
  exists v,
    results (main (H := lcg)
      (mkOptions false false (Some 1%nat) None (Some [2]%nat) (Some ["jki"%string]))
      (mkInput 0 "") (fun _ => 7) (fun _ _ => true)).2 !! (2%nat, "jki"%string) = Some v
    /\ 0 <= v.2 <= 160000 * Z.of_nat 2.
Proof.
  eexists. split; [vm_compute; reflexivity|].
  apply (stored_checksum_exact (H := lcg)
           (mkOptions false false (Some 1%nat) None (Some [2]%nat) (Some ["jki"%string]))
           (mkInput 0 "") (fun _ => 7) (fun _ _ => true) 2%nat "jki"%string).
  - cbn. lia.
  - lia.
  - vm_compute. reflexivity.
Defined.

(** ** The table printer *)

(** X7. [print] returns its text exactly when the accessor has a value
    for every pair of a size of the size list and an order of the order
    list; if it throws for one such pair (a pair [results.at] does not
    find), the exception leaves [print]. With an empty size list or an
    empty order list nothing is looked up and [print] cannot fail. *)
Theorem print_succeeds_iff title orders sizes (acc : ResultKeyType -> option Item) :
  is_Some (print title orders sizes acc)
  <-> forall N o, N ∈ sizes -> o ∈ orders -> is_Some (acc (N, o)).
Proof.
  unfold print. split.
  - intros Hsome. apply print_rows_Some_inv.
    destruct (print_rows orders sizes acc); [eexists; reflexivity|].
    destruct Hsome; discriminate.
  - intros Hacc. destruct (print_rows_is_Some orders sizes acc Hacc) as [rows ->].
    eexists; reflexivity.
Qed.

Lemma print_succeeds_iff_witness :
  is_Some (print "SUMS:" ["ijk"; "kji"] [2; 3]%nat (fun key => Some (Unsigned key.1))).
Proof.
  apply (print_succeeds_iff "SUMS:" ["ijk"; "kji"] [2; 3]%nat
           (fun key => Some (Unsigned key.1))).
  intros N o _ _. eexists; reflexivity.
Defined.

Lemma print_cells_total N orders (f : ResultKeyType -> Item) :
  print_cells N orders (fun key => Some (f key))
  = Some (orders ≫= fun o => [SetW DATA_WIDTH; f (N, o); Letter " "]).
Proof.
  induction orders as [|o orders IH]; [reflexivity|].
  cbn [print_cells]. rewrite IH. reflexivity.
Qed.

Lemma print_rows_total orders sizes (f : ResultKeyType -> Item) :
  print_rows orders sizes (fun key => Some (f key))
  = Some (sizes ≫= fun N =>
            [SetW HEADING_WIDTH; Unsigned N; Letter " "]
            ++ (orders ≫= fun o => [SetW DATA_WIDTH; f (N, o); Letter " "])
            ++ [Endl]).
Proof.
  induction sizes as [|N sizes IH]; [reflexivity|].
  cbn [print_rows]. rewrite print_cells_total, IH. cbn [mbind list_bind].
  now rewrite <- !app_assoc.
Qed.

(** X8. When the accessor has a value for every pair, the text of
    [print] is the heading (the text printed for an empty size list)
    followed by one row per element of the size list, in the order of
    that list and with repetitions kept; a row is the size, then one
    cell per element of the order list, in the order of that list, then
    the end of the line. Nothing is sorted and nothing is merged. *)
Theorem print_layout title orders sizes (f : ResultKeyType -> Item) :
  print title orders sizes (fun key => Some (f key))
  = (fun heading =>
       heading
       ++ (sizes ≫= fun N =>
             [SetW HEADING_WIDTH; Unsigned N; Letter " "]
             ++ (orders ≫= fun o => [SetW DATA_WIDTH; f (N, o); Letter " "])
             ++ [Endl]))
    <$> print title orders [] (fun key => Some (f key)).
Proof.
  unfold print. rewrite !print_rows_total. cbn [fmap option_fmap option_map mbind list_bind].
  f_equal. rewrite !app_nil_r. now rewrite <- !app_assoc.
Qed.

(** ** The driver *)

Lemma zero_trials_value (t : Timer) A B N :
  (average (to_uint64 (total_time t 0)) 0, expected_checksum 0 A B N)
  = (S754_nan, 0).
Proof.
  f_equal. unfold expected_checksum, final_C, new_matrix. cbn [data].
  rewrite accumulate_Zsum, take_replicate.
  replace (Zsum (replicate _ 0)) with 0; [reflexivity|].
  induction (Nat.min _ _) as [|n IH]; [reflexivity|].
  unfold Zsum in *. cbn [replicate foldr]. now rewrite <- IH.
Qed.

Lemma average_finite timeSum TRIALS :
  0 <= timeSum < 2 ^ 64 -> 0 < Z.of_nat TRIALS < 2 ^ 32 ->
  finite_time (average timeSum TRIALS).
Proof.
  intros HS HT. destruct (Z.eq_dec timeSum 0) as [->|Hne].
  - left. now apply average_zero.
  - destruct (average_spec timeSum TRIALS ltac:(lia) HT) as (m & e & -> & _).
    right. now exists m, e.
Qed.

Section RunProperties.
Context `{RandomSource}.

(** X9. On a free store that grants the blocks of the matrices of every
    size in use, a run never ends in an uncaught exception: the two
    tables are printed from a store that holds every pair they look up.
    Its exit status is then the failure status exactly when the help
    flag is absent, the size list in use is not empty and the order list
    in use holds a label that is not one of the six; in every other case
    it is the success status. In particular an invalid label goes
    unnoticed when the size list is empty. When the free store refuses
    one of the three blocks of the first size, the run ends in an
    exception that nothing catches ([std::bad_alloc]), with an empty
    store and no kernel executed, whatever the orders are. *)
Theorem main_exit_status opts input clock memory :
  (granted memory (select_lists opts input).1.1 ->
   (main opts input clock memory).1 <> Terminate
   /\ ((main opts input clock memory).1 = EXIT_FAILURE
       <-> opt_help opts = false
           /\ (select_lists opts input).1.1 <> []
           /\ Exists (fun o => o ∉ labels) (select_lists opts input).1.2)
   /\ ((main opts input clock memory).1 <> EXIT_FAILURE
       -> (main opts input clock memory).1 = EXIT_SUCCESS))
  /\ (forall N rest k,
        opt_help opts = false ->
        (select_lists opts input).1.1 = N :: rest ->
        (k < 3)%nat -> memory k (N * N)%nat = false ->
        (main opts input clock memory).1 = Terminate
        /\ results (main opts input clock memory).2 = ∅
        /\ taken (timer (main opts input clock memory).2) = 0%nat).
Proof.
  split.
  - intros Hgr. destruct (opt_help opts) eqn:Hhelp.
    { unfold main. rewrite Hhelp. cbn [fst]. split; [discriminate|].
      split; [|reflexivity]. split; [discriminate|]. now intros [? _]. }
    destruct (select_lists opts input) as [[sizes orders] asked] eqn:Hsel.
    cbn [fst snd] in *.
    destruct (split_orders_spec orders) as [Hpre Hbad].
    destruct (split_orders orders) as [pre [bad|]]; cbn [fst snd] in *.
    + destruct Hbad as (Hbad & post & ->). destruct sizes as [|N rest].
      * assert (Hs : (main opts input clock memory).1 = EXIT_SUCCESS).
        { unfold main. rewrite Hhelp, Hsel. cbn [for_each results].
          destruct (tables_is_Some ∅ (pre ++ bad :: post) []) as [text ->];
            [|reflexivity].
          intros N o HN. now apply elem_of_nil in HN. }
        rewrite Hs. split; [discriminate|]. split; [|reflexivity].
        split; [discriminate|]. now intros (_ & ? & _).
      * assert (Hs : (main opts input clock memory).1 = EXIT_FAILURE).
        { unfold main. rewrite Hhelp, Hsel. cbn [for_each].
          unfold granted in Hgr. apply Forall_cons in Hgr as [HN _].
          destruct (sweep_size_invalid (default 5%nat (opt_iterations opts))
                      (CUSTOM opts)
                      (bind_dist (seed_engine (default 0%nat (opt_seed opts))))
                      pre bad post N
                      (mkState ∅ asked [] (mkTimer clock 0) (mkHeap memory 0)) _
                      Hpre Hbad
                      (declare_matrices_granted N (mkHeap memory 0)
                         (fun k _ => HN (0 + k)%nat)))
            as (st' & -> & _).
          reflexivity. }
        rewrite Hs. split; [discriminate|]. split; [|now intros []].
        split; [|reflexivity]. intros _. split; [reflexivity|]. split; [discriminate|].
        apply Exists_app. right. now left.
    + subst pre.
      destruct (main_valid opts input clock memory sizes orders asked Hhelp Hsel
                  Hpre Hgr) as (st & text & _ & _ & -> & _).
      cbn [fst].
      assert (Hnone : ~ Exists (fun o => o ∉ labels) orders).
      { intros Hex. apply Exists_exists in Hex as (o & Ho & Hno).
        rewrite Forall_forall in Hpre. now apply Hno, Hpre. }
      split; [discriminate|]. split; [|reflexivity].
      split; [discriminate|]. now intros (_ & _ & ?).
  - intros N rest k Hhelp Hsizes Hk Hno. unfold main. rewrite Hhelp.
    destruct (select_lists opts input) as [[sizes orders] asked].
    cbn [fst snd] in Hsizes. subst sizes. cbn [for_each]. unfold sweep_size.
    cbn [heap]. rewrite (declare_matrices_refused N (mkHeap memory 0) k Hk Hno).
    cbn [fst snd results timer taken]. repeat split.
Qed.

(** X10. A run without the help flag whose orders are all among the six
    labels, on a free store that grants the blocks of the matrices of
    every size, ends with the success status; its store holds exactly
    the pairs of a size of the size list and an order of the order list,
    however often a size or an order is repeated; and the kernels were
    executed (and timed) once per trial for every element of the order
    list at every element of the size list, repetitions included. *)
Theorem valid_run_store opts input clock memory :
  opt_help opts = false ->
  Forall (fun o => o ∈ labels) (select_lists opts input).1.2 ->
  granted memory (select_lists opts input).1.1 ->
  (main opts input clock memory).1 = EXIT_SUCCESS
  /\ (forall key,
        is_Some (results (main opts input clock memory).2 !! key)
        <-> key.1 ∈ (select_lists opts input).1.1
            /\ key.2 ∈ (select_lists opts input).1.2)
  /\ taken (timer (main opts input clock memory).2)
     = (default 5 (opt_iterations opts)
        * length (select_lists opts input).1.2
        * length (select_lists opts input).1.1)%nat.
Proof.
  intros Hhelp Hval Hgr.
  destruct (select_lists opts input) as [[sizes orders] asked] eqn:Hsel.
  cbn [fst snd] in *.
  destruct (main_valid opts input clock memory sizes orders asked Hhelp Hsel Hval Hgr)
    as (st & text & _ & _ & -> & Hdom & _ & _ & Htm).
  cbn [fst snd results timer]. rewrite Htm. now repeat split; try apply Hdom.
Qed.


(** X12. The interactive run (no help flag, not in batch mode) with one
    of the six labels read from the input, when the three blocks of the
    matrices are granted: it ends with the success status; the store
    holds the single pair read, with the average of the trials and the
    checksum of the size; the output stream holds the prompts and then
    the report of that pair ("-- BEGIN OUTPUT --", the time, the sum,
    "-- END OUTPUT --"), and neither the closing line nor a table; the
    error stream stays empty; the clock was read for [TRIALS]
    executions and the free store was asked three times. *)
Theorem interactive_run opts input clock memory :
  opt_help opts = false -> CUSTOM opts = false ->
  in_order input ∈ labels ->
  (forall k, (k < 3)%nat -> memory k (in_N input * in_N input)%nat = true) ->
  let TRIALS := default 5%nat (opt_iterations opts) in
  let time := average (to_uint64 (total_time (mkTimer clock 0) TRIALS)) TRIALS in
  let sum := size_checksum TRIALS (default 0%nat (opt_seed opts)) (in_N input) in
  main opts input clock memory
  = (EXIT_SUCCESS,
     mkState {[ (in_N input, in_order input) := (time, sum) ]}
             ([Text "-- BEGIN INPUT --"; Endl; Text "N     ==> "; Text "Order ==> ";
               Text "-- END INPUT --"; Endl;
               Text ("-- BEGIN OUTPUT --" ++ String "010" "");
               Text "Time (us) = "; Real time; Text (String "010" "");
               Text "Sum       = "; Integer sum; Text (String "010" "");
               Text "-- END OUTPUT --"; Endl])
             [] (mkTimer clock TRIALS) (mkHeap memory 3)).
Proof.
  intros Hhelp Hc Horder Hgr TRIALS time sum.
  pose proof (interactive_outcome opts input clock memory Hhelp Hc) as Hrun.
  cbv zeta in Hrun. rewrite Hrun.
  rewrite (declare_matrices_granted (in_N input) (mkHeap memory 0)
             (fun k Hk => Hgr k Hk)).
  destruct (decide _) as [_|Hno]; [reflexivity|contradiction].
Qed.

(** X13. With the iteration count 0 every pair the run stores is
    (not-a-number, 0), for every size, order, seed, clock and free
    store: no kernel is executed, the checksum is taken over a zeroed
    accumulator and the average is the quotient of zero by zero. The
    tables of such a run show nothing else. *)
Theorem zero_iterations_store opts input clock memory key v :
  opt_iterations opts = Some 0%nat ->
  results (main opts input clock memory).2 !! key = Some v ->
  v = (S754_nan, 0).
Proof.
  intros Hit Hv.
  pose proof (main_values (fun _ v => v = (S754_nan, 0)) opts input clock memory)
    as Hall.
  rewrite Hit in Hall. cbn [default] in Hall.
  apply (Hall (fun t N X => zero_trials_value t _ _ N) key v Hv).
Qed.

(** X14. With an iteration count from 1 to 2^32 - 1 every time the run
    stores is a finite binary32 number that is not negative: zero or a
    positive finite number, never not-a-number, never an infinity,
    whatever the clock delivers (the elapsed times are summed in
    unsigned 64-bit arithmetic). *)
Theorem stored_times_finite opts input clock memory key v :
  0 < Z.of_nat (default 5%nat (opt_iterations opts)) < 2 ^ 32 ->
  results (main opts input clock memory).2 !! key = Some v ->
  finite_time v.1.
Proof.
  intros HT Hv.
  apply (main_values (fun _ v => finite_time v.1) opts input clock memory
           (fun t N X => average_finite _ _ (to_uint64_range _) HT) key v Hv).
Qed.

(** X15. The run-all flag: the sizes are 100, 200, 300, 400, 500 whatever
    the sizes option holds, and the six labels are appended to the
    traversals given, which stay in front. With valid traversals given,
    on a free store that grants the blocks of the matrices of the five
    sizes, the store holds exactly the thirty pairs of the five sizes
    and the six labels, and each given traversal is executed again with
    the six: the kernels run once per trial for five sizes times
    (given + 6) orders. *)
Theorem run_all_sweep opts input clock memory :
  opt_help opts = false -> opt_all opts = true ->
  Forall (fun o => o ∈ labels) (default [] (opt_traversals opts)) ->
  select_lists opts input
  = (default_sizes, default [] (opt_traversals opts) ++ labels, [])
  /\ (granted memory default_sizes ->
      (main opts input clock memory).1 = EXIT_SUCCESS
      /\ (forall key,
            is_Some (results (main opts input clock memory).2 !! key)
            <-> key.1 ∈ default_sizes /\ key.2 ∈ labels)
      /\ taken (timer (main opts input clock memory).2)
         = (default 5 (opt_iterations opts)
            * (length (default [] (opt_traversals opts)) + 6) * 5)%nat).
Proof.
  intros Hhelp Hall Hgiven.
  assert (Hsel : select_lists opts input
                 = (default_sizes, default [] (opt_traversals opts) ++ labels, [])).
  { unfold select_lists, RUN_ALL. now rewrite Hall. }
  split; [exact Hsel|]. intros Hgr.
  destruct (main_valid opts input clock memory _ _ _ Hhelp Hsel) as
    (st & text & _ & _ & -> & Hdom & _ & _ & Htm).
  { apply Forall_app. split; [exact Hgiven|]. now apply Forall_forall. }
  { exact Hgr. }
  cbn [fst snd results timer]. rewrite Htm. cbn [taken].
  split; [reflexivity|]. split.
  - intros key. rewrite Hdom, elem_of_app. split; [|tauto].
    intros [HN [Hg|Hl]]; [|tauto]. split; [assumption|].
    rewrite Forall_forall in Hgiven. now apply Hgiven.
  - rewrite length_app. reflexivity.
Qed.

End RunProperties.

Lemma main_exit_status_witness :
  (main (H := lcg)
     (mkOptions false false (Some 1%nat) None (Some [4]%nat) (Some ["ijk"%string]))
     (mkInput 0 "") (fun _ => 7) (fun _ n => (n <=? 10)%nat)).1 = Terminate
  /\ (main (H := lcg)
     (mkOptions false false (Some 1%nat) None (Some [3]%nat) (Some ["ijk"%string]))
     (mkInput 0 "") (fun _ => 7) (fun _ n => (n <=? 10)%nat)).1 <> Terminate.
Proof.
  destruct (main_exit_status (H := lcg)
     (mkOptions false false (Some 1%nat) None (Some [4]%nat) (Some ["ijk"%string]))
     (mkInput 0 "") (fun _ => 7) (fun _ n => (n <=? 10)%nat)) as [_ Hrefused].
  destruct (main_exit_status (H := lcg)
     (mkOptions false false (Some 1%nat) None (Some [3]%nat) (Some ["ijk"%string]))
     (mkInput 0 "") (fun _ => 7) (fun _ n => (n <=? 10)%nat)) as [Hgranted _].
  split.
  - apply (Hrefused 4%nat [] 0%nat); [reflexivity|reflexivity|lia|reflexivity].
  - apply Hgranted. repeat constructor.
Defined.

Lemma valid_run_store_witness :
  (main (H := lcg)
     (mkOptions false false (Some 1%nat) None (Some [2; 3]%nat)
                (Some ["ijk"%string; "kji"%string]))
     (mkInput 0 "") (fun _ => 7) (fun _ n => (n <=? 100)%nat)).1 = EXIT_SUCCESS
  /\ taken (timer (main (H := lcg)
       (mkOptions false false (Some 1%nat) None (Some [2; 3]%nat)
                  (Some ["ijk"%string; "kji"%string]))
       (mkInput 0 "") (fun _ => 7) (fun _ n => (n <=? 100)%nat)).2) = 4%nat.
Proof.
  destruct (valid_run_store (H := lcg)
              (mkOptions false false (Some 1%nat) None (Some [2; 3]%nat)
                         (Some ["ijk"%string; "kji"%string]))
              (mkInput 0 "") (fun _ => 7) (fun _ n => (n <=? 100)%nat))
    as (Hstatus & _ & Htaken).
  - reflexivity.
  - apply (bool_decide_unpack _). vm_compute. exact I.
  - repeat constructor.
  - split; [exact Hstatus|exact Htaken].
Defined.


Lemma interactive_run_witness :
  (main (H := lcg) (mkOptions false false (Some 2%nat) None None None)
        (mkInput 2 "ikj") (fun k => 10 + Z.of_nat k) (fun _ n => (n <=? 100)%nat)).1
  = EXIT_SUCCESS
  /\ cerr (main (H := lcg) (mkOptions false false (Some 2%nat) None None None)
             (mkInput 2 "ikj") (fun k => 10 + Z.of_nat k)
             (fun _ n => (n <=? 100)%nat)).2 = [].
Proof.
  assert (Hin : in_order (mkInput 2 "ikj") ∈ labels)
    by (apply (bool_decide_unpack _); vm_compute; exact I).
  pose proof (interactive_run (H := lcg)
                (mkOptions false false (Some 2%nat) None None None)
                (mkInput 2 "ikj") (fun k => 10 + Z.of_nat k)
                (fun _ n => (n <=? 100)%nat)
                eq_refl eq_refl Hin (fun k _ => eq_refl)) as Hrun.
  cbv zeta in Hrun. rewrite Hrun. split; reflexivity.
Defined.

Lemma zero_iterations_store_witness :
  exists v,
    results (main (H := lcg)
      (mkOptions false false (Some 0%nat) None (Some [2]%nat) (Some ["ijk"%string]))
      (mkInput 0 "") (fun _ => 7) (fun _ _ => true)).2 !! (2%nat, "ijk"%string) = Some v
    /\ v = (S754_nan, 0).
Proof.
  eexists. split; [vm_compute; reflexivity|].
  apply (zero_iterations_store (H := lcg)
           (mkOptions false false (Some 0%nat) None (Some [2]%nat) (Some ["ijk"%string]))
           (mkInput 0 "") (fun _ => 7) (fun _ _ => true) (2%nat, "ijk"%string)).
  - reflexivity.
  - vm_compute. reflexivity.
Defined.

Lemma stored_times_finite_witness :
  exists v,
    results (main (H := lcg)
      (mkOptions false false (Some 3%nat) None (Some [2]%nat) (Some ["kij"%string]))
      (mkInput 0 "") (fun k => 5 + Z.of_nat k) (fun _ _ => true)).2
      !! (2%nat, "kij"%string) = Some v
    /\ finite_time v.1.
Proof.
  eexists. split; [vm_compute; reflexivity|].
  apply (stored_times_finite (H := lcg)
           (mkOptions false false (Some 3%nat) None (Some [2]%nat) (Some ["kij"%string]))
           (mkInput 0 "") (fun k => 5 + Z.of_nat k) (fun _ _ => true)
           (2%nat, "kij"%string)).
  - cbn. lia.
  - vm_compute. reflexivity.
Defined.

Lemma run_all_sweep_witness :
  (main (H := lcg) (mkOptions false true (Some 1%nat) None None (Some ["ijk"%string]))
        (mkInput 0 "") (fun _ => 7) (fun _ _ => true)).1 = EXIT_SUCCESS.
Proof.
  destruct (run_all_sweep (H := lcg)
              (mkOptions false true (Some 1%nat) None None (Some ["ijk"%string]))
              (mkInput 0 "") (fun _ => 7) (fun _ _ => true)) as (_ & Hrun).
  - reflexivity.
  - reflexivity.
  - apply (bool_decide_unpack _). vm_compute. exact I.
  - destruct Hrun as (Hstatus & _); [repeat constructor|exact Hstatus].
Defined.

(** ** The time stored for a pair *)

Section Times.
Context `{RandomSource}.

Lemma sweep_first_time TRIALS CUSTOM gen sizes1 N sizes2 orders1 o orders2 st st' :
  Forall (fun x => x ∈ labels) (orders1 ++ o :: orders2) ->
  granted (grants (heap st)) (sizes1 ++ N :: sizes2) ->
  N ∉ sizes1 -> o ∉ orders1 -> results st !! (N, o) = None ->
  for_each (sizes1 ++ N :: sizes2)
    (sweep_size TRIALS CUSTOM gen (orders1 ++ o :: orders2)) st = Go st' ->
  results st' !! (N, o)
  = Some (average (to_uint64 (total_time
             (mkTimer (readings (timer st))
                (taken (timer st)
                 + TRIALS * (length (orders1 ++ o :: orders2) * length sizes1
                             + length orders1)))
             TRIALS)) TRIALS,
          expected_checksum TRIALS (input_matrix gen N) (input_matrix gen N) N).
Proof.
  intros Hval Hgr HN Ho Hnone Hrun.
  set (orders := orders1 ++ o :: orders2) in *.
  unfold granted in Hgr. apply Forall_app in Hgr as [Hg1 Hg2].
  apply Forall_cons in Hg2 as [HgN _].
  rewrite for_each_app in Hrun.
  destruct (sweep_valid TRIALS CUSTOM gen orders sizes1 st Hval Hg1)
    as (sta & Hruna & Hck & _ & _ & Htm & Hh).
  rewrite Hruna in Hrun. cbn [for_each] in Hrun.
  assert (Hnonea : results sta !! (N, o) = None).
  { pose proof (sweep_checksums_domain
      (fun N => expected_checksum TRIALS (input_matrix gen N) (input_matrix gen N) N)
      orders sizes1 (checksums (results st)) (N, o)) as Hd.
    cbv beta in Hd. rewrite <- Hck in Hd. rewrite !checksums_lookup, Hnone in Hd.
    cbn [fst snd] in Hd.
    destruct (results sta !! (N, o)) as [v|]; [|reflexivity].
    destruct (proj1 Hd) as [[x Hx]|[Hin _]]; [eexists; reflexivity|discriminate|].
    contradiction. }
  unfold sweep_size at 1 in Hrun.
  rewrite (declare_matrices_granted N (heap sta)) in Hrun
    by (intros k _; rewrite Hh; cbn [grants requested]; apply HgN).
  rewrite make_inputs_eq in Hrun.
  destruct (orders_first_time TRIALS CUSTOM (input_matrix gen N) (input_matrix gen N) N
              orders1 o orders2
              (mkState (results sta) (cout sta) (cerr sta) (timer sta)
                       (mkHeap (grants (heap sta)) (requested (heap sta) + 3)))
              Hval Ho Hnonea) as (C' & stb & Hrunb & Hv).
  fold orders in Hrunb. rewrite Hrunb in Hrun.
  cbn [timer] in Hv. rewrite Htm in Hv. cbn [readings taken] in Hv.
  pose proof (sweep_keeps TRIALS CUSTOM gen orders sizes2 (N, o) _ stb Hv) as Hk.
  rewrite Hrun in Hk. rewrite Hk.
  replace (taken (timer st)
           + TRIALS * (length orders * length sizes1 + length orders1))%nat
    with (taken (timer st) + TRIALS * length orders * length sizes1
          + TRIALS * length orders1)%nat by lia.
  reflexivity.
Qed.

(** X16. The time stored for a pair is the average over its own
    readings of the clock: in a run with valid orders, on a free store
    that grants the blocks of the matrices of every size, for the first
    occurrence of a size N in the size list (after the sizes [sizes1])
    and the first occurrence of an order in the order list (after the
    orders [orders1]), the pair stored is the average of the [TRIALS]
    elapsed times that follow those of the
    [length sizes1 * length orders + length orders1] dispatches before
    it, together with the checksum of the size. Later occurrences of the
    size or of the order are executed and timed, and leave this pair as
    it is. *)
Theorem stored_time_position opts input clock memory
    sizes1 N sizes2 orders1 o orders2 :
  opt_help opts = false ->
  (select_lists opts input).1.1 = sizes1 ++ N :: sizes2 ->
  (select_lists opts input).1.2 = orders1 ++ o :: orders2 ->
  Forall (fun x => x ∈ labels) (orders1 ++ o :: orders2) ->
  granted memory (sizes1 ++ N :: sizes2) ->
  N ∉ sizes1 -> o ∉ orders1 ->
  let TRIALS := default 5%nat (opt_iterations opts) in
  let before := (length sizes1 * length (orders1 ++ o :: orders2) + length orders1)%nat in
  results (main opts input clock memory).2 !! (N, o)
  = Some (average (to_uint64 (total_time (mkTimer clock (TRIALS * before)) TRIALS)) TRIALS,
          size_checksum TRIALS (default 0%nat (opt_seed opts)) N).
Proof.
  intros Hhelp Hsizes Horders Hval Hgr HN Ho TRIALS before.
  destruct (select_lists opts input) as [[sizes orders] asked] eqn:Hsel.
  cbn [fst snd] in Hsizes, Horders. subst sizes orders.
  destruct (main_valid opts input clock memory _ _ asked Hhelp Hsel Hval Hgr)
    as (st & text & Hrun & _ & -> & _).
  cbn [snd results].
  rewrite (sweep_first_time _ _ _ sizes1 N sizes2 orders1 o orders2
             (mkState ∅ asked [] (mkTimer clock 0) (mkHeap memory 0)) st
             Hval Hgr HN Ho (lookup_empty _) Hrun).
  cbn [timer readings taken]. unfold size_checksum. fold TRIALS.
  replace (0 + TRIALS * (length (orders1 ++ o :: orders2) * length sizes1
                         + length orders1))%nat
    with (TRIALS * before)%nat by (unfold before; lia).
  reflexivity.
Qed.

End Times.

Lemma stored_time_position_witness :
  results (main (H := lcg)
    (mkOptions false false (Some 1%nat) None (Some [2; 3]%nat)
               (Some ["ijk"%string; "kji"%string]))
    (mkInput 0 "") (fun k => Z.of_nat k) (fun _ n => (n <=? 100)%nat)).2
    !! (3%nat, "kji"%string)
  = Some (average (to_uint64 (total_time (mkTimer (fun k => Z.of_nat k) 3) 1)) 1,
          size_checksum (H := lcg) 1 0 3).
Proof.
  apply (stored_time_position (H := lcg)
           (mkOptions false false (Some 1%nat) None (Some [2; 3]%nat)
                      (Some ["ijk"%string; "kji"%string]))
           (mkInput 0 "") (fun k => Z.of_nat k) (fun _ n => (n <=? 100)%nat)
           [2%nat] 3%nat [] ["ijk"%string] "kji"%string []).
  - reflexivity.
  - reflexivity.
  - reflexivity.
  - apply (bool_decide_unpack _). vm_compute. exact I.
  - repeat constructor.
  - apply (bool_decide_unpack _). vm_compute. exact I.
  - apply (bool_decide_unpack _). vm_compute. exact I.
Defined.
